(** * External-diff plugin: patience diff, unchanged-range folding and the
      file watcher, embedded from the TypeScript sources.

    - [PatienceDiff]   : [patienceDiff.ts] ([findUnique], [uniqueCommon],
                         [longestCommonSubsequence], [patienceDiff]) and the
                         [lineDiff] conversion of [DiffView.ts];
    - [FoldUnchanged]  : [computeUnchangedRanges] of [foldUnchanged.ts];
    - [FileWatcher]    : the [FileWatcher] class, with the host's timer table.

    JavaScript numbers that hold indices, offsets and counts are modelled as
    [Z]; a read outside an array gives [undefined], modelled as [None]. *)

From Stdlib Require Import ZArith List String Ascii Bool Lia Sorted.
From stdpp Require Import gmap strings list fin_maps.

(** * Patience diff ([patienceDiff.ts]) *)

Module PatienceDiff.
Local Open Scope Z_scope.

(** The value of [arr[i]] for a [string[]]: [None] is [undefined]. *)
Definition Line : Type := option string.

Definition arr_get (arr : list string) (i : Z) : Line :=
  if i <? 0 then None else arr !! Z.to_nat i.

(** [a === b] on two array reads. *)
Definition line_eqb (a b : Line) : bool := bool_decide (a = b).

(** [interface DiffEntry]. [aIndex] or [bIndex] is [-1] on the side an entry
    does not belong to. *)
Record DiffEntry : Type := mkDiffEntry {
  line : Line;
  aIndex : Z;
  bIndex : Z
}.

(** A JavaScript [Map] keyed by lines: an association list kept in insertion
    order, which is the order [for ... of] iterates in.  [map_set] on a key
    that is present replaces the value where it stands. *)
Section JSMap.
Context {V : Type}.

Fixpoint map_get (m : list (Line * V)) (k : Line) : option V :=
  match m with
  | [] => None
  | (k', v) :: m' => if bool_decide (k' = k) then Some v else map_get m' k
  end.

Fixpoint map_set (m : list (Line * V)) (k : Line) (v : V) : list (Line * V) :=
  match m with
  | [] => [(k, v)]
  | (k', v') :: m' =>
      if bool_decide (k' = k) then (k, v) :: m' else (k', v') :: map_set m' k v
  end.
End JSMap.

(** The indices visited by [for (let i = lo; i <= hi; i++)]. *)
Definition span_indices (lo hi : Z) : list Z :=
  map (fun k => lo + Z.of_nat k) (seq 0 (Z.to_nat (hi + 1 - lo))).

(** The [{count, index}] objects of [findUnique]. *)
Record Occ : Type := mkOcc { count : Z; index : Z }.

(** One iteration of the first loop of [findUnique]: the entry of a line seen
    before is mutated in place, a new line is appended. *)
Definition findUnique_step (arr : list string) (m : list (Line * Occ)) (i : Z)
  : list (Line * Occ) :=
  let l := arr_get arr i in
  match map_get m l with
  | Some entry => map_set m l {| count := count entry + 1; index := i |}
  | None => map_set m l {| count := 1; index := i |}
  end.

Definition findUnique_counts (arr : list string) (lo hi : Z) : list (Line * Occ) :=
  fold_left (findUnique_step arr) (span_indices lo hi) [].

(** [findUnique(arr, lo, hi)]. *)
Definition findUnique (arr : list string) (lo hi : Z) : list (Line * Z) :=
  fold_left
    (fun result kv =>
       if count (snd kv) =? 1 then map_set result (fst kv) (index (snd kv))
       else result)
    (findUnique_counts arr lo hi) [].

(** The [{indexA, indexB, prev?}] objects of [uniqueCommon].  [prev] is set
    once, by [longestCommonSubsequence], just before the object is pushed on
    its pile, and the object it points to is never written again. *)
#[warnings="-register-all"]
Inductive Anchor : Type :=
  mkAnchor (indexA indexB : Z) (prev : option Anchor).

Definition indexA (x : Anchor) : Z := let '(mkAnchor a _ _) := x in a.
Definition indexB (x : Anchor) : Z := let '(mkAnchor _ b _) := x in b.
Definition prev (x : Anchor) : option Anchor := let '(mkAnchor _ _ p) := x in p.

(** [uniqueCommon(aArr, aLo, aHi, bArr, bLo, bHi)]. *)
Definition uniqueCommon (aArr : list string) (aLo aHi : Z)
    (bArr : list string) (bLo bHi : Z) : list (Line * Anchor) :=
  let ma := findUnique aArr aLo aHi in
  let mb := findUnique bArr bLo bHi in
  fold_left
    (fun result kv =>
       match map_get mb (fst kv) with
       | Some bIdx => map_set result (fst kv) (mkAnchor (snd kv) bIdx None)
       | None => result
       end)
    ma [].

(** A pile [ja[i]] of [longestCommonSubsequence].  A pile is created and
    pushed to in the same iteration, so it is never empty: it is kept as its
    last element (the top) and the elements below it, newest first. *)
Definition Pile : Type := (Anchor * list Anchor)%type.

Definition pile_top (p : Pile) : Anchor := fst p.
Definition pile_push (v : Anchor) (p : Pile) : Pile := (v, fst p :: snd p).

(** [let i = 0; while (ja[i] && ja[i][ja[i].length - 1].indexB < val.indexB) i++]. *)
Fixpoint pile_index (ja : list Pile) (valB : Z) : nat :=
  match ja with
  | [] => 0%nat
  | p :: rest =>
      if indexB (pile_top p) <? valB then S (pile_index rest valB) else 0%nat
  end.

(** The body of the [for (const val of abMap.values())] loop. *)
Definition lcs_step (ja : list Pile) (val : Anchor) : list Pile :=
  let i := pile_index ja (indexB val) in
  let val' :=
    match i with
    | O => val
    | S j =>
        match ja !! j with
        | Some p => mkAnchor (indexA val) (indexB val) (Some (pile_top p))
        | None => val
        end
    end in
  match ja !! i with
  | Some p => <[i := pile_push val' p]> ja
  | None => ja ++ [(val', [])]
  end.

(** [while (lcs[lcs.length - 1].prev) lcs.push(lcs[lcs.length - 1].prev)],
    started from [[e]]. *)
Fixpoint prev_chain (e : Anchor) : list Anchor :=
  match e with
  | mkAnchor _ _ None => [e]
  | mkAnchor _ _ (Some p) => e :: prev_chain p
  end.

(** [longestCommonSubsequence(abMap)]. *)
Definition longestCommonSubsequence (abMap : list (Line * Anchor)) : list Anchor :=
  let ja := fold_left lcs_step (map snd abMap) [] in
  match last ja with
  | None => []
  | Some p => rev (prev_chain (pile_top p))
  end.

Section Diff.
Variables aLines bLines : list string.

(** [addToResult(aIndex, bIndex)]: a push on the shared [result] array. *)
Definition addToResult (aIndex bIndex : Z) (result : list DiffEntry)
  : list DiffEntry :=
  result ++ [ {| line := if 0 <=? aIndex then arr_get aLines aIndex
                         else arr_get bLines bIndex;
                 aIndex := aIndex;
                 bIndex := bIndex |} ].

(** "Match lines at beginning".  The loop leaves as soon as [aLo > aHi], so
    [n = aHi + 1 - aLo] iterations is all it can make. *)
Fixpoint matchBeginning (n : nat) (aLo aHi bLo bHi : Z) (result : list DiffEntry)
  : Z * Z * list DiffEntry :=
  match n with
  | O => (aLo, bLo, result)
  | S n' =>
      if (aLo <=? aHi) && (bLo <=? bHi)
         && line_eqb (arr_get aLines aLo) (arr_get bLines bLo)
      then matchBeginning n' (aLo + 1) aHi (bLo + 1) bHi
             (addToResult aLo bLo result)
      else (aLo, bLo, result)
  end.

(** "Save end matches for later". *)
Fixpoint skipEnd (n : nat) (aLo aHi bLo bHi : Z) : Z * Z :=
  match n with
  | O => (aHi, bHi)
  | S n' =>
      if (aLo <=? aHi) && (bLo <=? bHi)
         && line_eqb (arr_get aLines aHi) (arr_get bLines bHi)
      then skipEnd n' aLo (aHi - 1) bLo (bHi - 1)
      else (aHi, bHi)
  end.

(** [while (aLo <= aHi) addToResult(aLo++, -1)]. *)
Definition addDeletes (aLo aHi : Z) (result : list DiffEntry) : list DiffEntry :=
  fold_left (fun r i => addToResult i (-1) r) (span_indices aLo aHi) result.

(** [while (bLo <= bHi) addToResult(-1, bLo++)]. *)
Definition addInserts (bLo bHi : Z) (result : list DiffEntry) : list DiffEntry :=
  fold_left (fun r i => addToResult (-1) i r) (span_indices bLo bHi) result.

(** "Add end matches": [while (aHi < aHiTemp) { aHi++; bHi++; addToResult(aHi, bHi) }]. *)
Definition addEndMatches (aHi aHiTemp bHi : Z) (result : list DiffEntry)
  : list DiffEntry :=
  fold_left (fun r i => addToResult i (bHi + (i - aHi)) r)
    (span_indices (aHi + 1) aHiTemp) result.

(** The calls of [recurseLCS] to [addSubMatch] in its [for] loop, one for
    each pair of neighbours in [x]. *)
Fixpoint betweenAnchors
    (addSub : Z -> Z -> Z -> Z -> list DiffEntry -> option (list DiffEntry))
    (x : list Anchor) (result : list DiffEntry) : option (list DiffEntry) :=
  match x with
  | xi :: ((xj :: _) as rest) =>
      r ← addSub (indexA xi) (indexA xj - 1) (indexB xi) (indexB xj - 1) result;
      betweenAnchors addSub rest r
  | _ => Some result
  end.

(** The body of [recurseLCS], over the [addSubMatch] it calls. *)
Definition recurseLCS_with
    (addSub : Z -> Z -> Z -> Z -> list DiffEntry -> option (list DiffEntry))
    (aLo aHi bLo bHi : Z) (ucMap : option (list (Line * Anchor)))
    (result : list DiffEntry) : option (list DiffEntry) :=
  let x := longestCommonSubsequence
             (match ucMap with
              | Some m => m
              | None => uniqueCommon aLines aLo aHi bLines bLo bHi
              end) in
  match x with
  | [] => addSub aLo aHi bLo bHi result
  | x0 :: _ =>
      r1 ← (if (aLo <? indexA x0) || (bLo <? indexB x0)
            then addSub aLo (indexA x0 - 1) bLo (indexB x0 - 1) result
            else Some result);
      r2 ← betweenAnchors addSub x r1;
      let xi := List.last x x0 in
      if (indexA xi <=? aHi) || (indexB xi <=? bHi)
      then addSub (indexA xi) aHi (indexB xi) bHi r2
      else Some r2
  end.

(** [addSubMatch(aLo, aHi, bLo, bHi)].  [addSubMatch] and [recurseLCS] call
    each other; [fuel] bounds the depth of that recursion and [None] is
    "out of fuel". *)
Fixpoint addSubMatch (fuel : nat) (aLo aHi bLo bHi : Z)
    (result : list DiffEntry) : option (list DiffEntry) :=
  match fuel with
  | O => None
  | S fuel' =>
      let '(aLo1, bLo1, result1) :=
        matchBeginning (Z.to_nat (aHi + 1 - aLo)) aLo aHi bLo bHi result in
      let aHiTemp := aHi in
      let '(aHi1, bHi1) :=
        skipEnd (Z.to_nat (aHi + 1 - aLo1)) aLo1 aHi bLo1 bHi in
      let ucMap := uniqueCommon aLines aLo1 aHi1 bLines bLo1 bHi1 in
      result2 ←
        (if (length ucMap =? 0)%nat
         then Some (addInserts bLo1 bHi1 (addDeletes aLo1 aHi1 result1))
         else recurseLCS_with (addSubMatch fuel') aLo1 aHi1 bLo1 bHi1
                (Some ucMap) result1);
      Some (addEndMatches aHi1 aHiTemp bHi1 result2)
  end.

(** [recurseLCS(aLo, aHi, bLo, bHi, ucMap)]. *)
Definition recurseLCS (fuel : nat) := recurseLCS_with (addSubMatch fuel).

(** [patienceDiff(aLines, bLines)] with a recursion budget. *)
Definition patienceDiff_fuel (fuel : nat) : option (list DiffEntry) :=
  recurseLCS fuel 0 (Z.of_nat (length aLines) - 1)
    0 (Z.of_nat (length bLines) - 1) None [].

(** [patienceDiff(aLines, bLines).lines].  Every nested [addSubMatch] works
    on a strictly shorter pair of spans, so [|A| + |B| + 1] levels are
    enough ([addSubMatch_covers] below); more fuel changes nothing
    ([patienceDiff_fuel_mono]). *)
Definition patienceDiff : option (list DiffEntry) :=
  patienceDiff_fuel (S (length aLines + length bLines)).
End Diff.

(** ** [lineDiff] ([DiffView.ts]) *)

(** A CodeMirror [Change]: the edit block [fromA..toA] of A against
    [fromB..toB] of B, in character offsets. *)
Record Change : Type := mkChange { fromA : Z; toA : Z; fromB : Z; toB : Z }.

(** [s.split("\n")]; a string is the sequence of its code units. *)
Fixpoint split_from (cur : string) (s : string) : list string :=
  match s with
  | EmptyString => [cur]
  | String c s' =>
      if Ascii.eqb c "010"%char then cur :: split_from EmptyString s'
      else split_from (cur +:+ String c EmptyString) s'
  end.

Definition split_lines (s : string) : list string := split_from EmptyString s.

(** [entry.line.length]; reading [length] of [undefined] throws. *)
Definition line_length (l : Line) : option Z :=
  (fun s => Z.of_nat (String.length s)) <$> l.

Definition isMatch (e : DiffEntry) : bool := (0 <=? aIndex e) && (0 <=? bIndex e).

Section LineDiff.
Variables aLines bLines : list string.

Definition sepA (e : DiffEntry) : Z :=
  if aIndex e <? Z.of_nat (length aLines) - 1 then 1 else 0.
Definition sepB (e : DiffEntry) : Z :=
  if bIndex e <? Z.of_nat (length bLines) - 1 then 1 else 0.

(** The inner [while]: runs over the deletions and insertions up to the
    next matched line, and gives back the entries it has not consumed. *)
Fixpoint changeRun (es : list DiffEntry) (curA curB : Z)
  : option (Z * Z * list DiffEntry) :=
  match es with
  | [] => Some (curA, curB, [])
  | e :: es' =>
      if isMatch e then Some (curA, curB, es)
      else
        len ← line_length (line e);
        if bIndex e =? -1 then changeRun es' (curA + (len + sepA e)) curB
        else changeRun es' curA (curB + (len + sepB e))
  end.

(** The outer [while].  Each iteration consumes an entry, so a budget of
    one iteration per entry is never used up. *)
Fixpoint changesLoop (n : nat) (es : list DiffEntry) (curA curB : Z)
    (changes : list Change) : option (list Change) :=
  match es with
  | [] => Some changes
  | entry :: es' =>
      match n with
      | O => None
      | S n' =>
          if isMatch entry then
            len ← line_length (line entry);
            changesLoop n' es' (curA + (len + sepA entry))
              (curB + (len + sepB entry)) changes
          else
            '(curA', curB', rest) ← changeRun es curA curB;
            changesLoop n' rest curA' curB'
              (changes ++ [mkChange curA curA' curB curB'])
      end
  end.
End LineDiff.

(** [lineDiff(a, b)]. *)
Definition lineDiff (a b : string) : option (list Change) :=
  let aLines := split_lines a in
  let bLines := split_lines b in
  diff ← patienceDiff aLines bLines;
  changesLoop aLines bLines (length diff) diff 0 0 [].

End PatienceDiff.

(** * Unchanged ranges ([foldUnchanged.ts]) *)

Module FoldUnchanged.
Local Open Scope Z_scope.

(** A CodeMirror [Text], as its lines; a document has at least one line.
    Lines are numbered from 1, offsets count one unit per line break. *)
Record Text : Type := mkText { first_line : string; more_lines : list string }.

Definition text_lines (doc : Text) : list string := first_line doc :: more_lines doc.

(** [doc.lines]. *)
Definition doc_lines (doc : Text) : Z := Z.of_nat (length (text_lines doc)).

Definition str_len (s : string) : Z := Z.of_nat (String.length s).

(** [doc.length]. *)
Definition doc_length (doc : Text) : Z :=
  fold_right (fun l n => str_len l + 1 + n) 0 (text_lines doc) - 1.

(** The [Line] objects [doc.line] and [doc.lineAt] return. *)
Record LineInfo : Type := mkLineInfo { line_from : Z; line_to : Z; number : Z }.

Fixpoint line_scan (ls : list string) (start num n : Z) : option LineInfo :=
  match ls with
  | [] => None
  | l :: rest =>
      if n =? num then Some (mkLineInfo start (start + str_len l) num)
      else line_scan rest (start + str_len l + 1) (num + 1) n
  end.

(** [doc.line(n)]; [None] is the [RangeError] for a line number outside
    [1..doc.lines]. *)
Definition line (doc : Text) (n : Z) : option LineInfo :=
  if n <? 1 then None else line_scan (text_lines doc) 0 1 n.

Fixpoint lineAt_scan (ls : list string) (start num pos : Z) : option LineInfo :=
  match ls with
  | [] => None
  | l :: rest =>
      if pos <=? start + str_len l
      then Some (mkLineInfo start (start + str_len l) num)
      else lineAt_scan rest (start + str_len l + 1) (num + 1) pos
  end.

(** [doc.lineAt(pos)]; [None] is the [RangeError] for a position outside
    [0..doc.length]. *)
Definition lineAt (doc : Text) (pos : Z) : option LineInfo :=
  if pos <? 0 then None else lineAt_scan (text_lines doc) 0 1 pos.

(** [interface FoldRange]. *)
Record FoldRange : Type := mkFoldRange { from : Z; to : Z; lines : Z }.

(** A chunk of the merge view. *)
Record Chunk : Type := mkChunk { fromA : Z; toA : Z; fromB : Z; toB : Z }.

Inductive Side : Type := SideA | SideB.

Definition chunkStart (side : Side) (c : Chunk) : Z :=
  match side with SideA => fromA c | SideB => fromB c end.
Definition chunkEnd (side : Side) (c : Chunk) : Z :=
  match side with SideA => toA c | SideB => toB c end.

(** The [if (lineCount >= minSize && ...) ranges.push(...)] of the loop body. *)
Definition pushRange (doc : Text) (minSize startLine endLine : Z)
    (ranges : list FoldRange) : option (list FoldRange) :=
  let lineCount := endLine - startLine + 1 in
  if (minSize <=? lineCount) && (1 <=? startLine) && (endLine <=? doc_lines doc)
     && (startLine <=? endLine)
  then
    s ← line doc startLine;
    e ← line doc endLine;
    Some (ranges ++ [mkFoldRange (line_from s) (line_to e) lineCount])
  else Some ranges.

(** The [for (let i = 0; i <= chunks.length; i++)] loop, from iteration [i]
    on; [rest] is [chunks.slice(i)]. *)
Fixpoint rangesLoop (doc : Text) (side : Side) (margin minSize : Z)
    (i : Z) (rest : list Chunk) (prevEndLine : Z) (ranges : list FoldRange)
  : option (list FoldRange) :=
  let startLine := if i =? 0 then 1 else prevEndLine + 1 + margin in
  match rest with
  | chunk :: rest' =>
      l ← lineAt doc (chunkStart side chunk);
      let endLine := number l - 1 - margin in
      ranges' ← pushRange doc minSize startLine endLine ranges;
      l' ← lineAt doc (Z.min (doc_length doc) (chunkEnd side chunk));
      rangesLoop doc side margin minSize (i + 1) rest' (number l') ranges'
  | [] =>
      let endLine := doc_lines doc in
      pushRange doc minSize startLine endLine ranges
  end.

(** [computeUnchangedRanges(doc, chunks, side, margin, minSize)]; [None] is
    an exception thrown by [doc.lineAt]. *)
Definition computeUnchangedRanges (doc : Text) (chunks : list Chunk)
    (side : Side) (margin minSize : Z) : option (list FoldRange) :=
  rangesLoop doc side margin minSize 0 chunks 0 [].

End FoldUnchanged.

(** * The file watcher ([FileWatcher.ts]) *)

Module FileWatcher.
Local Open Scope Z_scope.

(** [TAbstractFile]: a [TFile], with its extension, or a folder. *)
Inductive TAbstractFile : Type :=
| TFile (path extension : string)
| TFolder (path : string).

Definition path (file : TAbstractFile) : string :=
  match file with TFile p _ => p | TFolder p => p end.

(** [interface ExternalDiffSettings]. *)
Record ExternalDiffSettings : Type := mkSettings {
  enabled : bool;
  debounceMs : Z
}.

(** The fields of a [FileWatcher].  The handle [setTimeout] returns is a
    positive integer. *)
Record Watcher : Type := mkWatcher {
  settings : ExternalDiffSettings;
  snapshots : gmap string string;
  recentlyEditedInternally : gset string;
  pendingExternalPaths : gset string;
  debounceTimers : gmap string positive
}.

(** What the watcher uses of the host's timers: the timeouts that are armed
    and have not fired or been cleared, each with the path its callback has
    captured and the time it is due, the next handle, and the clock. *)
Record Host : Type := mkHost {
  timeouts : gmap positive (string * Z);
  nextTimer : positive;
  now : Z
}.

(** [setTimeout(() => ..., delay)] for the callback of [markAsInternalEdit]
    on [p].  The host reads [delay] as a 32-bit integer: for a delay from 1
    to 2147483647 the timeout is due that many milliseconds from now, as
    here; for a greater delay the host does not wait that long. *)
Definition setTimeout (p : string) (delay : Z) (h : Host) : positive * Host :=
  (nextTimer h,
   {| timeouts := <[nextTimer h := (p, now h + Z.max 0 delay)]> (timeouts h);
      nextTimer := Pos.succ (nextTimer h);
      now := now h |}).

(** [clearTimeout(id)]. *)
Definition clearTimeout (id : positive) (h : Host) : Host :=
  {| timeouts := delete id (timeouts h);
     nextTimer := nextTimer h;
     now := now h |}.

(** A markdown view of the workspace: the path of its file, if it has one,
    and what its editor shows. *)
Record MarkdownView : Type := mkView {
  view_file : option string;
  editor_value : string
}.

(** A call of [onExternalChange(path, oldContent, newContent)]. *)
Record Report : Type := mkReport {
  report_path : string;
  oldContent : string;
  newContent : string
}.

Definition set_snapshot (p c : string) (w : Watcher) : Watcher :=
  {| settings := settings w;
     snapshots := <[p := c]> (snapshots w);
     recentlyEditedInternally := recentlyEditedInternally w;
     pendingExternalPaths := pendingExternalPaths w;
     debounceTimers := debounceTimers w |}.

Definition add_pending (p : string) (w : Watcher) : Watcher :=
  {| settings := settings w;
     snapshots := snapshots w;
     recentlyEditedInternally := recentlyEditedInternally w;
     pendingExternalPaths := {[p]} ∪ pendingExternalPaths w;
     debounceTimers := debounceTimers w |}.

(** [editorHasContent(path, content)] over the markdown views that are open. *)
Definition editorHasContent (p content : string) (views : list MarkdownView)
  : bool :=
  existsb (fun view => bool_decide (view_file view = Some p)
                       && bool_decide (editor_value view = content)) views.

(** [handleModify] from the return of [await cachedRead(file)] on: [content]
    is what was read and [views] the markdown views open at that time. *)
Definition handleModify_resume (p content : string) (views : list MarkdownView)
    (w : Watcher) : Watcher * list Report :=
  match snapshots w !! p with
  | None => (set_snapshot p content w, [])
  | Some old =>
      if bool_decide (old = content) then (set_snapshot p content w, [])
      else if bool_decide (p ∈ pendingExternalPaths w)
      then (w, [mkReport p old content])
      else if bool_decide (p ∈ recentlyEditedInternally w)
      then (set_snapshot p content w, [])
      else if editorHasContent p content views
      then (set_snapshot p content w, [])
      else (add_pending p w, [mkReport p old content])
  end.

(** [handleModify(file)]: the two guards, then the read and the rest.  The
    guards read only [file] and [settings.enabled]; everything after the
    [await] runs without suspension on the state it finds. *)
Definition handleModify (file : TAbstractFile) (content : string)
    (views : list MarkdownView) (w : Watcher) : Watcher * list Report :=
  match file with
  | TFolder _ => (w, [])
  | TFile p ext =>
      if negb (bool_decide (ext = "md"%string)) then (w, [])
      else if negb (enabled (settings w)) then (w, [])
      else handleModify_resume p content views w
  end.

(** [handleCreate(file)]; [content] is what [cachedRead] gives.  The
    per-file callback of [start()] does the same. *)
Definition handleCreate (file : TAbstractFile) (content : string) (w : Watcher)
  : Watcher :=
  match file with
  | TFolder _ => w
  | TFile p ext =>
      if negb (bool_decide (ext = "md"%string)) then w
      else set_snapshot p content w
  end.

(** [handleDelete(file)]. *)
Definition handleDelete (file : TAbstractFile) (w : Watcher) : Watcher :=
  match file with
  | TFolder _ => w
  | TFile p _ =>
      {| settings := settings w;
         snapshots := delete p (snapshots w);
         recentlyEditedInternally := recentlyEditedInternally w ∖ {[p]};
         pendingExternalPaths := pendingExternalPaths w;
         debounceTimers := debounceTimers w |}
  end.

(** [handleRename(file, oldPath)]. *)
Definition handleRename (file : TAbstractFile) (oldPath : string) (w : Watcher)
  : Watcher :=
  match file with
  | TFolder _ => w
  | TFile p _ =>
      let snapshots1 :=
        match snapshots w !! oldPath with
        | Some content => <[p := content]> (delete oldPath (snapshots w))
        | None => snapshots w
        end in
      let recent1 :=
        if bool_decide (oldPath ∈ recentlyEditedInternally w)
        then {[p]} ∪ (recentlyEditedInternally w ∖ {[oldPath]})
        else recentlyEditedInternally w in
      {| settings := settings w;
         snapshots := snapshots1;
         recentlyEditedInternally := recent1;
         pendingExternalPaths := pendingExternalPaths w;
         debounceTimers := debounceTimers w |}
  end.

(** [updateSnapshot(path, content)]. *)
Definition updateSnapshot (p content : string) (w : Watcher) : Watcher :=
  {| settings := settings w;
     snapshots := <[p := content]> (snapshots w);
     recentlyEditedInternally := recentlyEditedInternally w;
     pendingExternalPaths := pendingExternalPaths w ∖ {[p]};
     debounceTimers := debounceTimers w |}.

(** [markAsInternalEdit(path)]: mark, clear the timeout stored for the path
    if there is one, arm a new one and store its handle. *)
Definition markAsInternalEdit (p : string) (s : Watcher * Host) : Watcher * Host :=
  let '(w, h) := s in
  let recent1 := {[p]} ∪ recentlyEditedInternally w in
  let existing := debounceTimers w !! p in
  let h1 := match existing with Some id => clearTimeout id h | None => h end in
  let '(id, h2) := setTimeout p (debounceMs (settings w)) h1 in
  ({| settings := settings w;
      snapshots := snapshots w;
      recentlyEditedInternally := recent1;
      pendingExternalPaths := pendingExternalPaths w;
      debounceTimers := <[p := id]> (debounceTimers w) |}, h2).

(** The callback armed by [markAsInternalEdit(p)]. *)
Definition markerExpired (p : string) (w : Watcher) : Watcher :=
  {| settings := settings w;
     snapshots := snapshots w;
     recentlyEditedInternally := recentlyEditedInternally w ∖ {[p]};
     pendingExternalPaths := pendingExternalPaths w;
     debounceTimers := delete p (debounceTimers w) |}.

(** The host runs the callback of timeout [id]: it can once the timeout is
    due, if it is still armed, and the timeout is then spent.  [None] when
    the host cannot run it. *)
Definition fireTimeout (id : positive) (s : Watcher * Host)
  : option (Watcher * Host) :=
  let '(w, h) := s in
  match timeouts h !! id with
  | Some (p, due) =>
      if due <=? now h then Some (markerExpired p w, clearTimeout id h) else None
  | None => None
  end.

(** [destroy()]. *)
Definition destroy (s : Watcher * Host) : Watcher * Host :=
  let '(w, h) := s in
  ({| settings := settings w;
      snapshots := ∅;
      recentlyEditedInternally := ∅;
      pendingExternalPaths := ∅;
      debounceTimers := ∅ |},
   foldr clearTimeout h (map_to_list (debounceTimers w)).*2).

(** What can happen to a watcher, in the order the event loop runs it. *)
Inductive Event : Type :=
| Modify (file : TAbstractFile) (content : string) (views : list MarkdownView)
| Create (file : TAbstractFile) (content : string)
| Delete (file : TAbstractFile)
| Rename (file : TAbstractFile) (oldPath : string)
| UpdateSnapshot (p content : string)
| MarkAsInternalEdit (p : string)
| Destroy
| TimeoutFires (id : positive)
| Elapse (ms : Z)
| SetEnabled (b : bool)
| SetDebounceMs (ms : Z).

Definition with_settings (st : ExternalDiffSettings) (w : Watcher) : Watcher :=
  {| settings := st;
     snapshots := snapshots w;
     recentlyEditedInternally := recentlyEditedInternally w;
     pendingExternalPaths := pendingExternalPaths w;
     debounceTimers := debounceTimers w |}.

Definition elapse (ms : Z) (h : Host) : Host :=
  {| timeouts := timeouts h; nextTimer := nextTimer h;
     now := now h + Z.max 0 ms |}.

(** A watcher, the host's timers and the reports made so far. *)
Record World : Type := mkWorld {
  watcher : Watcher;
  host : Host;
  reported : list Report
}.

Definition step (s : World) (ev : Event) : World :=
  let w := watcher s in
  let h := host s in
  match ev with
  | Modify file content views =>
      let '(w', reports) := handleModify file content views w in
      mkWorld w' h (reported s ++ reports)
  | Create file content => mkWorld (handleCreate file content w) h (reported s)
  | Delete file => mkWorld (handleDelete file w) h (reported s)
  | Rename file oldPath => mkWorld (handleRename file oldPath w) h (reported s)
  | UpdateSnapshot p content => mkWorld (updateSnapshot p content w) h (reported s)
  | MarkAsInternalEdit p =>
      let '(w', h') := markAsInternalEdit p (w, h) in mkWorld w' h' (reported s)
  | Destroy => let '(w', h') := destroy (w, h) in mkWorld w' h' (reported s)
  | TimeoutFires id =>
      match fireTimeout id (w, h) with
      | Some (w', h') => mkWorld w' h' (reported s)
      | None => s
      end
  | Elapse ms => mkWorld w (elapse ms h) (reported s)
  | SetEnabled b =>
      mkWorld (with_settings (mkSettings b (debounceMs (settings w))) w) h
        (reported s)
  | SetDebounceMs ms =>
      mkWorld (with_settings (mkSettings (enabled (settings w)) ms) w) h
        (reported s)
  end.

Definition run (evs : list Event) (s : World) : World := fold_left step evs s.

(** [new FileWatcher(app, settings, onExternalChange)], no timeout armed. *)
Definition initial (st : ExternalDiffSettings) : World :=
  mkWorld (mkWatcher st ∅ ∅ ∅ ∅) (mkHost ∅ 1%positive 0) [].

End FileWatcher.

(** * The fold state ([foldUnchanged.ts], [DiffView.ts]) *)

Module FoldField.
Import FoldUnchanged.
Local Open Scope Z_scope.

(** The two widgets, with their [lines] and [index]. *)
Inductive Widget : Type :=
| CollapsedWidget (lines index : Z)
| CollapseBarWidget (lines index : Z).

(** A call [builder.add(from, to, decoration)]. *)
Record Added : Type := mkAdded { add_from : Z; add_to : Z; widget : Widget }.

(** The loop of [buildDecorations], from index [i] on; the result is the
    calls of [builder.add] in the order they are made.  The builder takes
    the calls when they come in the order of their positions and throws
    otherwise: the list is the decoration set for calls in that order
    ([apart], below), which is the case for ranges that are in order and
    apart. *)
Fixpoint buildFrom (i : Z) (ranges : list FoldRange) (foldedIds : gset Z)
  : list Added :=
  match ranges with
  | [] => []
  | r :: rest =>
      (if to r <=? from r then []
       else if bool_decide (i ∈ foldedIds)
       then [mkAdded (from r) (to r) (CollapsedWidget (lines r) i)]
       else [mkAdded (from r) (from r) (CollapseBarWidget (lines r) i)])
      ++ buildFrom (i + 1) rest foldedIds
  end.

(** [buildDecorations(ranges, foldedIds)]. *)
Definition buildDecorations (ranges : list FoldRange) (foldedIds : gset Z)
  : list Added :=
  buildFrom 0 ranges foldedIds.

(** [interface FoldState]. *)
Record FoldState : Type := mkFoldState {
  ranges : list FoldRange;
  foldedIds : gset Z;
  decorations : list Added
}.

(** The effects of a transaction: [setFoldRanges], [toggleFold], or one
    that is neither. *)
Inductive Effect : Type :=
| SetFoldRanges (value : list FoldRange)
| ToggleFold (value : Z)
| OtherEffect.

(** What [update] reads of a transaction. *)
Record Transaction : Type := mkTransaction {
  docChanged : bool;
  mapPos : Z -> Z;
  effects : list Effect
}.

(** [foldField.create]. *)
Definition create : FoldState := mkFoldState [] ∅ [].

(** [new Set(ranges.map((_, i) => i))]. *)
Definition all_indices (ranges : list FoldRange) : gset Z :=
  list_to_set (map Z.of_nat (seq 0 (length ranges))).

(** The body of [for (const e of tr.effects)], on [ranges], [foldedIds] and
    [changed]. *)
Definition applyEffect (acc : list FoldRange * gset Z * bool) (e : Effect)
  : list FoldRange * gset Z * bool :=
  let '(ranges, foldedIds, changed) := acc in
  match e with
  | SetFoldRanges value => (value, all_indices value, true)
  | ToggleFold value =>
      (ranges,
       if bool_decide (value ∈ foldedIds) then foldedIds ∖ {[value]}
       else foldedIds ∪ {[value]},
       true)
  | OtherEffect => acc
  end.

(** [foldField.update(state, tr)]. *)
Definition update (state : FoldState) (tr : Transaction) : FoldState :=
  let '(ranges0, changed0) :=
    if docChanged tr
    then (map (fun r => mkFoldRange (mapPos tr (from r)) (mapPos tr (to r))
                          (lines r))
              (ranges state), true)
    else (ranges state, false) in
  let '(ranges1, foldedIds1, changed1) :=
    fold_left applyEffect (effects tr) (ranges0, foldedIds state, changed0) in
  if changed1
  then mkFoldState ranges1 foldedIds1 (buildDecorations ranges1 foldedIds1)
  else state.

(** [view.dispatch({effects: toggleFold.of(index)})]. *)
Definition toggle (index : Z) : Transaction :=
  mkTransaction false (fun pos => pos) [ToggleFold index].

(** [view.dispatch({effects: setFoldRanges.of(ranges)})]. *)
Definition setRanges (rs : list FoldRange) : Transaction :=
  mkTransaction false (fun pos => pos) [SetFoldRanges rs].

(** The fold states of the two editors of a [MergeView]. *)
Record MergeFolds : Type := mkMergeFolds { a : FoldState; b : FoldState }.

(** The end of [createMergeView]: the unchanged ranges of both sides, with
    margin 2 and at least 4 lines, dispatched to the two editors. *)
Definition initialFolds (docA docB : Text) (chunks : list Chunk)
  : option MergeFolds :=
  rangesA ← computeUnchangedRanges docA chunks SideA 2 4;
  rangesB ← computeUnchangedRanges docB chunks SideB 2 4;
  Some (mkMergeFolds (update create (setRanges rangesA))
                     (update create (setRanges rangesB))).

(** A click on the widget [index] of editor A: the widget dispatches
    [toggleFold] to its own view and calls [syncA], which dispatches it to
    editor B.  A click in editor B does the same with [syncB]. *)
Definition clickA (index : Z) (m : MergeFolds) : MergeFolds :=
  let a' := update (a m) (toggle index) in
  mkMergeFolds a' (update (b m) (toggle index)).

Definition clickB (index : Z) (m : MergeFolds) : MergeFolds :=
  let b' := update (b m) (toggle index) in
  mkMergeFolds (update (a m) (toggle index)) b'.

End FoldField.

(** * The plugin ([main.ts]) *)

Module Plugin.
Import FileWatcher.
Local Open Scope Z_scope.

(** A [PendingDiff]: its two contents, and the [path] its callbacks have
    captured. *)
Record PendingDiff : Type := mkPendingDiff {
  diff_path : string;
  diff_oldContent : string;
  diff_newContent : string
}.

(** The plugin: its watcher, the host's timers, its pending diffs, and the
    calls of [vault.modify(file, content)] it has made. *)
Record State : Type := mkState {
  fileWatcher : Watcher;
  timers : Host;
  pendingDiffs : gmap string PendingDiff;
  written : list (TAbstractFile * string)
}.

(** [makeDiffCallbacks(path, oldContent, newContent)]. *)
Definition makeDiffCallbacks (p oldContent newContent : string) : PendingDiff :=
  mkPendingDiff p oldContent newContent.

(** [diff.onAccept(content)]; [file] is what
    [vault.getAbstractFileByPath(path)] returns. *)
Definition onAccept (d : PendingDiff) (content : string)
    (file : option TAbstractFile) (st : State) : State :=
  let pending1 := delete (diff_path d) (pendingDiffs st) in
  let w1 := updateSnapshot (diff_path d) content (fileWatcher st) in
  if bool_decide (content = diff_newContent d)
  then mkState w1 (timers st) pending1 (written st)
  else
    match file with
    | Some f =>
        let '(w2, h2) := markAsInternalEdit (diff_path d) (w1, timers st) in
        mkState w2 h2 pending1 (written st ++ [(f, content)])
    | None => mkState w1 (timers st) pending1 (written st)
    end.

(** [diff.onReject()]. *)
Definition onReject (d : PendingDiff) (file : option TAbstractFile)
    (st : State) : State :=
  let pending1 := delete (diff_path d) (pendingDiffs st) in
  match file with
  | Some f =>
      let '(w1, h1) :=
        markAsInternalEdit (diff_path d) (fileWatcher st, timers st) in
      mkState (updateSnapshot (diff_path d) (diff_oldContent d) w1) h1
        pending1 (written st ++ [(f, diff_oldContent d)])
  | None =>
      mkState (updateSnapshot (diff_path d) (diff_oldContent d)
                 (fileWatcher st))
        (timers st) pending1 (written st)
  end.

(** [handleExternalChange(path, oldContent, newContent)], as far as the
    plugin's own state goes (the rest shows the diff in the tab). *)
Definition handleExternalChange (r : Report) (st : State) : State :=
  mkState (fileWatcher st) (timers st)
    (<[report_path r :=
         makeDiffCallbacks (report_path r) (oldContent r) (newContent r)]>
       (pendingDiffs st))
    (written st).

(** What happens to the plugin: an event of the watcher (the vault events
    it is registered for, an [editor-change], a timeout, time, a change of
    the settings, [onunload]), with [handleExternalChange] called for each
    report; a click on Accept or Reject for a diff; one of the two test
    commands, which write and call [handleExternalChange] themselves. *)
Inductive Action : Type :=
| Watch (ev : Event)
| Accept (d : PendingDiff) (content : string) (file : option TAbstractFile)
| Reject (d : PendingDiff) (file : option TAbstractFile)
| TestSimulate (file : TAbstractFile) (oldContent newContent : string).

Definition act (st : State) (a : Action) : State :=
  match a with
  | Watch ev =>
      let s := step (mkWorld (fileWatcher st) (timers st) []) ev in
      fold_left (fun st' r => handleExternalChange r st') (reported s)
        (mkState (watcher s) (host s) (pendingDiffs st) (written st))
  | Accept d content file => onAccept d content file st
  | Reject d file => onReject d file st
  | TestSimulate file oldContent newContent =>
      let '(w1, h1) :=
        markAsInternalEdit (path file) (fileWatcher st, timers st) in
      handleExternalChange (mkReport (path file) oldContent newContent)
        (mkState w1 h1 (pendingDiffs st)
           (written st ++ [(file, newContent)]))
  end.

Definition acts (l : list Action) (st : State) : State := fold_left act l st.

(** The plugin after [onload]. *)
Definition loaded (settings : ExternalDiffSettings) : State :=
  mkState (mkWatcher settings ∅ ∅ ∅ ∅) (mkHost ∅ 1%positive 0) ∅ [].

End Plugin.

(** * Proofs about the patience diff *)

Section PatienceDiffFacts.
Import PatienceDiff.
Local Open Scope Z_scope.
Local Abbreviation NoDup := List.NoDup.

(** ** Index spans *)

Lemma span_indices_nil lo hi : hi < lo -> span_indices lo hi = [].
Proof.
  intros H. unfold span_indices.
  replace (Z.to_nat (hi + 1 - lo)) with 0%nat by lia. reflexivity.
Qed.

Lemma span_indices_cons lo hi :
  lo <= hi -> span_indices lo hi = lo :: span_indices (lo + 1) hi.
Proof.
  intros H. unfold span_indices.
  replace (Z.to_nat (hi + 1 - lo)) with (S (Z.to_nat (hi + 1 - (lo + 1)))) by lia.
  cbn [seq map]. f_equal; [lia|].
  rewrite <- seq_shift, map_map.
  apply map_ext. intros k. lia.
Qed.


Lemma map_seq_from {A} (f : nat -> A) s n :
  map f (seq s n) = map (fun k => f (s + k)%nat) (seq 0 n).
Proof.
  revert s f. induction n as [|n IH]; intros s f; [reflexivity|].
  cbn [seq map]. f_equal; [f_equal; lia|].
  rewrite (IH (S s)), (IH 1%nat). apply map_ext. intros k. f_equal. lia.
Qed.

Lemma span_indices_app lo mid hi :
  lo <= mid + 1 -> mid <= hi ->
  span_indices lo mid ++ span_indices (mid + 1) hi = span_indices lo hi.
Proof.
  intros H1 H2. unfold span_indices.
  replace (Z.to_nat (hi + 1 - lo))
    with (Z.to_nat (mid + 1 - lo) + Z.to_nat (hi + 1 - (mid + 1)))%nat by lia.
  rewrite seq_app, map_app. cbn [Nat.add].
  rewrite (map_seq_from _ (Z.to_nat (mid + 1 - lo))).
  apply (f_equal (app _)), map_ext. intros k. lia.
Qed.

Lemma in_span_indices lo hi i : In i (span_indices lo hi) <-> lo <= i <= hi.
Proof.
  unfold span_indices. rewrite in_map_iff. split.
  - intros (k & <- & Hk). apply in_seq in Hk. lia.
  - intros H. exists (Z.to_nat (i - lo)). split; [lia|]. apply in_seq. lia.
Qed.


Lemma span_indices_sorted lo hi : StronglySorted Z.lt (span_indices lo hi).
Proof.
  remember (Z.to_nat (hi + 1 - lo)) as n eqn:Hn.
  revert lo Hn. induction n as [|n IH]; intros lo Hn.
  - rewrite span_indices_nil by lia. constructor.
  - rewrite span_indices_cons by lia. constructor.
    + apply IH. lia.
    + apply List.Forall_forall. intros i Hi. apply in_span_indices in Hi. lia.
Qed.

Lemma StronglySorted_filter {A} (R : A -> A -> Prop) (f : A -> bool) l :
  StronglySorted R l -> StronglySorted R (List.filter f l).
Proof.
  induction 1 as [|a l Hl IH Ha]; cbn [List.filter]; [constructor|].
  destruct (f a); [|exact IH].
  constructor; [exact IH|].
  apply List.Forall_forall. intros x Hx. apply filter_In in Hx.
  rewrite List.Forall_forall in Ha. now apply Ha.
Qed.

(** ** The insertion-ordered map *)

Section JSMapFacts.
Context {V : Type}.
Implicit Types (m : list (Line * V)) (k : Line) (v : V).

Lemma map_get_None m k : map_get m k = None <-> ~ In k (map fst m).
Proof.
  induction m as [|[k' v'] m IH]; cbn; [tauto|].
  case_bool_decide as Hk.
  - split; [discriminate|]. intros H. exfalso. apply H. now left.
  - rewrite IH. tauto.
Qed.

Lemma map_get_In m k v : map_get m k = Some v -> In (k, v) m.
Proof.
  induction m as [|[k' v'] m IH]; cbn; [discriminate|].
  case_bool_decide as Hk.
  - intros [= <-]. left. now subst.
  - intros H. right. now apply IH.
Qed.

Lemma map_get_NoDup m k v :
  NoDup (map fst m) -> In (k, v) m -> map_get m k = Some v.
Proof.
  induction m as [|[k' v'] m IH]; cbn; [tauto|].
  intros Hnd [Heq|Hin]; inversion Hnd as [|? ? Hk' Hnd']; subst.
  - injection Heq as -> ->. now rewrite bool_decide_eq_true_2.
  - case_bool_decide as Hk; [|now apply IH].
    subst k'. exfalso. apply Hk'. apply in_map_iff. now exists (k, v).
Qed.

Lemma map_set_absent m k v :
  ~ In k (map fst m) -> map_set m k v = m ++ [(k, v)].
Proof.
  induction m as [|[k' v'] m IH]; cbn; [reflexivity|].
  intros H. case_bool_decide as Hk; [tauto|].
  f_equal. apply IH. tauto.
Qed.

Lemma map_set_keys m k v :
  In k (map fst m) -> map fst (map_set m k v) = map fst m.
Proof.
  induction m as [|[k' v'] m IH]; cbn; [tauto|].
  intros H. case_bool_decide as Hk; cbn; [now subst|].
  f_equal. apply IH. tauto.
Qed.

Lemma map_set_In m k v k' v' :
  NoDup (map fst m) ->
  In (k', v') (map_set m k v) <->
  (k' = k /\ v' = v) \/ (k' <> k /\ In (k', v') m).
Proof.
  induction m as [|[k0 v0] m IH]; cbn.
  - intros _. split.
    + intros [[= <- <-]|[]]. now left.
    + intros [[-> ->]|[_ []]]. now left.
  - intros Hnd. inversion Hnd as [|? ? Hk0 Hnd']; subst.
    case_bool_decide as Hk; cbn.
    + subst k0. split.
      * intros [[= <- <-]|Hin]; [now left|].
        right. split; [|now right].
        intros ->. apply Hk0. apply in_map_iff. now exists (k, v').
      * intros [[-> ->]|[Hne [[= <- <-]|Hin]]]; [now left|congruence|now right].
    + rewrite (IH Hnd'). split.
      * intros [[= <- <-]|[[-> ->]|[Hne Hin]]]; auto.
      * intros [[-> ->]|[Hne [[= <- <-]|Hin]]]; auto.
Qed.

(** A loop that only ever sets keys that are new appends its entries. *)
Lemma fold_map_set_fresh {X} (g : Line * X -> option V)
    (step : list (Line * V) -> Line * X -> list (Line * V)) l :
  (forall r kv, step r kv = match g kv with
                            | Some v => map_set r (fst kv) v
                            | None => r
                            end) ->
  forall r0, NoDup (map fst r0 ++ map fst l) ->
  fold_left step l r0 =
  r0 ++ flat_map (fun kv => match g kv with
                            | Some v => [(fst kv, v)]
                            | None => []
                            end) l.
Proof.
  intros Hstep. induction l as [|kv l IH]; intros r0 Hnd; cbn.
  - now rewrite app_nil_r.
  - rewrite Hstep. destruct (g kv) as [v|].
    + rewrite map_set_absent.
      2:{ apply NoDup_remove_2 in Hnd. intros Hin. apply Hnd.
          apply in_or_app. now left. }
      rewrite IH.
      * now rewrite <- app_assoc.
      * rewrite map_app. cbn. rewrite <- app_assoc. exact Hnd.
    + rewrite IH; [reflexivity|].
      apply NoDup_remove_1 in Hnd. exact Hnd.
Qed.
End JSMapFacts.


(** ** [findUnique] *)

Lemma filter_all {A} (f : A -> bool) l :
  (forall x, In x l -> f x = true) -> List.filter f l = l.
Proof.
  induction l as [|a l IH]; cbn; [reflexivity|].
  intros H. rewrite (H a) by now left. f_equal. apply IH. auto.
Qed.

Lemma filter_none {A} (l : list A) : List.filter (fun _ => false) l = [].
Proof. induction l; cbn; auto. Qed.

Lemma filter_twice {A} (f g : A -> bool) l :
  List.filter g (List.filter f l) = List.filter (fun x => f x && g x) l.
Proof.
  induction l as [|a l IH]; cbn; [reflexivity|].
  destruct (f a); cbn; [destruct (g a)|]; now rewrite IH.
Qed.

Lemma filter_of_map {A B} (g : A -> B) (f : B -> bool) l :
  List.filter f (map g l) = map g (List.filter (fun x => f (g x)) l).
Proof.
  induction l as [|a l IH]; cbn; [reflexivity|].
  destruct (f (g a)); cbn; now rewrite IH.
Qed.

Lemma NoDup_snoc {A} (l : list A) a :
  NoDup l -> ~ In a l -> NoDup (l ++ [a]).
Proof.
  induction 1 as [|x l Hx Hl IH]; cbn; intros Ha.
  - constructor; [tauto|constructor].
  - constructor.
    + rewrite in_app_iff. cbn. intros [?|[?|[]]]; [tauto|]. subst. tauto.
    + apply IH. tauto.
Qed.

Section FindUniqueFacts.
Variable arr : list string.

(** How many of the positions [idxs] hold the line [k]. *)
Definition occ (idxs : list Z) (k : Line) : nat :=
  length (List.filter (fun i => line_eqb (arr_get arr i) k) idxs).

(** The positions of [idxs] whose line is at no other position of [idxs]. *)
Definition once (idxs : list Z) : list Z :=
  List.filter (fun i => (occ idxs (arr_get arr i) =? 1)%nat) idxs.

(** The entries of the counting map that [findUnique] keeps. *)
Definition singles (m : list (Line * Occ)) : list (Line * Z) :=
  map (fun kv => (fst kv, index (snd kv)))
      (List.filter (fun kv => count (snd kv) =? 1) m).

Lemma occ_app l1 l2 k : occ (l1 ++ l2) k = (occ l1 k + occ l2 k)%nat.
Proof. unfold occ. now rewrite List.filter_app, length_app. Qed.

Lemma occ_one i k :
  occ [i] k = if line_eqb (arr_get arr i) k then 1%nat else 0%nat.
Proof. unfold occ. cbn. now destruct (line_eqb (arr_get arr i) k). Qed.

Lemma occ_pos l k :
  (1 <= occ l k)%nat <-> exists i, In i l /\ arr_get arr i = k.
Proof.
  unfold occ. split.
  - intros H.
    destruct (List.filter (fun i => line_eqb (arr_get arr i) k) l) as [|i r] eqn:E;
      [cbn in H; lia|].
    assert (Hi : In i (List.filter (fun i => line_eqb (arr_get arr i) k) l))
      by (rewrite E; now left).
    apply filter_In in Hi. destruct Hi as [Hi Hk].
    exists i. split; [exact Hi|]. now apply bool_decide_eq_true_1 in Hk.
  - intros (i & Hi & Hk).
    assert (Hin : In i (List.filter (fun i => line_eqb (arr_get arr i) k) l)).
    { apply filter_In. split; [exact Hi|]. now apply bool_decide_eq_true_2. }
    destruct (List.filter _ l); [destruct Hin|cbn; lia].
Qed.

Lemma line_eqb_refl k : line_eqb k k = true.
Proof. now apply bool_decide_eq_true_2. Qed.

Lemma line_eqb_neq k k' : k <> k' -> line_eqb k k' = false.
Proof. intros H. now apply bool_decide_eq_false_2. Qed.

Lemma singles_app m1 m2 : singles (m1 ++ m2) = singles m1 ++ singles m2.
Proof. unfold singles. now rewrite List.filter_app, map_app. Qed.

Lemma singles_keys_in m k i : In (k, i) (singles m) -> In k (map fst m).
Proof.
  unfold singles. rewrite in_map_iff. intros ([k' o] & [= <- <-] & Hin).
  apply filter_In in Hin. apply in_map_iff. exists (k', o). tauto.
Qed.

Lemma singles_set_present m k v :
  NoDup (map fst m) -> In k (map fst m) -> (count v =? 1) = false ->
  singles (map_set m k v) =
  List.filter (fun p => negb (line_eqb (fst p) k)) (singles m).
Proof.
  induction m as [|[k0 v0] m IH]; cbn [map fst map_set]; [intros _ []|].
  intros Hnd Hin Hv. inversion Hnd as [|? ? Hk0 Hnd']; subst.
  change ((k0, v0) :: m) with ([(k0, v0)] ++ m). rewrite singles_app.
  rewrite List.filter_app. case_bool_decide as Hk.
  - subst k0.
    change ((k, v) :: m) with ([(k, v)] ++ m). rewrite singles_app.
    unfold singles at 1. cbn. rewrite Hv. cbn.
    replace (List.filter _ (singles [(k, v0)])) with (@nil (Line * Z)).
    2:{ unfold singles. cbn. destruct (count v0 =? 1); cbn; [|reflexivity].
        now rewrite line_eqb_refl. }
    cbn. symmetry. apply filter_all. intros [k' i] Hki. cbn.
    apply singles_keys_in in Hki.
    rewrite line_eqb_neq; [reflexivity|]. intros ->. contradiction.
  - change ((k0, v0) :: map_set m k v) with ([(k0, v0)] ++ map_set m k v).
    rewrite singles_app. f_equal.
    + symmetry. apply filter_all. intros [k' i] Hki. cbn.
      apply singles_keys_in in Hki. cbn in Hki. destruct Hki as [<-|[]].
      now rewrite line_eqb_neq.
    + apply IH; [exact Hnd'| |exact Hv]. destruct Hin; [contradiction|assumption].
Qed.

Lemma once_snoc_present done i :
  (1 <= occ done (arr_get arr i))%nat ->
  once (done ++ [i]) =
  List.filter (fun j => negb (line_eqb (arr_get arr j) (arr_get arr i)))
              (once done).
Proof.
  intros H. unfold once. rewrite List.filter_app. cbn [List.filter].
  rewrite occ_app, occ_one, line_eqb_refl.
  replace (occ done (arr_get arr i) + 1 =? 1)%nat with false
    by (symmetry; apply Nat.eqb_neq; lia).
  rewrite app_nil_r, filter_twice. apply filter_ext_in. intros j Hj.
  rewrite occ_app, occ_one.
  destruct (line_eqb (arr_get arr i) (arr_get arr j)) eqn:E.
  - apply bool_decide_eq_true_1 in E. rewrite <- E, line_eqb_refl.
    rewrite andb_false_r. apply Nat.eqb_neq. lia.
  - rewrite Nat.add_0_r. rewrite (line_eqb_neq (arr_get arr j)).
    + now rewrite andb_true_r.
    + intros E'. rewrite E', line_eqb_refl in E. discriminate.
Qed.

Lemma once_snoc_absent done i :
  occ done (arr_get arr i) = 0%nat -> once (done ++ [i]) = once done ++ [i].
Proof.
  intros H. unfold once. rewrite List.filter_app. cbn [List.filter].
  rewrite occ_app, occ_one, line_eqb_refl, H. cbn [Nat.add Nat.eqb].
  f_equal. apply filter_ext_in. intros j Hj.
  rewrite occ_app, occ_one.
  destruct (line_eqb (arr_get arr i) (arr_get arr j)) eqn:E.
  - apply bool_decide_eq_true_1 in E.
    assert (1 <= occ done (arr_get arr i))%nat; [|lia].
    apply occ_pos. exists j. split; [exact Hj|now symmetry].
  - now rewrite Nat.add_0_r.
Qed.

(** What the counting map holds after the positions [done]. *)
Definition counts_inv (m : list (Line * Occ)) (done : list Z) : Prop :=
  NoDup (map fst m)
  /\ (forall k o, In (k, o) m ->
        count o = Z.of_nat (occ done k) /\ (1 <= occ done k)%nat)
  /\ (forall k, (1 <= occ done k)%nat -> In k (map fst m))
  /\ singles m = map (fun i => (arr_get arr i, i)) (once done).

Lemma counts_inv_step m done i :
  counts_inv m done -> counts_inv (findUnique_step arr m i) (done ++ [i]).
Proof.
  intros (Hnd & Hcnt & Hall & Hsing). unfold findUnique_step.
  destruct (map_get m (arr_get arr i)) as [entry|] eqn:Hget.
  - pose proof (map_get_In _ _ _ Hget) as Hin.
    destruct (Hcnt _ _ Hin) as [Hc Hpos].
    assert (Hkey : In (arr_get arr i) (map fst m)).
    { apply in_map_iff. now exists (arr_get arr i, entry). }
    repeat split.
    + now rewrite map_set_keys.
    + apply map_set_In in H; [|exact Hnd].
      destruct H as [[-> ->]|[Hne H]].
      * cbn. rewrite occ_app, occ_one, line_eqb_refl. lia.
      * rewrite occ_app, occ_one, line_eqb_neq by congruence.
        rewrite Nat.add_0_r. now apply Hcnt in H.
    + apply map_set_In in H; [|exact Hnd].
      destruct H as [[-> ->]|[Hne H]].
      * rewrite occ_app. lia.
      * rewrite occ_app, occ_one, line_eqb_neq by congruence.
        rewrite Nat.add_0_r. now apply Hcnt in H.
    + intros k Hk. rewrite map_set_keys by exact Hkey.
      rewrite occ_app, occ_one in Hk.
      destruct (line_eqb (arr_get arr i) k) eqn:E.
      * apply bool_decide_eq_true_1 in E. now subst k.
      * apply Hall. lia.
    + rewrite singles_set_present; [|exact Hnd|exact Hkey|cbn; apply Z.eqb_neq; lia].
      rewrite Hsing, once_snoc_present by exact Hpos.
      now rewrite filter_of_map.
  - apply map_get_None in Hget.
    assert (Hzero : occ done (arr_get arr i) = 0%nat).
    { destruct (occ done (arr_get arr i)) eqn:E; [reflexivity|].
      exfalso. apply Hget, Hall. lia. }
    rewrite map_set_absent by exact Hget.
    repeat split.
    + rewrite map_app. cbn. now apply NoDup_snoc.
    + apply in_app_or in H. destruct H as [H|[[= <- <-]|[]]].
      * assert (k <> arr_get arr i).
        { intros ->. apply Hget. apply in_map_iff. now exists (arr_get arr i, o). }
        rewrite occ_app, occ_one, line_eqb_neq by congruence.
        rewrite Nat.add_0_r. now apply Hcnt in H.
      * cbn. rewrite occ_app, occ_one, line_eqb_refl. lia.
    + apply in_app_or in H. destruct H as [H|[[= <- <-]|[]]].
      * rewrite occ_app. apply Hcnt in H. lia.
      * rewrite occ_app, occ_one, line_eqb_refl. lia.
    + intros k Hk. rewrite map_app. apply in_or_app.
      rewrite occ_app, occ_one in Hk.
      destruct (line_eqb (arr_get arr i) k) eqn:E.
      * apply bool_decide_eq_true_1 in E. right. now left.
      * left. apply Hall. lia.
    + rewrite singles_app, Hsing, once_snoc_absent by exact Hzero.
      rewrite map_app. reflexivity.
Qed.

Lemma counts_inv_fold l : forall m done,
  counts_inv m done ->
  counts_inv (fold_left (findUnique_step arr) l m) (done ++ l).
Proof.
  induction l as [|i l IH]; intros m done H; cbn.
  - now rewrite app_nil_r.
  - replace (done ++ i :: l) with ((done ++ [i]) ++ l)
      by now rewrite <- app_assoc.
    apply IH. now apply counts_inv_step.
Qed.

Lemma counts_inv_findUnique lo hi :
  counts_inv (findUnique_counts arr lo hi) (span_indices lo hi).
Proof.
  assert (H0 : counts_inv [] []).
  { unfold counts_inv. cbn. split; [constructor|].
    split; [tauto|]. split; [intros k Hk; lia|reflexivity]. }
  exact (counts_inv_fold (span_indices lo hi) [] [] H0).
Qed.

(** [findUnique] in closed form: the lines that stand at exactly one
    position of the span, each with that position, by increasing position. *)
Lemma findUnique_once lo hi :
  findUnique arr lo hi =
  map (fun i => (arr_get arr i, i)) (once (span_indices lo hi)).
Proof.
  destruct (counts_inv_findUnique lo hi) as (Hnd & _ & _ & Hsing).
  rewrite <- Hsing. unfold findUnique.
  rewrite (fold_map_set_fresh
             (fun kv : Line * Occ =>
                if count (snd kv) =? 1 then Some (index (snd kv)) else None)).
  - cbn. unfold singles. clear Hnd Hsing.
    induction (findUnique_counts arr lo hi) as [|[k o] m IH]; cbn; [reflexivity|].
    destruct (count o =? 1); cbn; now rewrite IH.
  - intros r kv. now destruct (count (snd kv) =? 1).
  - exact Hnd.
Qed.

Lemma NoDup_keys_filter {X} (f : Line * X -> bool) (m : list (Line * X)) :
  NoDup (map fst m) -> NoDup (map fst (List.filter f m)).
Proof.
  induction m as [|kv m IH]; cbn; [constructor|].
  intros Hnd. inversion Hnd as [|? ? Hk Hnd']; subst.
  destruct (f kv); cbn; [|now apply IH].
  constructor; [|now apply IH].
  intros Hin. apply Hk. apply in_map_iff in Hin.
  destruct Hin as (kv' & <- & Hin). apply filter_In in Hin.
  apply in_map. tauto.
Qed.

Lemma findUnique_NoDup lo hi : NoDup (map fst (findUnique arr lo hi)).
Proof.
  destruct (counts_inv_findUnique lo hi) as (Hnd & _ & _ & Hsing).
  rewrite findUnique_once, <- Hsing. unfold singles. rewrite map_map. cbn.
  now apply NoDup_keys_filter.
Qed.

Lemma findUnique_In lo hi k i :
  In (k, i) (findUnique arr lo hi) <->
  lo <= i <= hi /\ arr_get arr i = k /\ occ (span_indices lo hi) k = 1%nat.
Proof.
  rewrite findUnique_once, in_map_iff. unfold once. split.
  - intros (j & [= <- <-] & Hj). apply filter_In in Hj.
    destruct Hj as [Hj Ho]. apply in_span_indices in Hj.
    apply Nat.eqb_eq in Ho. tauto.
  - intros (Hi & <- & Ho). exists i. split; [reflexivity|].
    apply filter_In. split; [now apply in_span_indices|now apply Nat.eqb_eq].
Qed.

Lemma findUnique_key lo hi k :
  In k (map fst (findUnique arr lo hi)) <-> occ (span_indices lo hi) k = 1%nat.
Proof.
  rewrite in_map_iff. split.
  - intros ([k' i] & <- & Hin). now apply findUnique_In in Hin.
  - intros Ho. assert (Hpos : (1 <= occ (span_indices lo hi) k)%nat) by lia.
    apply occ_pos in Hpos. destruct Hpos as (i & Hi & Hk).
    exists (k, i). split; [reflexivity|].
    apply findUnique_In. apply in_span_indices in Hi. tauto.
Qed.

Lemma findUnique_sorted lo hi :
  StronglySorted Z.lt (map snd (findUnique arr lo hi)).
Proof.
  rewrite findUnique_once, map_map. cbn. rewrite map_id.
  apply StronglySorted_filter, span_indices_sorted.
Qed.
End FindUniqueFacts.

(** ** [uniqueCommon] *)

Section UniqueCommonFacts.
Variables (aArr : list string) (aLo aHi : Z) (bArr : list string) (bLo bHi : Z).

Lemma uniqueCommon_flat :
  uniqueCommon aArr aLo aHi bArr bLo bHi =
  flat_map (fun kv : Line * Z =>
              match map_get (findUnique bArr bLo bHi) (fst kv) with
              | Some bIdx => [(fst kv, mkAnchor (snd kv) bIdx None)]
              | None => []
              end)
           (findUnique aArr aLo aHi).
Proof.
  unfold uniqueCommon.
  rewrite (fold_map_set_fresh
             (fun kv : Line * Z =>
                match map_get (findUnique bArr bLo bHi) (fst kv) with
                | Some bIdx => Some (mkAnchor (snd kv) bIdx None)
                | None => None
                end)).
  - cbn. induction (findUnique aArr aLo aHi) as [|kv m IH]; cbn; [reflexivity|].
    rewrite IH. now destruct (map_get _ (fst kv)).
  - intros r kv. now destruct (map_get _ (fst kv)).
  - apply findUnique_NoDup.
Qed.

Lemma uniqueCommon_In k x :
  In (k, x) (uniqueCommon aArr aLo aHi bArr bLo bHi) <->
  exists ia ib, x = mkAnchor ia ib None
                /\ In (k, ia) (findUnique aArr aLo aHi)
                /\ In (k, ib) (findUnique bArr bLo bHi).
Proof.
  rewrite uniqueCommon_flat, in_flat_map. split.
  - intros ([k' ia] & Hin & Hx). cbn in Hx.
    destruct (map_get _ k') as [ib|] eqn:Hget; [|destruct Hx].
    destruct Hx as [[= <- <-]|[]]. apply map_get_In in Hget. eauto.
  - intros (ia & ib & -> & Ha & Hb). exists (k, ia). split; [exact Ha|].
    cbn. rewrite (map_get_NoDup _ _ ib); [now left| |exact Hb].
    apply findUnique_NoDup.
Qed.

(** The anchor keys are the lines that stand exactly once in the span of A
    and exactly once in the span of B. *)
Lemma uniqueCommon_key k :
  In k (map fst (uniqueCommon aArr aLo aHi bArr bLo bHi)) <->
  occ aArr (span_indices aLo aHi) k = 1%nat
  /\ occ bArr (span_indices bLo bHi) k = 1%nat.
Proof.
  rewrite <- !findUnique_key, !in_map_iff. split.
  - intros ([k' x] & <- & Hin). apply uniqueCommon_In in Hin.
    destruct Hin as (ia & ib & _ & Ha & Hb).
    split; [now exists (k', ia)|now exists (k', ib)].
  - intros [([k1 ia] & <- & Ha) ([k2 ib] & Hk & Hb)]. cbn in Hk. subst k2.
    exists (k1, mkAnchor ia ib None). split; [reflexivity|].
    apply uniqueCommon_In. eauto.
Qed.

Lemma uniqueCommon_sorted :
  StronglySorted Z.lt
    (map (fun kv => indexA (snd kv)) (uniqueCommon aArr aLo aHi bArr bLo bHi)).
Proof.
  rewrite uniqueCommon_flat.
  pose proof (findUnique_sorted aArr aLo aHi) as Hs.
  induction (findUnique aArr aLo aHi) as [|[k ia] m IH]; cbn; [constructor|].
  cbn in Hs. apply StronglySorted_inv in Hs. destruct Hs as [Hs Hall].
  destruct (map_get _ k) as [ib|]; cbn; [|now apply IH].
  constructor; [now apply IH|].
  apply List.Forall_forall. intros j Hj. rewrite List.Forall_forall in Hall.
  apply in_map_iff in Hj. destruct Hj as ([k' x] & <- & Hin).
  apply in_flat_map in Hin. destruct Hin as ([k2 ia2] & Hin2 & Hx). cbn in Hx.
  destruct (map_get _ k2); [|destruct Hx]. destruct Hx as [[= <- <-]|[]].
  cbn. apply Hall. apply in_map_iff. now exists (k2, ia2).
Qed.
End UniqueCommonFacts.

(** Where an anchor points: inside both spans, at equal lines. *)
Definition anchor_at (aArr : list string) (aLo aHi : Z)
    (bArr : list string) (bLo bHi : Z) (ia ib : Z) : Prop :=
  aLo <= ia <= aHi /\ bLo <= ib <= bHi /\ arr_get aArr ia = arr_get bArr ib.

Lemma uniqueCommon_anchor_at aArr aLo aHi bArr bLo bHi k x :
  In (k, x) (uniqueCommon aArr aLo aHi bArr bLo bHi) ->
  prev x = None
  /\ anchor_at aArr aLo aHi bArr bLo bHi (indexA x) (indexB x).
Proof.
  intros H. apply uniqueCommon_In in H. destruct H as (ia & ib & -> & Ha & Hb).
  apply findUnique_In in Ha, Hb. unfold anchor_at. cbn.
  intuition congruence.
Qed.

(** Diffing a span against itself only ever anchors a position to itself. *)
Lemma uniqueCommon_diag arr lo hi k x :
  In (k, x) (uniqueCommon arr lo hi arr lo hi) -> indexA x = indexB x.
Proof.
  intros H. apply uniqueCommon_In in H. destruct H as (ia & ib & -> & Ha & Hb).
  cbn. pose proof (findUnique_NoDup arr lo hi) as Hnd.
  apply (map_get_NoDup _ _ _ Hnd) in Ha, Hb. congruence.
Qed.


(** ** [longestCommonSubsequence] *)

(** [x] comes before [y] in both sequences. *)
Definition anchor_lt (x y : Anchor) : Prop :=
  indexA x < indexA y /\ indexB x < indexB y.

Section LCSFacts.
Variable P : Z -> Z -> Prop.

(** An anchor whose [prev] links go down in both indices, through anchors
    that all satisfy [P]. *)
Fixpoint chain_ok (e : Anchor) : Prop :=
  match e with
  | mkAnchor a b None => P a b
  | mkAnchor a b (Some p) =>
      P a b /\ indexA p < a /\ indexB p < b /\ chain_ok p
  end.




Lemma prev_chain_ok : forall e, chain_ok e ->
  StronglySorted anchor_lt (rev (prev_chain e))
  /\ Forall (fun y => indexA y <= indexA e /\ indexB y <= indexB e)
            (rev (prev_chain e))
  /\ Forall (fun y => P (indexA y) (indexB y)) (rev (prev_chain e)).
Proof.
  fix IH 1. intros [a b [p|]] H; cbn in H |- *.
  - destruct H as (HP & Ha & Hb & Hp).
    destruct (IH p Hp) as (Hs & Hle & HPs).
    repeat split.
    + clear IH. revert Hs Hle.
      generalize (rev (prev_chain p)). intros l Hs Hle.
      induction Hs as [|y l Hs IHs Hy]; cbn.
      * constructor; constructor.
      * inversion Hle as [|? ? Hy1 Hle']; subst.
        constructor; [now apply IHs|].
        apply Forall_app. split; [exact Hy|].
        constructor; [|constructor]. unfold anchor_lt. cbn. lia.
    + apply Forall_app. split.
      * eapply List.Forall_impl; [|exact Hle]. cbn. intros y Hy. lia.
      * constructor; [cbn; lia|constructor].
    + apply Forall_app. split; [exact HPs|]. constructor; [exact HP|constructor].
  - repeat split.
    + constructor; constructor.
    + constructor; [cbn; lia|constructor].
    + constructor; [exact H|constructor].
Qed.

Lemma pile_index_below ja b j p :
  (j < pile_index ja b)%nat -> ja !! j = Some p -> indexB (pile_top p) < b.
Proof.
  revert j. induction ja as [|q ja IH]; intros j; cbn; [lia|].
  destruct (indexB (pile_top q) <? b) eqn:E; [|lia].
  destruct j as [|j]; cbn.
  - intros _ [= <-]. lia.
  - intros Hj. apply IH. lia.
Qed.

Lemma lcs_step_tops ja v :
  prev v = None -> P (indexA v) (indexB v) ->
  Forall (fun p => chain_ok (pile_top p)
                   /\ indexA (pile_top p) < indexA v) ja ->
  Forall (fun p => chain_ok (pile_top p)
                   /\ indexA (pile_top p) <= indexA v) (lcs_step ja v).
Proof.
  intros Hprev HP Hja. unfold lcs_step.
  set (i := pile_index ja (indexB v)).
  set (v' := match i with O => v | S j => _ end).
  assert (Hv' : chain_ok v' /\ indexA v' <= indexA v).
  { subst v'. destruct i as [|j] eqn:Ei.
    - destruct v as [a b pv]. cbn in Hprev, HP |- *. subst pv. cbn. split; [exact HP|lia].
    - destruct (ja !! j) as [p|] eqn:Ej.
      + assert (Hb : indexB (pile_top p) < indexB v).
        { apply (pile_index_below ja _ j); [fold i; lia|exact Ej]. }
        rewrite List.Forall_forall in Hja.
        destruct (Hja p) as [Hok Ha].
        { apply list_elem_of_In. eapply list_elem_of_lookup_2. exact Ej. }
        cbn. split; [|lia]. tauto.
      + destruct v as [a b pv]. cbn in Hprev, HP |- *. subst pv. cbn. split; [exact HP|lia]. }
  assert (Hja' : Forall (fun p => chain_ok (pile_top p)
                                  /\ indexA (pile_top p) <= indexA v) ja).
  { eapply List.Forall_impl; [|exact Hja]. cbn. intros p [? ?]. split; [assumption|lia]. }
  destruct (ja !! i) as [p|].
  - apply Forall_insert; [exact Hja'|exact Hv'].
  - apply Forall_app. split; [exact Hja'|]. constructor; [exact Hv'|constructor].
Qed.

Lemma lcs_step_nonempty ja v : lcs_step ja v <> [].
Proof.
  unfold lcs_step. destruct (ja !! pile_index ja (indexB v)) as [p|] eqn:E.
  - intros H. apply (f_equal (@length Pile)) in H.
    rewrite length_insert in H. apply lookup_lt_Some in E. cbn in H. lia.
  - intros H. apply app_eq_nil in H. destruct H as [_ H]. discriminate.
Qed.

Lemma lcs_fold_tops vals : forall ja,
  StronglySorted Z.lt (map indexA vals) ->
  Forall (fun v => prev v = None /\ P (indexA v) (indexB v)) vals ->
  Forall (fun p => chain_ok (pile_top p)
                   /\ Forall (fun v => indexA (pile_top p) < indexA v) vals) ja ->
  Forall (fun p => chain_ok (pile_top p)) (fold_left lcs_step vals ja).
Proof.
  induction vals as [|v vals IH]; intros ja Hs Hv Hja; cbn.
  - eapply List.Forall_impl; [|exact Hja]. cbn. tauto.
  - cbn in Hs. apply StronglySorted_inv in Hs. destruct Hs as [Hs Hlt].
    inversion Hv as [|? ? [Hprev HP] Hv']; subst.
    apply IH; [exact Hs|exact Hv'|].
    assert (H1 : Forall (fun p => chain_ok (pile_top p)
                                  /\ indexA (pile_top p) < indexA v) ja).
    { eapply List.Forall_impl; [|exact Hja]. cbn. intros p [Hok Hall].
      split; [exact Hok|]. now inversion Hall. }
    pose proof (lcs_step_tops ja v Hprev HP H1) as H2.
    eapply List.Forall_impl; [|exact H2]. cbn. intros p [Hok Hle].
    split; [exact Hok|].
    rewrite List.Forall_forall in Hlt |- *. intros w Hw.
    specialize (Hlt (indexA w) (in_map indexA _ _ Hw)). lia.
Qed.

Lemma lcs_fold_nonempty vals : forall ja,
  vals <> [] \/ ja <> [] -> fold_left lcs_step vals ja <> [].
Proof.
  induction vals as [|v vals IH]; intros ja H; cbn.
  - destruct H; congruence.
  - apply IH. right. apply lcs_step_nonempty.
Qed.

(** The anchors [longestCommonSubsequence] returns go up strictly in both
    indices and are all drawn from positions that satisfy [P]; there is at
    least one as soon as the map is not empty. *)
Lemma longestCommonSubsequence_ok (abMap : list (Line * Anchor)) :
  StronglySorted Z.lt (map (fun kv => indexA (snd kv)) abMap) ->
  (forall k x, In (k, x) abMap -> prev x = None /\ P (indexA x) (indexB x)) ->
  let x := longestCommonSubsequence abMap in
  StronglySorted anchor_lt x
  /\ Forall (fun y => P (indexA y) (indexB y)) x
  /\ (abMap <> [] -> x <> []).
Proof.
  intros Hs HP. unfold longestCommonSubsequence.
  assert (Htops : Forall (fun p => chain_ok (pile_top p))
                    (fold_left lcs_step (map snd abMap) [])).
  { apply lcs_fold_tops.
    - now rewrite map_map.
    - apply List.Forall_forall. intros x Hx. apply in_map_iff in Hx.
      destruct Hx as ([k x'] & <- & Hin). cbn. eauto.
    - constructor. }
  assert (Hne : abMap <> [] -> fold_left lcs_step (map snd abMap) [] <> []).
  { intros H. apply lcs_fold_nonempty. left. destruct abMap; [congruence|discriminate]. }
  destruct (last (fold_left lcs_step (map snd abMap) [])) as [p|] eqn:El.
  - cbn. assert (Hp : chain_ok (pile_top p)).
    { rewrite List.Forall_forall in Htops. apply Htops.
      apply list_elem_of_In. rewrite last_lookup in El.
      eapply list_elem_of_lookup_2. exact El. }
    destruct (prev_chain_ok _ Hp) as (H1 & _ & H3).
    repeat split; [exact H1|exact H3|].
    intros _ H. apply (f_equal (@length Anchor)) in H.
    rewrite length_rev in H. destruct (pile_top p) as [? ? [?|]]; discriminate.
  - cbn. repeat split; [constructor|constructor|].
    intros H. apply Hne in H. apply last_None in El. contradiction.
Qed.
End LCSFacts.


(** ** [addSubMatch] and [recurseLCS] *)

(** The entries that belong to A (Match and DeleteOnly) and to B (Match and
    InsertOnly). *)
Definition aSide (r : list DiffEntry) : list DiffEntry :=
  List.filter (fun e => 0 <=? aIndex e) r.
Definition bSide (r : list DiffEntry) : list DiffEntry :=
  List.filter (fun e => 0 <=? bIndex e) r.

(** [lo..hi] is a span of an array of [n] elements; [hi = lo - 1] is the
    empty span. *)
Definition span_ok (lo hi : Z) (n : nat) : Prop :=
  0 <= lo /\ lo <= hi + 1 /\ hi < Z.of_nat n.

Definition span_size (aLo aHi bLo bHi : Z) : nat :=
  (Z.to_nat (aHi + 1 - aLo) + Z.to_nat (bHi + 1 - bLo))%nat.

Section DiffFacts.
Variables A B : list string.

(** An entry is a Match, a DeleteOnly or an InsertOnly, and carries the
    line of the position(s) it names. *)
Definition entry_ok (e : DiffEntry) : Prop :=
  (aIndex e = -1 \/ 0 <= aIndex e)
  /\ (bIndex e = -1 \/ 0 <= bIndex e)
  /\ (0 <= aIndex e \/ 0 <= bIndex e)
  /\ (0 <= aIndex e -> line e = arr_get A (aIndex e))
  /\ (0 <= bIndex e -> line e = arr_get B (bIndex e)).

(** [out] lists the positions [aLo..aHi] of A and [bLo..bHi] of B, each
    once and in order. *)
Definition covers (aLo aHi bLo bHi : Z) (out : list DiffEntry) : Prop :=
  map aIndex (aSide out) = span_indices aLo aHi
  /\ map bIndex (bSide out) = span_indices bLo bHi
  /\ Forall entry_ok out.

Lemma covers_nil aLo aHi bLo bHi :
  aHi < aLo -> bHi < bLo -> covers aLo aHi bLo bHi [].
Proof.
  intros Ha Hb. unfold covers. cbn.
  rewrite !span_indices_nil by lia. repeat split. constructor.
Qed.

Lemma covers_app a1 a2 a3 b1 b2 b3 o1 o2 :
  covers a1 a2 b1 b2 o1 -> covers (a2 + 1) a3 (b2 + 1) b3 o2 ->
  a1 <= a2 + 1 -> a2 <= a3 -> b1 <= b2 + 1 -> b2 <= b3 ->
  covers a1 a3 b1 b3 (o1 ++ o2).
Proof.
  intros (Ha1 & Hb1 & Hok1) (Ha2 & Hb2 & Hok2) ? ? ? ?.
  unfold covers, aSide, bSide in *.
  rewrite !List.filter_app, !map_app, Ha1, Ha2, Hb1, Hb2.
  rewrite !span_indices_app by lia. repeat split.
  apply Forall_app. tauto.
Qed.

Definition entry (a b : Z) : DiffEntry :=
  {| line := if 0 <=? a then arr_get A a else arr_get B b;
     aIndex := a; bIndex := b |}.

Lemma fold_addToResult {X} (f g : X -> Z) l : forall res,
  fold_left (fun r i => addToResult A B (f i) (g i) r) l res =
  res ++ map (fun i => entry (f i) (g i)) l.
Proof.
  induction l as [|i l IH]; intros res; cbn.
  - now rewrite app_nil_r.
  - rewrite IH. unfold addToResult. now rewrite <- app_assoc.
Qed.

(** A run of Match entries [(a+1, b+1) .. (a+k, b+k)]. *)
Definition match_run (a b : Z) (k : nat) : list DiffEntry :=
  map (fun j => entry (a + Z.of_nat j) (b + Z.of_nat j)) (seq 1 k).

Lemma match_run_S a b k :
  match_run a b (S k) = entry (a + 1) (b + 1) :: match_run (a + 1) (b + 1) k.
Proof.
  unfold match_run. cbn [seq map]. f_equal.
  rewrite <- seq_shift, map_map. apply map_ext. intros j.
  f_equal; lia.
Qed.


Lemma match_run_matches a b k :
  Forall (fun e => aIndex e - a = bIndex e - b /\ a < aIndex e) (match_run a b k).
Proof.
  unfold match_run. apply List.Forall_forall. intros e He.
  apply in_map_iff in He. destruct He as (j & <- & Hj).
  apply in_seq in Hj. cbn. lia.
Qed.

Lemma match_run_covers a b k :
  -1 <= a -> -1 <= b ->
  (forall j, 1 <= j <= Z.of_nat k -> arr_get A (a + j) = arr_get B (b + j)) ->
  covers (a + 1) (a + Z.of_nat k) (b + 1) (b + Z.of_nat k) (match_run a b k).
Proof.
  intros Ha Hb Heq. unfold covers, aSide, bSide.
  assert (He : forall j, In j (seq 1 k) ->
             0 <= a + Z.of_nat j /\ 0 <= b + Z.of_nat j
             /\ arr_get A (a + Z.of_nat j) = arr_get B (b + Z.of_nat j)).
  { intros j Hj. apply in_seq in Hj. split; [lia|]. split; [lia|]. apply Heq. lia. }
  unfold match_run. rewrite !filter_of_map, !map_map. cbn.
  rewrite !filter_all.
  - unfold span_indices.
    replace (Z.to_nat (a + Z.of_nat k + 1 - (a + 1))) with k by lia.
    replace (Z.to_nat (b + Z.of_nat k + 1 - (b + 1))) with k by lia.
    rewrite (map_seq_from _ 1 k).
    rewrite (map_seq_from (fun x => b + Z.of_nat x) 1 k).
    repeat split; try (apply map_ext; intros j; lia).
    apply Forall_map. apply List.Forall_forall. intros j Hj.
    destruct (He j Hj) as (H1 & H2 & H3).
    unfold entry_ok, entry. cbn.
    replace (0 <=? a + Z.of_nat j) with true by (symmetry; apply Z.leb_le; lia).
    repeat split; auto.
  - intros j Hj. apply Z.leb_le. now apply He.
  - intros j Hj. apply Z.leb_le. now apply He.
Qed.

(** "Match lines at beginning" emits a run of Match entries and stops at
    the first pair of lines that differ, or at the end of a span. *)
Lemma matchBeginning_spec n : forall aLo aHi bLo bHi res,
  (Z.to_nat (aHi + 1 - aLo) <= n)%nat ->
  exists k : nat,
    matchBeginning A B n aLo aHi bLo bHi res =
      (aLo + Z.of_nat k, bLo + Z.of_nat k,
       res ++ match_run (aLo - 1) (bLo - 1) k)
    /\ ((0 < k)%nat -> aLo + Z.of_nat k <= aHi + 1
                        /\ bLo + Z.of_nat k <= bHi + 1)
    /\ (forall j, 1 <= j <= Z.of_nat k ->
          arr_get A (aLo - 1 + j) = arr_get B (bLo - 1 + j))
    /\ (aLo + Z.of_nat k <=? aHi) && (bLo + Z.of_nat k <=? bHi)
       && line_eqb (arr_get A (aLo + Z.of_nat k))
                   (arr_get B (bLo + Z.of_nat k)) = false.
Proof.
  induction n as [|n IH]; intros aLo aHi bLo bHi res Hn; cbn [matchBeginning].
  - exists 0%nat. cbn. rewrite !Z.add_0_r, app_nil_r.
    repeat split; lia.
  - destruct ((aLo <=? aHi) && (bLo <=? bHi)
              && line_eqb (arr_get A aLo) (arr_get B bLo)) eqn:Hc.
    + apply andb_prop in Hc. destruct Hc as [Hc Heq].
      apply andb_prop in Hc. destruct Hc as [Ha Hb].
      apply Z.leb_le in Ha, Hb. apply bool_decide_eq_true_1 in Heq.
      destruct (IH (aLo + 1) aHi (bLo + 1) bHi (addToResult A B aLo bLo res))
        as (k & Hk & Hle & Hrun & Hstop); [lia|].
      exists (S k). rewrite Hk.
      replace (aLo + 1 + Z.of_nat k) with (aLo + Z.of_nat (S k)) in * by lia.
      replace (bLo + 1 + Z.of_nat k) with (bLo + Z.of_nat (S k)) in * by lia.
      repeat split.
      * f_equal. unfold addToResult. rewrite <- app_assoc. f_equal.
        rewrite match_run_S.
        replace (aLo - 1 + 1) with aLo by lia.
        replace (bLo - 1 + 1) with bLo by lia.
        replace (aLo + 1 - 1) with aLo in * by lia.
        replace (bLo + 1 - 1) with bLo in * by lia. reflexivity.
      * destruct k; [lia|]. apply Hle. lia.
      * destruct k; [lia|]. apply Hle. lia.
      * intros j Hj. destruct (Z.eq_dec j 1) as [->|Hne].
        -- replace (aLo - 1 + 1) with aLo by lia.
           replace (bLo - 1 + 1) with bLo by lia. exact Heq.
        -- specialize (Hrun (j - 1)).
           replace (aLo + 1 - 1 + (j - 1)) with (aLo - 1 + j) in Hrun by lia.
           replace (bLo + 1 - 1 + (j - 1)) with (bLo - 1 + j) in Hrun by lia.
           apply Hrun. lia.
      * exact Hstop.
    + exists 0%nat. cbn. rewrite !Z.add_0_r, app_nil_r.
      repeat split; try lia. exact Hc.
Qed.

(** "Save end matches for later" steps back over equal lines. *)
Lemma skipEnd_spec n : forall aLo aHi bLo bHi,
  (Z.to_nat (aHi + 1 - aLo) <= n)%nat ->
  exists k : nat,
    skipEnd A B n aLo aHi bLo bHi = (aHi - Z.of_nat k, bHi - Z.of_nat k)
    /\ ((0 < k)%nat -> aLo <= aHi - Z.of_nat k + 1
                        /\ bLo <= bHi - Z.of_nat k + 1)
    /\ (forall j, 1 <= j <= Z.of_nat k ->
          arr_get A (aHi - Z.of_nat k + j) = arr_get B (bHi - Z.of_nat k + j)).
Proof.
  induction n as [|n IH]; intros aLo aHi bLo bHi Hn; cbn [skipEnd].
  - exists 0%nat. cbn. rewrite !Z.sub_0_r. repeat split; lia.
  - destruct ((aLo <=? aHi) && (bLo <=? bHi)
              && line_eqb (arr_get A aHi) (arr_get B bHi)) eqn:Hc.
    + apply andb_prop in Hc. destruct Hc as [Hc Heq].
      apply andb_prop in Hc. destruct Hc as [Ha Hb].
      apply Z.leb_le in Ha, Hb. apply bool_decide_eq_true_1 in Heq.
      destruct (IH aLo (aHi - 1) bLo (bHi - 1)) as (k & Hk & Hle & Hrun); [lia|].
      exists (S k). rewrite Hk.
      replace (aHi - 1 - Z.of_nat k) with (aHi - Z.of_nat (S k)) in * by lia.
      replace (bHi - 1 - Z.of_nat k) with (bHi - Z.of_nat (S k)) in * by lia.
      repeat split.
      * destruct k; [lia|]. apply Hle. lia.
      * destruct k; [lia|]. apply Hle. lia.
      * intros j Hj. destruct (Z.eq_dec j (Z.of_nat (S k))) as [->|Hne].
        -- replace (aHi - Z.of_nat (S k) + Z.of_nat (S k)) with aHi by lia.
           replace (bHi - Z.of_nat (S k) + Z.of_nat (S k)) with bHi by lia.
           exact Heq.
        -- apply Hrun. lia.
    + exists 0%nat. cbn. rewrite !Z.sub_0_r. repeat split; lia.
Qed.

Lemma addEndMatches_run aHi bHi k res :
  addEndMatches A B aHi (aHi + Z.of_nat k) bHi res = res ++ match_run aHi bHi k.
Proof.
  unfold addEndMatches.
  rewrite (fold_addToResult (fun i => i) (fun i => bHi + (i - aHi))).
  f_equal. unfold span_indices, match_run.
  replace (Z.to_nat (aHi + Z.of_nat k + 1 - (aHi + 1))) with k by lia.
  rewrite map_map, (map_seq_from _ 1 k).
  apply map_ext. intros j. f_equal; lia.
Qed.

Lemma addDeletes_covers aLo aHi b res :
  0 <= aLo ->
  exists out, addDeletes A B aLo aHi res = res ++ out
              /\ covers aLo aHi b (b - 1) out.
Proof.
  intros Ha. unfold addDeletes.
  rewrite (fold_addToResult (fun i => i) (fun _ => -1)).
  eexists. split; [reflexivity|].
  unfold covers, aSide, bSide. rewrite !filter_of_map, !map_map. cbn.
  rewrite filter_all.
  2:{ intros i Hi. apply in_span_indices in Hi. apply Z.leb_le. lia. }
  rewrite filter_none, map_id, (span_indices_nil b (b - 1)) by lia.
  repeat split.
  apply Forall_map, List.Forall_forall. intros i Hi.
  apply in_span_indices in Hi. unfold entry_ok. cbn.
  replace (0 <=? i) with true by (symmetry; apply Z.leb_le; lia).
  repeat split; auto; try lia.
Qed.

Lemma addInserts_covers a bLo bHi res :
  0 <= bLo ->
  exists out, addInserts A B bLo bHi res = res ++ out
              /\ covers a (a - 1) bLo bHi out.
Proof.
  intros Hb. unfold addInserts.
  rewrite (fold_addToResult (fun _ => -1) (fun i => i)).
  eexists. split; [reflexivity|].
  unfold covers, aSide, bSide. rewrite !filter_of_map, !map_map. cbn.
  rewrite filter_none, filter_all.
  2:{ intros i Hi. apply in_span_indices in Hi. apply Z.leb_le. lia. }
  rewrite map_id, (span_indices_nil a (a - 1)) by lia.
  repeat split.
  apply Forall_map, List.Forall_forall. intros i Hi.
  apply in_span_indices in Hi. unfold entry_ok. cbn.
  repeat split; auto; try lia.
Qed.

(** What [recurseLCS] needs of the [addSubMatch] it calls: on spans of less
    than [bound] lines it returns, having pushed a cover of its spans. *)
Definition sub_ok
    (addSub : Z -> Z -> Z -> Z -> list DiffEntry -> option (list DiffEntry))
    (bound : nat) : Prop :=
  forall a1 a2 b1 b2 r,
    span_ok a1 a2 (length A) -> span_ok b1 b2 (length B) ->
    (span_size a1 a2 b1 b2 < bound)%nat ->
    exists out, addSub a1 a2 b1 b2 r = Some (r ++ out)
                /\ covers a1 a2 b1 b2 out.

Lemma sorted_last (Q : Anchor -> Prop) x0 xs d :
  StronglySorted anchor_lt (x0 :: xs) -> Forall Q (x0 :: xs) ->
  let l := List.last (x0 :: xs) d in
  Q l /\ indexA x0 <= indexA l /\ indexB x0 <= indexB l.
Proof.
  intros Hs HQ l.
  assert (Hin : In l (x0 :: xs)).
  { subst l. destruct (exists_last (l := x0 :: xs)) as (l' & a & E); [discriminate|].
    rewrite E, last_last. apply in_or_app. right. now left. }
  split.
  - rewrite List.Forall_forall in HQ. now apply HQ.
  - apply StronglySorted_inv in Hs. destruct Hs as [_ Hall].
    destruct Hin as [<-|Hin]; [lia|].
    rewrite List.Forall_forall in Hall. destruct (Hall _ Hin). lia.
Qed.

Lemma betweenAnchors_cons addSub xi xj rest r :
  betweenAnchors addSub (xi :: xj :: rest) r =
  addSub (indexA xi) (indexA xj - 1) (indexB xi) (indexB xj - 1) r
    ≫= betweenAnchors addSub (xj :: rest).
Proof. reflexivity. Qed.

Section Recurse.
Variables (addSub : Z -> Z -> Z -> Z -> list DiffEntry -> option (list DiffEntry))
          (bound : nat).
Hypothesis Hsub : sub_ok addSub bound.
Variables aLo aHi bLo bHi : Z.
Hypothesis HA : span_ok aLo aHi (length A).
Hypothesis HB : span_ok bLo bHi (length B).
Hypothesis Hsize : (span_size aLo aHi bLo bHi <= bound)%nat.

Lemma betweenAnchors_covers xs : forall x0 d r,
  StronglySorted anchor_lt (x0 :: xs) ->
  Forall (fun y => anchor_at A aLo aHi B bLo bHi (indexA y) (indexB y))
         (x0 :: xs) ->
  exists out,
    betweenAnchors addSub (x0 :: xs) r = Some (r ++ out)
    /\ covers (indexA x0) (indexA (List.last (x0 :: xs) d) - 1)
              (indexB x0) (indexB (List.last (x0 :: xs) d) - 1) out.
Proof.
  induction xs as [|x1 xs IH]; intros x0 d r Hs HP.
  - exists []. cbn. rewrite app_nil_r. split; [reflexivity|].
    apply covers_nil; lia.
  - pose proof Hs as Hs0. apply StronglySorted_inv in Hs0.
    destruct Hs0 as [Hs1 Hall].
    inversion Hall as [|? ? [Hlta Hltb] _]; subst.
    inversion HP as [|? ? P0 HP1]; subst.
    pose proof HP1 as HP1'. inversion HP1' as [|? ? P1 _]; subst.
    destruct P0 as (Ha0 & Hb0 & _). destruct P1 as (Ha1 & Hb1 & _).
    destruct HA as (HA1 & HA2 & HA3). destruct HB as (HB1 & HB2 & HB3).
    rewrite betweenAnchors_cons.
    destruct (Hsub (indexA x0) (indexA x1 - 1) (indexB x0) (indexB x1 - 1) r)
      as (o1 & E1 & C1).
    { unfold span_ok. lia. }
    { unfold span_ok. lia. }
    { unfold span_size in *. lia. }
    rewrite E1. cbn [mbind option_bind].
    destruct (IH x1 d (r ++ o1) Hs1 HP1) as (o2 & E2 & C2).
    exists (o1 ++ o2). rewrite E2, <- app_assoc. split; [reflexivity|].
    destruct (sorted_last (fun _ => True) x1 xs d Hs1) as (_ & Hla & Hlb).
    { apply List.Forall_forall. auto. }
    change (List.last (x0 :: x1 :: xs) d) with (List.last (x1 :: xs) d).
    eapply covers_app; [exact C1| | | | |].
    + replace (indexA x1 - 1 + 1) with (indexA x1) by lia.
      replace (indexB x1 - 1 + 1) with (indexB x1) by lia. exact C2.
    + lia.
    + lia.
    + lia.
    + lia.
Qed.

Lemma recurseLCS_with_covers ucMap res :
  ucMap = None \/ ucMap = Some (uniqueCommon A aLo aHi B bLo bHi) ->
  (span_size aLo aHi bLo bHi < bound)%nat
  \/ (uniqueCommon A aLo aHi B bLo bHi <> []
      /\ arr_get A aLo <> arr_get B bLo) ->
  exists out,
    recurseLCS_with A B addSub aLo aHi bLo bHi ucMap res = Some (res ++ out)
    /\ covers aLo aHi bLo bHi out.
Proof.
  intros Huc Hstrict. unfold recurseLCS_with.
  replace (match ucMap with Some m => m | None => _ end)
    with (uniqueCommon A aLo aHi B bLo bHi)
    by (destruct Huc as [->| ->]; reflexivity).
  destruct (longestCommonSubsequence_ok
              (fun ia ib => anchor_at A aLo aHi B bLo bHi ia ib)
              (uniqueCommon A aLo aHi B bLo bHi))
    as (Hs & HP & Hne).
  { apply uniqueCommon_sorted. }
  { intros k x Hin. eapply uniqueCommon_anchor_at. exact Hin. }
  destruct (longestCommonSubsequence (uniqueCommon A aLo aHi B bLo bHi))
    as [|x0 xs] eqn:Ex.
  - apply Hsub; [exact HA|exact HB|].
    destruct Hstrict as [H|[H _]]; [exact H|]. now apply Hne in H.
  - pose proof HP as HP'. inversion HP' as [|? ? P0 _]; subst.
    destruct P0 as (Ha0 & Hb0 & Heq0).
    pose proof HA as (HA1 & HA2 & HA3). pose proof HB as (HB1 & HB2 & HB3).
    assert (H1 : exists o1,
               (if (aLo <? indexA x0) || (bLo <? indexB x0)
                then addSub aLo (indexA x0 - 1) bLo (indexB x0 - 1) res
                else Some res) = Some (res ++ o1)
               /\ covers aLo (indexA x0 - 1) bLo (indexB x0 - 1) o1).
    { destruct ((aLo <? indexA x0) || (bLo <? indexB x0)) eqn:Ec.
      - apply Hsub.
        + unfold span_ok. lia.
        + unfold span_ok. lia.
        + unfold span_size in *. lia.
      - apply orb_false_elim in Ec. destruct Ec as [Ea Eb].
        apply Z.ltb_ge in Ea, Eb.
        exists []. rewrite app_nil_r. split; [reflexivity|].
        apply covers_nil; lia. }
    destruct H1 as (o1 & E1 & C1). rewrite E1. cbn [mbind option_bind].
    destruct (betweenAnchors_covers xs x0 x0 (res ++ o1) Hs HP)
      as (o2 & E2 & C2).
    rewrite E2. cbn [mbind option_bind].
    destruct (sorted_last
                (fun y => anchor_at A aLo aHi B bLo bHi (indexA y) (indexB y))
                x0 xs x0 Hs HP) as (Pl & Hla & Hlb).
    cbn zeta in Pl, Hla, Hlb.
    set (xl := List.last (x0 :: xs) x0) in *.
    destruct Pl as (Hal & Hbl & Heql).
    replace ((indexA xl <=? aHi) || (indexB xl <=? bHi)) with true
      by (symmetry; apply orb_true_intro; left; apply Z.leb_le; lia).
    destruct (Hsub (indexA xl) aHi (indexB xl) bHi ((res ++ o1) ++ o2))
      as (o3 & E3 & C3).
    { unfold span_ok. lia. }
    { unfold span_ok. lia. }
    { destruct Hstrict as [H|[_ H]]; [unfold span_size in *; lia|].
      assert (indexA xl <> aLo \/ indexB xl <> bLo).
      { destruct (Z.eq_dec (indexA xl) aLo) as [Ea|]; [|now left].
        destruct (Z.eq_dec (indexB xl) bLo) as [Eb|]; [|now right].
        rewrite Ea, Eb in Heql. contradiction. }
      unfold span_size in *. lia. }
    rewrite E3. exists ((o1 ++ o2) ++ o3).
    rewrite <- !app_assoc. split; [reflexivity|].
    rewrite app_assoc.
    eapply covers_app with (a2 := indexA xl - 1) (b2 := indexB xl - 1);
      [| | lia | lia | lia | lia].
    + eapply covers_app with (a2 := indexA x0 - 1) (b2 := indexB x0 - 1);
        [exact C1| | lia | lia | lia | lia].
      replace (indexA x0 - 1 + 1) with (indexA x0) by lia.
      replace (indexB x0 - 1 + 1) with (indexB x0) by lia. exact C2.
    + replace (indexA xl - 1 + 1) with (indexA xl) by lia.
      replace (indexB xl - 1 + 1) with (indexB xl) by lia. exact C3.
Qed.
End Recurse.

Lemma covers_eq a1 a2 b1 b2 a1' a2' b1' b2' out :
  covers a1 a2 b1 b2 out ->
  a1 = a1' -> a2 = a2' -> b1 = b1' -> b2 = b2' ->
  covers a1' a2' b1' b2' out.
Proof. now intros H -> -> -> ->. Qed.

(** [addSubMatch] returns on every pair of spans its fuel is larger than,
    having pushed entries that list both spans, each position once. *)
Lemma addSubMatch_covers fuel : sub_ok (addSubMatch A B fuel) fuel.
Proof.
  induction fuel as [|fuel IH]; intros aLo aHi bLo bHi res HA HB Hsz; [lia|].
  pose proof HA as (HA1 & HA2 & HA3). pose proof HB as (HB1 & HB2 & HB3).
  cbn [addSubMatch].
  destruct (matchBeginning_spec (Z.to_nat (aHi + 1 - aLo)) aLo aHi bLo bHi res)
    as (k & Ek & Hk & Hrun & Hstop); [lia|].
  rewrite Ek. cbv beta iota zeta.
  destruct (skipEnd_spec (Z.to_nat (aHi + 1 - (aLo + Z.of_nat k)))
              (aLo + Z.of_nat k) aHi (bLo + Z.of_nat k) bHi)
    as (k' & Ek' & Hk' & Hrun'); [lia|].
  rewrite Ek'. cbv beta iota zeta.
  set (aLo1 := aLo + Z.of_nat k) in *. set (bLo1 := bLo + Z.of_nat k) in *.
  set (aHi1 := aHi - Z.of_nat k') in *. set (bHi1 := bHi - Z.of_nat k') in *.
  assert (Hab : aLo1 <= aHi1 + 1 /\ bLo1 <= bHi1 + 1).
  { subst aLo1 bLo1 aHi1 bHi1.
    destruct k' as [|k']; [destruct k as [|k]|]; lia. }
  assert (C1 : covers aLo (aLo1 - 1) bLo (bLo1 - 1)
                 (match_run (aLo - 1) (bLo - 1) k)).
  { eapply covers_eq; [apply match_run_covers; [lia|lia|exact Hrun]| | | |];
      subst aLo1 bLo1; lia. }
  assert (C3 : covers (aHi1 + 1) aHi (bHi1 + 1) bHi (match_run aHi1 bHi1 k')).
  { eapply covers_eq; [apply match_run_covers; [lia|lia|exact Hrun']| | | |];
      subst aHi1 bHi1; lia. }
  assert (Hmid : exists o2,
             (if (length (uniqueCommon A aLo1 aHi1 B bLo1 bHi1) =? 0)%nat
              then Some (addInserts A B bLo1 bHi1
                           (addDeletes A B aLo1 aHi1
                              (res ++ match_run (aLo - 1) (bLo - 1) k)))
              else recurseLCS_with A B (addSubMatch A B fuel)
                     aLo1 aHi1 bLo1 bHi1
                     (Some (uniqueCommon A aLo1 aHi1 B bLo1 bHi1))
                     (res ++ match_run (aLo - 1) (bLo - 1) k))
             = Some ((res ++ match_run (aLo - 1) (bLo - 1) k) ++ o2)
             /\ covers aLo1 aHi1 bLo1 bHi1 o2).
  { destruct (length (uniqueCommon A aLo1 aHi1 B bLo1 bHi1) =? 0)%nat eqn:El.
    - destruct (addDeletes_covers aLo1 aHi1 bLo1
                  (res ++ match_run (aLo - 1) (bLo - 1) k)) as (od & Ed & Cd);
        [lia|].
      destruct (addInserts_covers (aHi1 + 1) bLo1 bHi1
                  ((res ++ match_run (aLo - 1) (bLo - 1) k) ++ od))
        as (oi & Ei & Ci); [lia|].
      exists (od ++ oi). rewrite Ed, Ei, <- !app_assoc. split; [reflexivity|].
      eapply covers_app with (a2 := aHi1) (b2 := bLo1 - 1);
        [exact Cd| |lia|lia|lia|lia].
      eapply covers_eq; [exact Ci| | | |]; lia.
    - apply Nat.eqb_neq in El.
      assert (Hne : uniqueCommon A aLo1 aHi1 B bLo1 bHi1 <> []).
      { intros E. rewrite E in El. now cbn in El. }
      apply (recurseLCS_with_covers (addSubMatch A B fuel) fuel IH).
      + unfold span_ok. lia.
      + unfold span_ok. lia.
      + unfold span_size in *. lia.
      + now right.
      + right. split; [exact Hne|].
        destruct (uniqueCommon A aLo1 aHi1 B bLo1 bHi1) as [|[k0 x0] uc] eqn:Eu;
          [congruence|].
        assert (Hin : In (k0, x0) (uniqueCommon A aLo1 aHi1 B bLo1 bHi1))
          by (rewrite Eu; now left).
        apply uniqueCommon_anchor_at in Hin.
        destruct Hin as (_ & Ha0 & Hb0 & _).
        replace (aLo1 <=? aHi) with true in Hstop
          by (symmetry; apply Z.leb_le; lia).
        replace (bLo1 <=? bHi) with true in Hstop
          by (symmetry; apply Z.leb_le; lia).
        cbn in Hstop. now apply bool_decide_eq_false_1 in Hstop. }
  destruct Hmid as (o2 & E2 & C2). rewrite E2. cbn [mbind option_bind].
  replace (addEndMatches A B aHi1 aHi bHi1)
    with (addEndMatches A B aHi1 (aHi1 + Z.of_nat k') bHi1)
    by (f_equal; subst aHi1; lia).
  rewrite addEndMatches_run.
  exists ((match_run (aLo - 1) (bLo - 1) k ++ o2) ++ match_run aHi1 bHi1 k').
  rewrite <- !app_assoc. split; [reflexivity|].
  rewrite app_assoc.
  eapply covers_app with (a2 := aHi1) (b2 := bHi1);
    [|exact C3|lia|subst aHi1; lia|lia|subst bHi1; lia].
  eapply covers_app with (a2 := aLo1 - 1) (b2 := bLo1 - 1);
    [exact C1| |subst aLo1; lia|lia|subst bLo1; lia|lia].
  eapply covers_eq; [exact C2| | | |]; lia.
Qed.

(** [patienceDiff] returns, and what it returns lists all of A and all of B. *)
Lemma patienceDiff_covers :
  exists r, patienceDiff A B = Some r
            /\ covers 0 (Z.of_nat (length A) - 1) 0 (Z.of_nat (length B) - 1) r.
Proof.
  unfold patienceDiff, patienceDiff_fuel, recurseLCS.
  destruct (recurseLCS_with_covers
              (addSubMatch A B (S (length A + length B)))
              (S (length A + length B))
              (addSubMatch_covers _)
              0 (Z.of_nat (length A) - 1) 0 (Z.of_nat (length B) - 1))
    with (ucMap := @None (list (Line * Anchor))) (res := @nil DiffEntry)
    as (out & E & C).
  - unfold span_ok. lia.
  - unfold span_ok. lia.
  - unfold span_size. lia.
  - now left.
  - left. unfold span_size. lia.
  - exists out. split; [exact E|exact C].
Qed.

(** *** More fuel gives the same result *)

Definition sub_le
    (f g : Z -> Z -> Z -> Z -> list DiffEntry -> option (list DiffEntry)) : Prop :=
  forall a1 a2 b1 b2 r r', f a1 a2 b1 b2 r = Some r' -> g a1 a2 b1 b2 r = Some r'.

Lemma betweenAnchors_mono f g x :
  sub_le f g ->
  forall r r', betweenAnchors f x r = Some r' -> betweenAnchors g x r = Some r'.
Proof.
  intros Hfg. induction x as [|xi x IH]; intros r r'; [trivial|].
  destruct x as [|xj rest]; [trivial|].
  rewrite !betweenAnchors_cons.
  destruct (f (indexA xi) (indexA xj - 1) (indexB xi) (indexB xj - 1) r)
    as [r1|] eqn:E; [|discriminate].
  rewrite (Hfg _ _ _ _ _ _ E). cbn [mbind option_bind]. apply IH.
Qed.

Lemma recurseLCS_with_mono f g aLo aHi bLo bHi ucMap r r' :
  sub_le f g ->
  recurseLCS_with A B f aLo aHi bLo bHi ucMap r = Some r' ->
  recurseLCS_with A B g aLo aHi bLo bHi ucMap r = Some r'.
Proof.
  intros Hfg. unfold recurseLCS_with.
  destruct (longestCommonSubsequence _) as [|x0 xs]; [apply Hfg|].
  destruct (if (aLo <? indexA x0) || (bLo <? indexB x0)
            then f aLo (indexA x0 - 1) bLo (indexB x0 - 1) r
            else Some r) as [r1|] eqn:E1; [|discriminate].
  replace (if (aLo <? indexA x0) || (bLo <? indexB x0)
           then g aLo (indexA x0 - 1) bLo (indexB x0 - 1) r
           else Some r) with (Some r1).
  2:{ destruct ((aLo <? indexA x0) || (bLo <? indexB x0));
        [symmetry; now apply Hfg|now symmetry]. }
  cbn [mbind option_bind].
  destruct (betweenAnchors f (x0 :: xs) r1) as [r2|] eqn:E2; [|discriminate].
  rewrite (betweenAnchors_mono f g _ Hfg _ _ E2). cbn [mbind option_bind].
  destruct ((indexA (List.last (x0 :: xs) x0) <=? aHi)
            || (indexB (List.last (x0 :: xs) x0) <=? bHi)); [apply Hfg|trivial].
Qed.

Lemma addSubMatch_fuel_mono n : forall m,
  (n <= m)%nat -> sub_le (addSubMatch A B n) (addSubMatch A B m).
Proof.
  induction n as [|n IH]; intros m Hm aLo aHi bLo bHi r r'; [discriminate|].
  destruct m as [|m]; [lia|]. cbn [addSubMatch].
  destruct (matchBeginning A B _ aLo aHi bLo bHi r) as [[aLo1 bLo1] r1].
  destruct (skipEnd A B _ aLo1 aHi bLo1 bHi) as [aHi1 bHi1].
  destruct (length (uniqueCommon A aLo1 aHi1 B bLo1 bHi1) =? 0)%nat; [trivial|].
  destruct (recurseLCS_with A B (addSubMatch A B n) _ _ _ _ _ r1)
    as [r2|] eqn:E; [|discriminate].
  rewrite (recurseLCS_with_mono _ (addSubMatch A B m) _ _ _ _ _ _ _
             (IH m ltac:(lia)) E).
  trivial.
Qed.

Lemma patienceDiff_fuel_mono fuel r :
  (S (length A + length B) <= fuel)%nat ->
  patienceDiff A B = Some r -> patienceDiff_fuel A B fuel = Some r.
Proof.
  intros Hf. unfold patienceDiff, patienceDiff_fuel, recurseLCS.
  apply recurseLCS_with_mono. now apply addSubMatch_fuel_mono.
Qed.
End DiffFacts.


(** ** The whole diff *)

Lemma span_indices_seq n :
  span_indices 0 (Z.of_nat n - 1) = map Z.of_nat (seq 0 n).
Proof.
  unfold span_indices. replace (Z.to_nat (Z.of_nat n - 1 + 1 - 0)) with n by lia.
  apply map_ext. intros k. lia.
Qed.

Lemma arr_get_all (A : list string) :
  map (arr_get A) (map Z.of_nat (seq 0 (length A))) = map Some A.
Proof.
  rewrite map_map.
  induction A as [|a A IH]; [reflexivity|].
  cbn [length seq map]. f_equal.
  rewrite <- seq_shift, map_map, <- IH.
  apply map_ext. intros k. unfold arr_get.
  replace (Z.of_nat (S k) <? 0) with false by (symmetry; apply Z.ltb_ge; lia).
  replace (Z.of_nat k <? 0) with false by (symmetry; apply Z.ltb_ge; lia).
  now rewrite !Nat2Z.id.
Qed.

Lemma covers_lines A B aLo aHi bLo bHi r :
  covers A B aLo aHi bLo bHi r ->
  map line (aSide r) = map (arr_get A) (span_indices aLo aHi)
  /\ map line (bSide r) = map (arr_get B) (span_indices bLo bHi).
Proof.
  intros (Ha & Hb & Hok). rewrite <- Ha, <- Hb, !map_map.
  rewrite List.Forall_forall in Hok.
  split; apply map_ext_in; intros e He; apply filter_In in He;
    destruct He as [He Hi]; apply Z.leb_le in Hi;
    destruct (Hok e He) as (_ & _ & _ & H1 & H2); auto.
Qed.

(** C1.  For all line sequences A and B, [patienceDiff(A, B)] returns -- with
    any recursion budget from [|A| + |B| + 1] on, and the same result -- and
    in the entries it returns those with [aIndex >= 0] name the positions
    [0 .. |A|-1], each once and already in increasing order, and carry the
    lines of A in that order; those with [bIndex >= 0] do the same for B.
    Every entry is a Match, a DeleteOnly ([bIndex = -1]) or an InsertOnly
    ([aIndex = -1]). *)
Theorem patienceDiff_partition (A B : list string) :
  exists r,
    patienceDiff A B = Some r
    /\ (forall fuel, (S (length A + length B) <= fuel)%nat ->
                     patienceDiff_fuel A B fuel = Some r)
    /\ map aIndex (aSide r) = map Z.of_nat (seq 0 (length A))
    /\ map line (aSide r) = map Some A
    /\ map bIndex (bSide r) = map Z.of_nat (seq 0 (length B))
    /\ map line (bSide r) = map Some B
    /\ Forall (fun e => (aIndex e = -1 \/ 0 <= aIndex e)
                        /\ (bIndex e = -1 \/ 0 <= bIndex e)
                        /\ (0 <= aIndex e \/ 0 <= bIndex e)) r.
Proof.
  destruct (patienceDiff_covers A B) as (r & E & C).
  exists r. split; [exact E|].
  split; [intros fuel Hf; now apply patienceDiff_fuel_mono|].
  destruct (covers_lines _ _ _ _ _ _ _ C) as [La Lb].
  destruct C as (Ha & Hb & Hok).
  rewrite span_indices_seq in Ha, Hb, La, Lb.
  rewrite arr_get_all in La, Lb.
  repeat split; try assumption.
  eapply List.Forall_impl; [|exact Hok]. unfold entry_ok. cbn. tauto.
Qed.

(** The two sequences of the anchor-uniqueness example. *)
Definition xyx : list string := ["x"; "y"; "x"]%string.
Definition xy : list string := ["x"; "y"]%string.

(** The diff of the example, with more budget than it needs. *)
Lemma patienceDiff_partition_witness :
  (S (length xyx + length xy) <= 10)%nat
  /\ patienceDiff_fuel xyx xy 10 = patienceDiff xyx xy.
Proof.
  split; [cbn; lia|].
  destruct (patienceDiff_partition xyx xy) as (r & E & Hf & _).
  rewrite E. apply Hf. cbn. lia.
Defined.

(** C4.  The anchor set of a pair of spans holds exactly the lines that
    stand once in the span of A and once in the span of B, so a line
    repeated in either span is no anchor.  On [["x";"y";"x"]] against
    [["x";"y"]], where ["x"] stands twice in A, the only anchor is ["y"]:
    the spans left before and after it ([1..0] against [1..0] once the
    first lines are matched, [2..2] against [2..1]) have no anchor at all.
    In the result ["y"] is a Match and the last ["x"] is the one DeleteOnly
    entry; the first ["x"] is matched as a common first line. *)
Theorem patienceDiff_anchor_uniqueness :
  (forall aArr aLo aHi bArr bLo bHi k,
      In k (map fst (uniqueCommon aArr aLo aHi bArr bLo bHi)) <->
      occ aArr (span_indices aLo aHi) k = 1%nat
      /\ occ bArr (span_indices bLo bHi) k = 1%nat)
  /\ occ xyx (span_indices 0 2) (Some "x"%string) = 2%nat
  /\ uniqueCommon xyx 0 2 xy 0 1 = [(Some "y"%string, mkAnchor 1 1 None)]
  /\ longestCommonSubsequence (uniqueCommon xyx 0 2 xy 0 1) = [mkAnchor 1 1 None]
  /\ uniqueCommon xyx 1 0 xy 1 0 = []
  /\ uniqueCommon xyx 2 2 xy 2 1 = []
  /\ patienceDiff xyx xy
     = Some [ mkDiffEntry (Some "x"%string) 0 0;
              mkDiffEntry (Some "y"%string) 1 1;
              mkDiffEntry (Some "x"%string) 2 (-1) ].
Proof.
  split; [intros; apply uniqueCommon_key|].
  repeat split; vm_compute; reflexivity.
Qed.

(** ** A sequence against itself *)

Section IdentityFacts.
Variable A : list string.

Lemma matchBeginning_diag n : forall a h res,
  n = Z.to_nat (h + 1 - a) ->
  matchBeginning A A n a h a h res =
  (a + Z.of_nat n, a + Z.of_nat n, res ++ match_run A A (a - 1) (a - 1) n).
Proof.
  induction n as [|n IH]; intros a h res Hn; cbn [matchBeginning].
  - cbn. now rewrite Z.add_0_r, app_nil_r.
  - replace (a <=? h) with true by (symmetry; apply Z.leb_le; lia).
    rewrite line_eqb_refl. cbn [andb].
    rewrite IH by lia. f_equal; [f_equal; lia|].
    unfold addToResult. rewrite <- app_assoc. f_equal.
    rewrite match_run_S.
    replace (a - 1 + 1) with a by lia.
    replace (a + 1 - 1) with a by lia. reflexivity.
Qed.

Lemma uniqueCommon_empty (B : list string) aLo aHi bLo bHi :
  aHi < aLo -> uniqueCommon A aLo aHi B bLo bHi = [].
Proof.
  intros H. unfold uniqueCommon, findUnique at 2, findUnique_counts.
  now rewrite span_indices_nil.
Qed.

(** Both sides in step: a Match of a position with itself. *)
Definition same_pos (e : DiffEntry) : Prop :=
  0 <= aIndex e /\ bIndex e = aIndex e.

Lemma addSubMatch_diag fuel a h res :
  0 <= a ->
  exists out, addSubMatch A A (S fuel) a h a h res = Some (res ++ out)
              /\ Forall same_pos out.
Proof.
  intros Ha. cbn [addSubMatch].
  rewrite (matchBeginning_diag _ a h res eq_refl).
  set (n := Z.to_nat (h + 1 - a)).
  replace (Z.to_nat (h + 1 - (a + Z.of_nat n))) with 0%nat by lia.
  cbn [skipEnd]. rewrite uniqueCommon_empty by lia. cbn [length Nat.eqb].
  unfold addInserts, addDeletes, addEndMatches.
  rewrite !span_indices_nil by lia. cbn.
  exists (match_run A A (a - 1) (a - 1) n). split; [reflexivity|].
  eapply List.Forall_impl; [|apply match_run_matches].
  unfold same_pos. cbn. intros e. lia.
Qed.

Lemma betweenAnchors_diag fuel x : forall res,
  Forall (fun y => indexA y = indexB y /\ 0 <= indexA y) x ->
  exists out, betweenAnchors (addSubMatch A A (S fuel)) x res = Some (res ++ out)
              /\ Forall same_pos out.
Proof.
  induction x as [|xi x IH]; intros res Hx.
  - exists []. cbn. rewrite app_nil_r. split; [reflexivity|constructor].
  - destruct x as [|xj rest].
    + exists []. cbn. rewrite app_nil_r. split; [reflexivity|constructor].
    + inversion Hx as [|? ? [Ei Hi] Hx']; subst.
      pose proof Hx' as Hx''. inversion Hx'' as [|? ? [Ej Hj] _]; subst.
      rewrite betweenAnchors_cons, <- Ei, <- Ej.
      destruct (addSubMatch_diag fuel (indexA xi) (indexA xj - 1) res Hi)
        as (o1 & E1 & M1).
      rewrite E1. cbn [mbind option_bind].
      destruct (IH (res ++ o1) Hx') as (o2 & E2 & M2).
      exists (o1 ++ o2). rewrite E2, <- app_assoc. split; [reflexivity|].
      apply Forall_app. tauto.
Qed.

Lemma patienceDiff_same_pos :
  exists r, patienceDiff A A = Some r /\ Forall same_pos r.
Proof.
  unfold patienceDiff, patienceDiff_fuel, recurseLCS, recurseLCS_with.
  set (n := Z.of_nat (length A) - 1).
  destruct (longestCommonSubsequence_ok
              (fun ia ib => ia = ib /\ 0 <= ia)
              (uniqueCommon A 0 n A 0 n)) as (Hs & HP & _).
  { apply uniqueCommon_sorted. }
  { intros k x Hin. pose proof (uniqueCommon_diag _ _ _ _ _ Hin) as Hd.
    apply uniqueCommon_anchor_at in Hin. destruct Hin as (Hp & Ha & _).
    repeat split; [exact Hp|exact Hd|lia]. }
  destruct (longestCommonSubsequence (uniqueCommon A 0 n A 0 n)) as [|x0 xs].
  - destruct (addSubMatch_diag (length A + length A) 0 n []) as (o & E & M);
      [lia|].
    exists o. split; [exact E|exact M].
  - pose proof HP as HP'. inversion HP' as [|? ? [E0 H0] _]; subst.
    assert (H1 : exists o1,
               (if (0 <? indexA x0) || (0 <? indexB x0)
                then addSubMatch A A (S (length A + length A))
                       0 (indexA x0 - 1) 0 (indexB x0 - 1) []
                else Some []) = Some ([] ++ o1)
               /\ Forall same_pos o1).
    { destruct ((0 <? indexA x0) || (0 <? indexB x0)).
      - rewrite <- E0. apply addSubMatch_diag. lia.
      - exists []. split; [reflexivity|constructor]. }
    destruct H1 as (o1 & E1 & M1). rewrite E1. cbn [mbind option_bind].
    destruct (betweenAnchors_diag (length A + length A) (x0 :: xs) ([] ++ o1) HP)
      as (o2 & E2 & M2).
    rewrite E2. cbn [mbind option_bind].
    destruct (sorted_last (fun y => indexA y = indexB y /\ 0 <= indexA y)
                x0 xs x0 Hs HP) as ((El & Hl) & _).
    cbn zeta in El, Hl.
    set (xl := List.last (x0 :: xs) x0) in *.
    destruct ((indexA xl <=? n) || (indexB xl <=? n)).
    + rewrite <- El.
      destruct (addSubMatch_diag (length A + length A) (indexA xl) n
                  (([] ++ o1) ++ o2) Hl) as (o3 & E3 & M3).
      rewrite E3. exists ((o1 ++ o2) ++ o3). split; [reflexivity|].
      repeat (apply Forall_app; split); assumption.
    + exists (o1 ++ o2). split; [reflexivity|].
      apply Forall_app; split; assumption.
Qed.
End IdentityFacts.


(** Matched lines open no edit block. *)
Lemma changesLoop_all_match aLines bLines es :
  Forall (fun e => isMatch e = true /\ is_Some (line e)) es ->
  forall n curA curB changes,
    (length es <= n)%nat ->
    changesLoop aLines bLines n es curA curB changes = Some changes.
Proof.
  induction 1 as [|e es [Hm [l Hl]] Hes IH]; intros n curA curB changes Hn.
  - now destruct n.
  - destruct n as [|n]; [cbn in Hn; lia|].
    cbn [changesLoop]. rewrite Hm, Hl. cbn.
    apply IH. cbn in Hn. lia.
Qed.

Lemma patienceDiff_identity_entries (A : list string) :
  exists r,
    patienceDiff A A = Some r
    /\ Forall (fun e => 0 <= aIndex e /\ 0 <= bIndex e) r
    /\ map aIndex r = map Z.of_nat (seq 0 (length A))
    /\ map bIndex r = map Z.of_nat (seq 0 (length A))
    /\ map line r = map Some A.
Proof.
  destruct (patienceDiff_same_pos A) as (r & E & Hsame).
  destruct (patienceDiff_covers A A) as (r' & E' & C).
  rewrite E in E'. injection E' as <-.
  destruct (covers_lines _ _ _ _ _ _ _ C) as [La _].
  destruct C as (Ha & Hb & _).
  rewrite span_indices_seq in Ha, Hb, La. rewrite arr_get_all in La.
  assert (HaS : aSide r = r).
  { apply filter_all. intros e He. rewrite List.Forall_forall in Hsame.
    destruct (Hsame e He) as [H0 _]. now apply Z.leb_le. }
  assert (HbS : bSide r = r).
  { apply filter_all. intros e He. rewrite List.Forall_forall in Hsame.
    destruct (Hsame e He) as [H0 H1]. apply Z.leb_le. lia. }
  rewrite HaS in Ha, La. rewrite HbS in Hb.
  exists r. repeat split; try assumption.
  eapply List.Forall_impl; [|exact Hsame]. unfold same_pos. cbn. intros e. lia.
Qed.

(** C6.  For every line sequence A, [patienceDiff(A, A)] returns only Match
    entries: each has [aIndex >= 0] and [bIndex >= 0] (position [i] of A
    against position [i], with its line), so that the conversion to edit
    blocks of [lineDiff] finds none; for every text, [lineDiff(a, a)] is
    empty. *)
Theorem patienceDiff_identity :
  (forall A : list string,
      exists r,
        patienceDiff A A = Some r
        /\ Forall (fun e => 0 <= aIndex e /\ 0 <= bIndex e) r
        /\ map aIndex r = map Z.of_nat (seq 0 (length A))
        /\ map bIndex r = map Z.of_nat (seq 0 (length A))
        /\ map line r = map Some A
        /\ changesLoop A A (length r) r 0 0 [] = Some [])
  /\ (forall a : string, lineDiff a a = Some []).
Proof.
  assert (H : forall A : list string,
             exists r,
               patienceDiff A A = Some r
               /\ Forall (fun e => 0 <= aIndex e /\ 0 <= bIndex e) r
               /\ map aIndex r = map Z.of_nat (seq 0 (length A))
               /\ map bIndex r = map Z.of_nat (seq 0 (length A))
               /\ map line r = map Some A
               /\ changesLoop A A (length r) r 0 0 [] = Some []).
  { intros A. destruct (patienceDiff_identity_entries A) as (r & E & Hm & Ha & Hb & Hl).
    exists r. repeat split; try assumption.
    apply changesLoop_all_match; [|lia].
    apply List.Forall_forall. intros e He. split.
    - rewrite List.Forall_forall in Hm. destruct (Hm e He) as [H1 H2].
      unfold isMatch. apply andb_true_intro. split; now apply Z.leb_le.
    - assert (Hin : In (line e) (map Some A)).
      { rewrite <- Hl. now apply in_map. }
      apply in_map_iff in Hin. destruct Hin as (l & <- & _). now exists l. }
  split; [exact H|].
  intros a. unfold lineDiff.
  destruct (H (split_lines a)) as (r & E & _ & _ & _ & _ & Hc).
  rewrite E. cbn [mbind option_bind]. exact Hc.
Qed.

End PatienceDiffFacts.

(** * Proofs about the unchanged ranges *)

Section FoldUnchangedFacts.
Import FoldUnchanged.
Local Open Scope Z_scope.

(** ** The document *)

Lemma lineAt_scan_number ls : forall start num pos l,
  lineAt_scan ls start num pos = Some l ->
  num <= number l < num + Z.of_nat (length ls).
Proof.
  induction ls as [|x ls IH]; intros start num pos l; cbn [lineAt_scan length];
    [discriminate|].
  destruct (pos <=? start + str_len x).
  - intros [= <-]. cbn. lia.
  - intros H. apply IH in H. lia.
Qed.

Lemma lineAt_number doc pos l :
  lineAt doc pos = Some l -> 1 <= number l <= doc_lines doc.
Proof.
  unfold lineAt, doc_lines. destruct (pos <? 0); [discriminate|].
  intros H. apply lineAt_scan_number in H. lia.
Qed.

Lemma line_scan_defined ls : forall start num n,
  num <= n < num + Z.of_nat (length ls) ->
  exists l, line_scan ls start num n = Some l /\ number l = n.
Proof.
  induction ls as [|x ls IH]; intros start num n Hn; cbn [line_scan length] in *;
    [lia|].
  destruct (n =? num) eqn:E.
  - apply Z.eqb_eq in E. subst. eexists. split; reflexivity.
  - apply Z.eqb_neq in E. apply IH. lia.
Qed.

Lemma line_defined doc n :
  1 <= n <= doc_lines doc -> exists l, line doc n = Some l /\ number l = n.
Proof.
  intros Hn. unfold line.
  replace (n <? 1) with false by (symmetry; apply Z.ltb_ge; lia).
  apply line_scan_defined. unfold doc_lines in Hn. lia.
Qed.

(** ** Gaps *)

(** A span of lines the loop looks at: its first and last line, and whether
    a block stands right before it and right after it. *)
Record Gap : Type := mkGap {
  gap_first : Z;
  gap_last : Z;
  after_block : bool;
  before_block : bool
}.

(** The spans the loop goes through, one for each iteration.  The loop
    starts a span on line 1 or on the line after the one that holds the end
    offset of the block before it -- an offset that the merge view puts
    after the line break of the block's last line, so that the first
    unchanged line after a block is not in the span -- and ends it on the
    line before the one that holds the start offset of the block after it
    or on the last line. *)
Fixpoint gaps_from (doc : Text) (side : Side) (lo : Z) (after : bool)
    (chunks : list Chunk) : option (list Gap) :=
  match chunks with
  | [] => Some [mkGap lo (doc_lines doc) after false]
  | c :: rest =>
      s ← lineAt doc (chunkStart side c);
      e ← lineAt doc (Z.min (doc_length doc) (chunkEnd side c));
      gs ← gaps_from doc side (number e + 1) true rest;
      Some (mkGap lo (number s - 1) after true :: gs)
  end.

Definition line_start (doc : Text) (n : Z) : Z := default 0 (line_from <$> line doc n).
Definition line_end (doc : Text) (n : Z) : Z := default 0 (line_to <$> line doc n).

(** The range of the lines [s..e], if there are [minSize] of them. *)
Definition range_of (doc : Text) (minSize s e : Z) : list FoldRange :=
  if (minSize <=? e - s + 1) && (s <=? e)
  then [mkFoldRange (line_start doc s) (line_end doc e) (e - s + 1)]
  else [].

(** Following the words of the specification: the unchanged lines
    [first..last] of a gap lose [margin] lines at both ends, and what is left
    is a range if it has [minSize] lines. *)
Definition claimed_range (doc : Text) (margin minSize first last : Z)
  : list FoldRange :=
  range_of doc minSize (first + margin) (last - margin).

(** What the loop does with a span: it loses [margin] lines at an end only
    where a block stands at that end. *)
Definition gap_start (margin : Z) (g : Gap) : Z :=
  if after_block g then gap_first g + margin else gap_first g.
Definition gap_end (margin : Z) (g : Gap) : Z :=
  if before_block g then gap_last g - margin else gap_last g.

Definition gap_range (doc : Text) (margin minSize : Z) (g : Gap)
  : list FoldRange :=
  range_of doc minSize (gap_start margin g) (gap_end margin g).

Lemma pushRange_range_of doc minSize s e ranges :
  1 <= s -> e <= doc_lines doc ->
  pushRange doc minSize s e ranges = Some (ranges ++ range_of doc minSize s e).
Proof.
  intros Hs He. unfold pushRange, range_of.
  replace (1 <=? s) with true by (symmetry; apply Z.leb_le; lia).
  replace (e <=? doc_lines doc) with true by (symmetry; apply Z.leb_le; lia).
  rewrite !andb_true_r.
  destruct ((minSize <=? e - s + 1) && (s <=? e)) eqn:E.
  - apply andb_prop in E. destruct E as [_ E]. apply Z.leb_le in E.
    destruct (line_defined doc s) as (ls & Hls & _); [lia|].
    destruct (line_defined doc e) as (le & Hle & _); [lia|].
    unfold line_start, line_end. rewrite Hls, Hle. reflexivity.
  - now rewrite app_nil_r.
Qed.

Lemma rangesLoop_gaps doc side margin minSize chunks :
  0 <= margin ->
  forall (i prevEndLine : Z) ranges (lo : Z) (after : bool),
    0 <= i -> 1 <= lo ->
    (if i =? 0 then 1 else prevEndLine + 1 + margin)
    = (if after then lo + margin else lo) ->
    rangesLoop doc side margin minSize i chunks prevEndLine ranges =
    (gs ← gaps_from doc side lo after chunks;
     Some (ranges ++ flat_map (gap_range doc margin minSize) gs)).
Proof.
  intros HM.
  induction chunks as [|c rest IH]; intros i prev ranges lo after Hi Hlo Hstart;
    cbn [rangesLoop gaps_from].
  - cbn [mbind option_bind flat_map]. rewrite app_nil_r.
    unfold gap_range, gap_start, gap_end.
    cbn [after_block before_block gap_first gap_last].
    rewrite Hstart. apply pushRange_range_of; [destruct after; lia|lia].
  - destruct (lineAt doc (chunkStart side c)) as [s|] eqn:Es;
      cbn [mbind option_bind]; [|reflexivity].
    pose proof (lineAt_number _ _ _ Es) as Hs.
    rewrite Hstart, pushRange_range_of by (destruct after; lia).
    cbn [mbind option_bind].
    destruct (lineAt doc (Z.min (doc_length doc) (chunkEnd side c))) as [e|] eqn:Ee;
      cbn [mbind option_bind]; [|reflexivity].
    pose proof (lineAt_number _ _ _ Ee) as He.
    rewrite (IH (i + 1) (number e) _ (number e + 1) true); [|lia|lia|].
    + destruct (gaps_from doc side (number e + 1) true rest) as [gs|];
        cbn [mbind option_bind flat_map]; [|reflexivity].
      rewrite <- app_assoc. reflexivity.
    + replace (i + 1 =? 0) with false by (symmetry; apply Z.eqb_neq; lia).
      reflexivity.
Qed.

(** ** Examples *)

(** A document of [S n] lines, each the one character ["l"]: line [k] starts
    at offset [2 * (k - 1)] and ends at [2 * (k - 1) + 1]. *)
Definition doc_of_lines (n : nat) : Text := mkText "l" (repeat "l"%string n).

(** Twenty lines, lines 11 and 12 changed. *)
Definition doc20 : Text := doc_of_lines 19.
Definition chunks20 : list Chunk := [mkChunk 20 23 20 23].

(** [lineDiff] ends an edit block after the line break of its last line:
    with the second of three lines changed, the block of A is [2..4], and
    offset 4 is the start of the third line. *)
Example lineDiff_end_after_break :
  PatienceDiff.lineDiff "a
b
c" "a
X
c" = Some [PatienceDiff.mkChange 2 4 2 4].
Proof. vm_compute. reflexivity. Qed.

(** At the two ends of the document no block stands, and the loop leaves
    the lines there in the fold.  With line 20 of twenty changed, margin 2
    and minimum 4, it folds lines 1..17; shrinking both ends of the unchanged
    lines 1..19 gives 3..17. *)
Example computeUnchangedRanges_document_ends :
  computeUnchangedRanges doc20 [mkChunk 38 39 38 39] SideA 2 4
    = Some [mkFoldRange 0 33 17]
  /\ claimed_range doc20 2 4 1 19 = [mkFoldRange 4 33 15].
Proof. split; vm_compute; reflexivity. Qed.

(** A margin below zero would move a range past the ends of the document;
    the loop then emits nothing for the gap.  Here line 20 of twenty is
    changed and the gap before it is lines 1..19. *)
Example computeUnchangedRanges_negative_margin :
  computeUnchangedRanges doc20 [mkChunk 38 39 38 39] SideA (-3) 1
    = Some [mkFoldRange 34 39 3]
  /\ gap_range doc20 (-3) 1 (mkGap 1 19 false true) = [mkFoldRange 0 0 22].
Proof. split; vm_compute; reflexivity. Qed.

(** ** A hundred unchanged lines between two blocks *)

(** The three digits of [k]: line [k] of a numbered text. *)
Definition digit (n : nat) : ascii := ascii_of_nat (48 + n mod 10).
Definition numbered (k : nat) : string :=
  String (digit (k / 100)) (String (digit (k / 10)) (String (digit k) EmptyString)).

(** The lines 3..102, the same in both texts. *)
Definition kept104 : list string := map numbered (seq 3 100).

(** Two texts of 104 lines of three characters, which differ in line 2 and
    in line 103; line [k] starts at offset [4 * (k - 1)]. *)
Definition oldLines104 : list string :=
  ["001"; "002"] ++ kept104 ++ ["103"; "104"].
Definition newLines104 : list string :=
  ["001"; "x02"] ++ kept104 ++ ["x03"; "104"].

Definition newline : string := String "010"%char EmptyString.
Definition old104 : string := String.concat newline oldLines104.
Definition new104 : string := String.concat newline newLines104.

(** The document the editor makes of a text: its lines. *)
Definition text_of (s : string) : Text :=
  match PatienceDiff.split_lines s with
  | l :: ls => mkText l ls
  | [] => mkText EmptyString []
  end.

(** The chunk with the offsets of an edit block of [lineDiff]. *)
Definition chunk_of (c : PatienceDiff.Change) : Chunk :=
  mkChunk (PatienceDiff.fromA c) (PatienceDiff.toA c)
          (PatienceDiff.fromB c) (PatienceDiff.toB c).

(** The edit blocks of the two texts: line 2, offsets 4..8, and line 103,
    offsets 408..412. *)
Definition blocks104 : list PatienceDiff.Change :=
  [PatienceDiff.mkChange 4 8 4 8; PatienceDiff.mkChange 408 412 408 412].

(** C3.  The claim's own example -- 100 unchanged lines between two edit
    blocks, margin 2, minimum size 4 -- on the blocks the program builds.
    The two texts of 104 lines differ in lines 2 and 103 and share the lines
    3..102.  [lineDiff] gives the two blocks, each ending after the line
    break of its line: the first at offset 8, where line 3 starts.  Shrinking
    both ends of the unchanged lines 3..102 by 2 gives the one range of the
    lines 5..100, 96 lines, as the claim says.  [computeUnchangedRanges], on
    either side, emits the one range of the lines 6..100, 95 lines: it takes
    the line that holds the block's end offset, which is the first unchanged
    line, for the last line of the block, and starts the span one line
    late. *)
Theorem computeUnchangedRanges_gap_of_100 :
  PatienceDiff.split_lines old104 = oldLines104
  /\ PatienceDiff.split_lines new104 = newLines104
  /\ length kept104 = 100%nat
  /\ PatienceDiff.lineDiff old104 new104 = Some blocks104
  /\ computeUnchangedRanges (text_of old104) (map chunk_of blocks104) SideA 2 4
     = Some [mkFoldRange 20 399 95]
  /\ computeUnchangedRanges (text_of new104) (map chunk_of blocks104) SideB 2 4
     = Some [mkFoldRange 20 399 95]
  /\ claimed_range (text_of old104) 2 4 3 102 = [mkFoldRange 16 399 96]
  /\ claimed_range (text_of new104) 2 4 3 102 = [mkFoldRange 16 399 96].
Proof. repeat split; vm_compute; reflexivity. Qed.

End FoldUnchangedFacts.

(** * Proofs about the file watcher *)

Section FileWatcherFacts.
Import FileWatcher.
Local Open Scope Z_scope.

(** A markdown file at path [p]. *)
Definition md (p : string) : TAbstractFile := TFile p "md".

Definition a_md : string := "a.md".

Definition enabled_settings : ExternalDiffSettings := mkSettings true 1000.
Definition disabled_settings : ExternalDiffSettings := mkSettings false 1000.

(** ** One call of [handleModify] *)

Lemma handleModify_md p content views w :
  enabled (settings w) = true ->
  handleModify (md p) content views w = handleModify_resume p content views w.
Proof. intros H. unfold handleModify, md. cbn. now rewrite H. Qed.

Lemma handleModify_disabled file content views w :
  enabled (settings w) = false ->
  handleModify file content views w = (w, []).
Proof.
  intros H. unfold handleModify. destruct file as [p ext|p]; [|reflexivity].
  rewrite H. now destruct (negb (bool_decide (ext = "md"%string))).
Qed.

Lemma set_snapshot_same p c w :
  snapshots w !! p = Some c -> set_snapshot p c w = w.
Proof.
  intros H. destruct w as [st sn re pe ti]. unfold set_snapshot. cbn in *.
  f_equal. now apply insert_id.
Qed.

(** A pending path with a snapshot: nothing is written, and what is
    reported is reported against that snapshot. *)
Lemma handleModify_resume_pending p old content views w :
  p ∈ pendingExternalPaths w -> snapshots w !! p = Some old ->
  handleModify_resume p content views w =
  (w, if bool_decide (old = content) then [] else [mkReport p old content]).
Proof.
  intros Hp Hs. unfold handleModify_resume. rewrite Hs.
  case_bool_decide as E.
  - subst. now rewrite set_snapshot_same.
  - now rewrite bool_decide_eq_true_2.
Qed.

(** ** First observation (C9) *)

Definition disabled_watcher : Watcher := mkWatcher disabled_settings ∅ ∅ ∅ ∅.
Definition enabled_watcher : Watcher := mkWatcher enabled_settings ∅ ∅ ∅ ∅.

(** C9, as stated, fails while detection is switched off: the modification
    of a markdown file that has no snapshot stores nothing. *)
Lemma handleModify_untracked_disabled :
  snapshots disabled_watcher !! a_md = None
  /\ handleModify (md "a.md") "C" [] disabled_watcher = (disabled_watcher, [])
  /\ snapshots (fst (handleModify (md "a.md") "C" [] disabled_watcher))
       !! a_md = None.
Proof. repeat split. Qed.

(** C9, amended.  While the [enabled] setting is true, if no snapshot exists
    for the path of a markdown file, or the new content equals the snapshot,
    [handleModify] stores the content as the snapshot, emits no report and
    adds nothing to the pending set; markers and timers are left as they
    are. *)
Theorem handleModify_first_observation w p content views :
  enabled (settings w) = true ->
  snapshots w !! p = None \/ snapshots w !! p = Some content ->
  let '(w', reports) := handleModify (md p) content views w in
  snapshots w' = <[p := content]> (snapshots w)
  /\ snapshots w' !! p = Some content
  /\ reports = []
  /\ pendingExternalPaths w' = pendingExternalPaths w
  /\ recentlyEditedInternally w' = recentlyEditedInternally w
  /\ debounceTimers w' = debounceTimers w.
Proof.
  intros He Hs. rewrite handleModify_md by exact He.
  unfold handleModify_resume.
  destruct Hs as [Hs|Hs]; rewrite Hs; [|rewrite bool_decide_eq_true_2 by reflexivity];
    cbn; repeat split; apply lookup_insert_eq.
Qed.

Lemma handleModify_first_observation_witness :
  enabled (settings enabled_watcher) = true
  /\ (snapshots enabled_watcher !! a_md = None
      \/ snapshots enabled_watcher !! a_md = Some "C"%string)
  /\ let '(w', reports) := handleModify (md "a.md") "C" [] enabled_watcher in
     snapshots w' = <[a_md := "C"%string]> (snapshots enabled_watcher)
     /\ snapshots w' !! a_md = Some "C"%string
     /\ reports = []
     /\ pendingExternalPaths w' = pendingExternalPaths enabled_watcher
     /\ recentlyEditedInternally w' = recentlyEditedInternally enabled_watcher
     /\ debounceTimers w' = debounceTimers enabled_watcher.
Proof.
  split; [reflexivity|]. split; [left; reflexivity|].
  apply (handleModify_first_observation enabled_watcher "a.md" "C" []);
    [reflexivity|left; reflexivity].
Defined.

(** ** Detection switched off (C10) *)

Definition is_modify (ev : Event) : bool :=
  match ev with Modify _ _ _ => true | _ => false end.

Lemma run_modify_disabled mods : forall s,
  enabled (settings (watcher s)) = false ->
  forallb is_modify mods = true ->
  run mods s = s.
Proof.
  induction mods as [|ev mods IH]; intros s He Hm; [reflexivity|].
  cbn in Hm. apply andb_prop in Hm. destruct Hm as [Hev Hm].
  destruct ev; try discriminate. cbn [run fold_left step].
  rewrite handleModify_disabled by exact He.
  rewrite app_nil_r. destruct s as [w h r]. cbn in *.
  now apply (IH (mkWorld w h r)).
Qed.

(** C10.  If the [enabled] setting is false, [handleModify] does nothing,
    for every file and content: the watcher is left as it is (snapshots,
    pending set, markers) and no report is made, whatever the snapshot
    says.  Through any number of modifications made while detection is off
    the snapshots stay as they were, so once detection is on again the next
    external modification is reported against the snapshot from before. *)
Theorem handleModify_disabled_noop w :
  enabled (settings w) = false ->
  (forall file content views, handleModify file content views w = (w, []))
  /\ (forall h reports mods,
         forallb is_modify mods = true ->
         run mods (mkWorld w h reports) = mkWorld w h reports)
  /\ (forall h reports mods p old content views,
         forallb is_modify mods = true ->
         snapshots w !! p = Some old -> old <> content ->
         p ∉ pendingExternalPaths w -> p ∉ recentlyEditedInternally w ->
         editorHasContent p content views = false ->
         reported (run (mods ++ [SetEnabled true; Modify (md p) content views])
                       (mkWorld w h reports))
         = reports ++ [mkReport p old content]).
Proof.
  intros He. split; [|split].
  - intros. now apply handleModify_disabled.
  - intros h reports mods Hm. now apply run_modify_disabled.
  - intros h reports mods p old content views Hm Hs Hne Hp Hr Hv.
    unfold run. rewrite fold_left_app. fold (run mods (mkWorld w h reports)).
    rewrite (run_modify_disabled mods (mkWorld w h reports) He Hm).
    cbn [fold_left step watcher host reported].
    rewrite handleModify_md by reflexivity.
    unfold handleModify_resume. cbn [with_settings snapshots pendingExternalPaths
                                      recentlyEditedInternally].
    rewrite Hs, Hv.
    rewrite !bool_decide_eq_false_2 by assumption. reflexivity.
Qed.

Definition stale_watcher : Watcher :=
  mkWatcher disabled_settings {[a_md := "S0"%string]} ∅ ∅ ∅.

Lemma handleModify_disabled_noop_witness :
  enabled (settings stale_watcher) = false
  /\ handleModify (md "a.md") "S1" [] stale_watcher = (stale_watcher, []).
Proof.
  split; [reflexivity|].
  apply (proj1 (handleModify_disabled_noop stale_watcher eq_refl)).
Defined.

(** ** Pending paths (C2) *)




Lemma updateSnapshot_lookup p c w :
  snapshots (updateSnapshot p c w) !! p = Some c
  /\ (p ∉ pendingExternalPaths (updateSnapshot p c w)).
Proof.
  unfold updateSnapshot. cbn. split; [apply lookup_insert_eq|].
  rewrite elem_of_difference, elem_of_singleton. tauto.
Qed.


(** A file is created and modified from outside: its path is pending, with
    the snapshot ["S0"]. *)
Definition pending_world : World :=
  run [Create (md "a.md") "S0"; Modify (md "a.md") "S1" []]
      (initial enabled_settings).


(** ** Internal edits (C5) *)





(** [markAsInternalEdit], spelled out. *)
Lemma markAsInternalEdit_eq p w h :
  markAsInternalEdit p (w, h) =
  (mkWatcher (settings w) (snapshots w) ({[p]} ∪ recentlyEditedInternally w)
     (pendingExternalPaths w) (<[p := nextTimer h]> (debounceTimers w)),
   mkHost
     (<[nextTimer h := (p, now h + Z.max 0 (debounceMs (settings w)))]>
        (match debounceTimers w !! p with
         | Some id => delete id (timeouts h)
         | None => timeouts h
         end))
     (Pos.succ (nextTimer h)) (now h)).
Proof.
  unfold markAsInternalEdit, setTimeout, clearTimeout.
  now destruct (debounceTimers w !! p).
Qed.





(** ** Timers (C7, C8) *)

(** Every armed timeout is the one stored for the path its callback has
    captured, and the stored handles are older than the next handle. *)
Definition timers_inv (w : Watcher) (h : Host) : Prop :=
  (forall id p due, timeouts h !! id = Some (p, due) ->
                    debounceTimers w !! p = Some id)
  /\ (forall p id, debounceTimers w !! p = Some id -> (id < nextTimer h)%positive).

(** No two armed timeouts are for the path [p]. *)
Definition at_most_one_timer (p : string) (h : Host) : Prop :=
  forall id1 id2 due1 due2,
    timeouts h !! id1 = Some (p, due1) -> timeouts h !! id2 = Some (p, due2) ->
    id1 = id2.

Lemma timers_inv_one w h p : timers_inv w h -> at_most_one_timer p h.
Proof.
  intros [H _] id1 id2 due1 due2 H1 H2.
  apply H in H1, H2. congruence.
Qed.

Lemma timeouts_foldr_clear ids : forall h id x,
  timeouts (foldr clearTimeout h ids) !! id = Some x ->
  timeouts h !! id = Some x /\ id ∉ ids.
Proof.
  induction ids as [|i ids IH]; intros h id x; cbn.
  - intros H. split; [exact H|]. apply not_elem_of_nil.
  - intros H. apply lookup_delete_Some in H. destruct H as [Hne H].
    apply IH in H. destruct H as [H Hni]. split; [exact H|].
    rewrite elem_of_cons. intros [?|?]; [congruence|contradiction].
Qed.

Lemma destroy_timeouts w h :
  timers_inv w h -> timeouts (snd (destroy (w, h))) = ∅.
Proof.
  intros [Hinv _]. cbn. apply map_eq. intros id. rewrite lookup_empty.
  destruct (timeouts (foldr clearTimeout h (map_to_list (debounceTimers w)).*2)
              !! id) as [[p due]|] eqn:E; [|reflexivity].
  apply timeouts_foldr_clear in E. destruct E as [E Hni].
  exfalso. apply Hni. apply Hinv in E.
  apply list_elem_of_fmap. exists (p, id). split; [reflexivity|].
  now apply elem_of_map_to_list.
Qed.

Lemma timers_inv_mark p w h :
  timers_inv w h ->
  timers_inv (fst (markAsInternalEdit p (w, h))) (snd (markAsInternalEdit p (w, h))).
Proof.
  intros [H1 H2]. rewrite markAsInternalEdit_eq. cbn [fst snd]. split.
  - intros id q due. cbn [timeouts debounceTimers].
    destruct (decide (id = nextTimer h)) as [->|Hne].
    + rewrite lookup_insert_eq. intros [= <- <-]. apply lookup_insert_eq.
    + rewrite lookup_insert_ne by congruence. intros Hq.
      assert (Hq' : timeouts h !! id = Some (q, due)
                    /\ debounceTimers w !! p <> Some id).
      { destruct (debounceTimers w !! p) as [old|] eqn:Eo.
        - apply lookup_delete_Some in Hq. destruct Hq as [Hn Hq].
          split; [exact Hq|congruence].
        - split; [exact Hq|discriminate]. }
      destruct Hq' as [Hq' Hold]. apply H1 in Hq'.
      rewrite lookup_insert_ne; [exact Hq'|]. intros ->. contradiction.
  - intros q id. cbn [debounceTimers nextTimer].
    destruct (decide (p = q)) as [->|Hne].
    + rewrite lookup_insert_eq. intros [= <-]. lia.
    + rewrite lookup_insert_ne by exact Hne. intros Hq. apply H2 in Hq. lia.
Qed.

Lemma timers_inv_fire id w h w' h' :
  timers_inv w h -> fireTimeout id (w, h) = Some (w', h') -> timers_inv w' h'.
Proof.
  intros [H1 H2]. unfold fireTimeout.
  destruct (timeouts h !! id) as [[p due]|] eqn:E; [|discriminate].
  destruct (due <=? now h); [|discriminate]. intros [= <- <-].
  pose proof (H1 _ _ _ E) as Hp. split.
  - intros id' q due'. cbn. intros Hq.
    apply lookup_delete_Some in Hq. destruct Hq as [Hne Hq].
    apply H1 in Hq. rewrite lookup_delete_ne; [exact Hq|].
    intros ->. congruence.
  - intros q id'. cbn. intros Hq. apply lookup_delete_Some in Hq.
    destruct Hq as [_ Hq]. now apply H2 in Hq.
Qed.

Lemma timers_inv_step s ev :
  timers_inv (watcher s) (host s) ->
  timers_inv (watcher (step s ev)) (host (step s ev)).
Proof.
  intros Hinv. destruct ev; cbn [step].
  - destruct (handleModify file content views (watcher s)) as [w' r] eqn:E.
    cbn. unfold handleModify, handleModify_resume in E.
    destruct file as [p ext|p]; [|injection E as <- <-; exact Hinv].
    repeat (match type of E with
            | context [if ?b then _ else _] => destruct b
            | context [match ?o with Some _ => _ | None => _ end] => destruct o
            end);
      injection E as <- <-; exact Hinv.
  - unfold handleCreate. destruct file as [p ext|p]; [|exact Hinv].
    destruct (negb _); exact Hinv.
  - destruct file; exact Hinv.
  - destruct file; exact Hinv.
  - exact Hinv.
  - pose proof (timers_inv_mark p _ _ Hinv) as H.
    destruct (markAsInternalEdit p (watcher s, host s)). exact H.
  - pose proof (destroy_timeouts _ _ Hinv) as H.
    destruct (destroy (watcher s, host s)) as [w' h'] eqn:E. cbn in H |- *.
    injection E as <- <-. split.
    + intros id p due. cbn in H. rewrite H, lookup_empty. discriminate.
    + intros p id. cbn. rewrite lookup_empty. discriminate.
  - destruct (fireTimeout id (watcher s, host s)) as [[w' h']|] eqn:E;
      [|exact Hinv].
    cbn. eapply timers_inv_fire; [exact Hinv|exact E].
  - exact Hinv.
  - exact Hinv.
  - exact Hinv.
Qed.

Lemma timers_inv_run evs : forall s,
  timers_inv (watcher s) (host s) ->
  timers_inv (watcher (run evs s)) (host (run evs s)).
Proof.
  induction evs as [|ev evs IH]; intros s H; [exact H|].
  cbn [run fold_left]. apply IH. now apply timers_inv_step.
Qed.

Lemma timers_inv_reachable evs st :
  timers_inv (watcher (run evs (initial st))) (host (run evs (initial st))).
Proof.
  apply timers_inv_run. split; cbn; intros *; rewrite lookup_empty; discriminate.
Qed.

(** C7.  In every state the watcher can reach, and for every path, at most
    one timeout is armed for the path.  [markAsInternalEdit(path)] first
    clears the timeout stored for the path -- after which none is armed for
    it -- and then arms the new one and stores its handle under the same
    key: the old handle is no longer armed, the new one is the only one for
    the path. *)
Theorem one_timer_per_path (evs : list Event) (st : ExternalDiffSettings)
    (p : string) :
  let s := run evs (initial st) in
  let h1 := match debounceTimers (watcher s) !! p with
            | Some id => clearTimeout id (host s)
            | None => host s
            end in
  let r := markAsInternalEdit p (watcher s, host s) in
  at_most_one_timer p (host s)
  /\ (forall id due, timeouts h1 !! id <> Some (p, due))
  /\ snd r = snd (setTimeout p (debounceMs (settings (watcher s))) h1)
  /\ debounceTimers (fst r) !! p = Some (nextTimer (host s))
  /\ timeouts (snd r) !! nextTimer (host s)
     = Some (p, now (host s) + Z.max 0 (debounceMs (settings (watcher s))))
  /\ (forall old, debounceTimers (watcher s) !! p = Some old ->
                  timeouts (snd r) !! old = None)
  /\ (forall id due, timeouts (snd r) !! id = Some (p, due) ->
                     id = nextTimer (host s))
  /\ at_most_one_timer p (snd r).
Proof.
  intros s h1 r.
  pose proof (timers_inv_reachable evs st) as Hinv. fold s in Hinv.
  pose proof (timers_inv_mark p _ _ Hinv) as Hinv'. fold r in Hinv'.
  destruct Hinv as [H1 H2].
  assert (Hr : r = markAsInternalEdit p (watcher s, host s)) by reflexivity.
  rewrite markAsInternalEdit_eq in Hr.
  split; [apply (timers_inv_one (watcher s)); split; assumption|].
  split.
  { intros id due Hid. subst h1.
    destruct (debounceTimers (watcher s) !! p) as [old|] eqn:Eo.
    - cbn in Hid. apply lookup_delete_Some in Hid. destruct Hid as [Hne Hid].
      apply H1 in Hid. congruence.
    - apply H1 in Hid. congruence. }
  split.
  { subst h1. rewrite Hr. unfold setTimeout, clearTimeout. cbn [snd].
    now destruct (debounceTimers (watcher s) !! p). }
  split; [rewrite Hr; cbn; apply lookup_insert_eq|].
  split; [rewrite Hr; cbn; apply lookup_insert_eq|].
  split.
  { intros old Ho. rewrite Hr. cbn [snd timeouts]. rewrite Ho.
    pose proof (H2 _ _ Ho) as Hlt.
    rewrite lookup_insert_ne by lia. apply lookup_delete_eq. }
  split.
  { intros id due Hid. destruct Hinv' as [H1' _]. apply H1' in Hid.
    rewrite Hr in Hid. cbn in Hid. rewrite lookup_insert_eq in Hid. congruence. }
  now apply (timers_inv_one (fst r)).
Qed.

(** Two edits in a row of the same file: the timeout of the first is
    cleared by the second. *)
Lemma one_timer_per_path_witness :
  debounceTimers (watcher (run [MarkAsInternalEdit a_md]
                              (initial enabled_settings))) !! a_md
  = Some 1%positive
  /\ timeouts (host (run [MarkAsInternalEdit a_md; MarkAsInternalEdit a_md]
                         (initial enabled_settings))) !! 1%positive = None.
Proof.
  split; [vm_compute; reflexivity|].
  destruct (one_timer_per_path [MarkAsInternalEdit a_md] enabled_settings a_md)
    as (_ & _ & _ & _ & _ & H & _).
  apply (H 1%positive). vm_compute. reflexivity.
Defined.

(** ** Teardown (C8) *)

Definition is_mark (ev : Event) : bool :=
  match ev with MarkAsInternalEdit _ => true | _ => false end.

Lemma no_timeouts_step s ev :
  timeouts (host s) = ∅ -> is_mark ev = false ->
  timeouts (host (step s ev)) = ∅.
Proof.
  intros H Hev. destruct ev; try discriminate; cbn [step]; try exact H.
  - now destruct (handleModify file content views (watcher s)).
  - cbn. apply map_eq. intros id. rewrite lookup_empty.
    destruct (timeouts (foldr clearTimeout (host s) _) !! id) eqn:E; [|reflexivity].
    apply timeouts_foldr_clear in E. destruct E as [E _].
    rewrite H, lookup_empty in E. discriminate.
  - unfold fireTimeout. now rewrite H, lookup_empty.
Qed.

Lemma no_timeouts_run evs : forall s,
  timeouts (host s) = ∅ -> forallb (fun ev => negb (is_mark ev)) evs = true ->
  timeouts (host (run evs s)) = ∅.
Proof.
  induction evs as [|ev evs IH]; intros s H Hev; [exact H|].
  cbn in Hev. apply andb_prop in Hev. destruct Hev as [Hev Hevs].
  cbn [run fold_left]. apply IH; [|exact Hevs].
  apply no_timeouts_step; [exact H|]. now destruct (is_mark ev).
Qed.

(** C8.  After [destroy()], from any state the watcher can reach: no timeout
    of the watcher is armed any more, and the timer map, the marker set, the
    pending set and the snapshot map are empty.  The host has no expiry
    callback left to run, and none appears as long as [markAsInternalEdit]
    is not called again. *)
Theorem destroy_cancels_all (evs : list Event) (st : ExternalDiffSettings) :
  let s := step (run evs (initial st)) Destroy in
  timeouts (host s) = ∅
  /\ debounceTimers (watcher s) = ∅
  /\ recentlyEditedInternally (watcher s) = ∅
  /\ pendingExternalPaths (watcher s) = ∅
  /\ snapshots (watcher s) = ∅
  /\ (forall id, fireTimeout id (watcher s, host s) = None)
  /\ (forall later id,
         forallb (fun ev => negb (is_mark ev)) later = true ->
         fireTimeout id (watcher (run later s), host (run later s)) = None).
Proof.
  intros s.
  assert (H : timeouts (host s) = ∅).
  { pose proof (destroy_timeouts _ _ (timers_inv_reachable evs st)) as H.
    subst s. cbn [step].
    destruct (destroy (watcher (run evs (initial st)), host (run evs (initial st))))
      as [w' h']. exact H. }
  split; [exact H|].
  repeat split; try reflexivity.
  - intros id. unfold fireTimeout. now rewrite H, lookup_empty.
  - intros later id Hl. unfold fireTimeout.
    now rewrite (no_timeouts_run later s H Hl), lookup_empty.
Qed.

(** Two files are being edited when the plugin is unloaded; a second later
    the timeout of the first has nothing to run. *)
Lemma destroy_cancels_all_witness :
  forallb (fun ev => negb (is_mark ev)) [Elapse 1000] = true
  /\ timeouts (host (run [MarkAsInternalEdit a_md; MarkAsInternalEdit "b.md"]
                         (initial enabled_settings))) !! 1%positive
     = Some (a_md, 1000)
  /\ fireTimeout 1
       (watcher (run [MarkAsInternalEdit a_md; MarkAsInternalEdit "b.md";
                      Destroy; Elapse 1000] (initial enabled_settings)),
        host (run [MarkAsInternalEdit a_md; MarkAsInternalEdit "b.md";
                   Destroy; Elapse 1000] (initial enabled_settings)))
     = None.
Proof.
  split; [reflexivity|]. split; [vm_compute; reflexivity|].
  destruct (destroy_cancels_all
              [MarkAsInternalEdit a_md; MarkAsInternalEdit "b.md"]
              enabled_settings) as (_ & _ & _ & _ & _ & _ & H).
  apply (H [Elapse 1000] 1%positive). reflexivity.
Defined.

End FileWatcherFacts.

(** * More about the patience diff *)

Section PatienceDiffMore.
Import PatienceDiff.
Local Open Scope Z_scope.

(** ** What [findUnique] and [uniqueCommon] return *)

(** X1.  [findUnique(arr, lo, hi)] holds exactly the lines that stand at one
    position of [arr[lo..hi]] and no other, each with that position; its
    entries come by increasing position and no key is there twice. *)
Theorem findUnique_unique_lines (arr : list string) (lo hi : Z) :
  (forall k i,
      In (k, i) (findUnique arr lo hi) <->
      lo <= i <= hi /\ arr_get arr i = k
      /\ occ arr (span_indices lo hi) k = 1%nat)
  /\ StronglySorted Z.lt (map snd (findUnique arr lo hi))
  /\ List.NoDup (map fst (findUnique arr lo hi)).
Proof.
  split; [intros k i; apply findUnique_In|].
  split; [apply findUnique_sorted|apply findUnique_NoDup].
Qed.

(** X2.  Every entry of [uniqueCommon] is an anchor without [prev] whose
    [indexA] lies in the span of A and [indexB] in the span of B, at the two
    positions that hold the key, which stands nowhere else in either span;
    every such pair of positions is there, and the entries come by
    increasing [indexA]. *)
Theorem uniqueCommon_anchors (aArr : list string) (aLo aHi : Z)
    (bArr : list string) (bLo bHi : Z) :
  (forall k x,
      In (k, x) (uniqueCommon aArr aLo aHi bArr bLo bHi) <->
      prev x = None
      /\ aLo <= indexA x <= aHi /\ arr_get aArr (indexA x) = k
      /\ occ aArr (span_indices aLo aHi) k = 1%nat
      /\ bLo <= indexB x <= bHi /\ arr_get bArr (indexB x) = k
      /\ occ bArr (span_indices bLo bHi) k = 1%nat)
  /\ StronglySorted Z.lt
       (map (fun kv => indexA (snd kv))
            (uniqueCommon aArr aLo aHi bArr bLo bHi)).
Proof.
  split; [|apply uniqueCommon_sorted].
  intros k x. rewrite uniqueCommon_In. split.
  - intros (ia & ib & -> & Ha & Hb). apply findUnique_In in Ha, Hb. cbn. tauto.
  - destruct x as [ia ib p]. cbn. intros (-> & Ha & Hka & Hoa & Hb & Hkb & Hob).
    exists ia, ib. split; [reflexivity|].
    split; apply findUnique_In; tauto.
Qed.

(** ** [longestCommonSubsequence] is longest *)

(** The two indices of an anchor. *)
Definition erase (x : Anchor) : Z * Z := (indexA x, indexB x).

(** The anchor [lcs_step] pushes for [val]: [val] with its [prev] set. *)
Definition placed (ja : list Pile) (val : Anchor) : Anchor :=
  match pile_index ja (indexB val) with
  | O => val
  | S j =>
      match ja !! j with
      | Some p => mkAnchor (indexA val) (indexB val) (Some (pile_top p))
      | None => val
      end
  end.

Lemma pile_index_bound ja b : (pile_index ja b <= length ja)%nat.
Proof.
  induction ja as [|p ja IH]; cbn; [lia|].
  destruct (indexB (pile_top p) <? b); cbn; lia.
Qed.

Lemma pile_index_at ja b p :
  ja !! pile_index ja b = Some p -> b <= indexB (pile_top p).
Proof.
  induction ja as [|q ja IH]; cbn; [discriminate|].
  destruct (indexB (pile_top q) <? b) eqn:E; cbn.
  - exact IH.
  - intros [= <-]. lia.
Qed.

Lemma lcs_step_lookup_eq ja v :
  exists q, lcs_step ja v !! pile_index ja (indexB v) = Some q
            /\ pile_top q = placed ja v.
Proof.
  unfold lcs_step. fold (placed ja v).
  destruct (ja !! pile_index ja (indexB v)) as [p|] eqn:E.
  - exists (pile_push (placed ja v) p). split; [|reflexivity].
    apply list_lookup_insert_eq. now apply lookup_lt_Some in E.
  - exists (placed ja v, []). split; [|reflexivity].
    apply lookup_ge_None in E. pose proof (pile_index_bound ja (indexB v)).
    rewrite lookup_app_r by lia.
    replace (pile_index ja (indexB v) - length ja)%nat with 0%nat by lia.
    reflexivity.
Qed.

Lemma lcs_step_lookup_ne ja v j :
  j <> pile_index ja (indexB v) -> lcs_step ja v !! j = ja !! j.
Proof.
  intros Hj. unfold lcs_step.
  destruct (ja !! pile_index ja (indexB v)) as [p|] eqn:E.
  - apply list_lookup_insert_ne. congruence.
  - apply lookup_ge_None in E. pose proof (pile_index_bound ja (indexB v)).
    destruct (decide (j < length ja)%nat).
    + now rewrite lookup_app_l.
    + rewrite (proj2 (lookup_ge_None ja j)) by lia.
      apply lookup_ge_None. rewrite length_app. cbn. lia.
Qed.

Lemma placed_erase ja v : erase (placed ja v) = erase v.
Proof.
  unfold placed. destruct (pile_index ja (indexB v)); [reflexivity|].
  now destruct (ja !! n).
Qed.

Lemma placed_chain ja v :
  prev v = None ->
  prev_chain (placed ja v) =
  placed ja v ::
    match pile_index ja (indexB v) with
    | O => []
    | S j => match ja !! j with
             | Some p => prev_chain (pile_top p)
             | None => []
             end
    end.
Proof.
  intros Hv. unfold placed.
  destruct (pile_index ja (indexB v)) as [|j].
  - destruct v as [a b pv]. cbn in Hv. now subst.
  - destruct (ja !! j) as [p|]; [reflexivity|].
    destruct v as [a b pv]. cbn in Hv. now subst.
Qed.

(** The piles after the values [done]: tops go up from pile to pile, the
    [prev] chain of the top of pile [j] has [j + 1] anchors taken in order
    from [done], and every run of [done] that goes up in [indexB] and ends
    in [b] is no longer than the number of a pile whose top is at most
    [b]. *)
Definition piles_inv (ja : list Pile) (done : list Anchor) : Prop :=
  (forall i j p q, (i < j)%nat -> ja !! i = Some p -> ja !! j = Some q ->
                   indexB (pile_top p) < indexB (pile_top q))
  /\ (forall j p, ja !! j = Some p ->
        length (prev_chain (pile_top p)) = S j
        /\ sublist (map erase (rev (prev_chain (pile_top p))))
                   (map erase done))
  /\ (forall l b,
        sublist (l ++ [b]) (map indexB done) ->
        StronglySorted Z.lt (l ++ [b]) ->
        exists j p, (length l <= j)%nat /\ ja !! j = Some p
                    /\ indexB (pile_top p) <= b).

Lemma StronglySorted_snoc_inv (l : list Z) b :
  StronglySorted Z.lt (l ++ [b]) ->
  StronglySorted Z.lt l /\ Forall (fun x => x < b) l.
Proof.
  induction l as [|x l IH]; cbn; intros H; [split; constructor|].
  apply StronglySorted_inv in H. destruct H as [Hs Hx].
  destruct (IH Hs) as [Hs' Hb]. split.
  - constructor; [exact Hs'|]. apply Forall_app in Hx. tauto.
  - constructor; [|exact Hb]. apply Forall_app in Hx.
    destruct Hx as [_ Hx]. now inversion Hx.
Qed.

Lemma piles_inv_step ja done v :
  prev v = None -> piles_inv ja done ->
  piles_inv (lcs_step ja v) (done ++ [v]).
Proof.
  intros Hv (HT & HC & HJ).
  set (i := pile_index ja (indexB v)).
  destruct (lcs_step_lookup_eq ja v) as (q & Hq & Hqtop). fold i in Hq.
  assert (Hbelow : forall j p, (j < i)%nat -> ja !! j = Some p ->
                               indexB (pile_top p) < indexB v).
  { intros j p Hj Hp. exact (pile_index_below ja (indexB v) j p Hj Hp). }
  assert (Hat : forall p, ja !! i = Some p -> indexB v <= indexB (pile_top p)).
  { intros p Hp. exact (pile_index_at ja (indexB v) p Hp). }
  assert (HqB : indexB (pile_top q) = indexB v).
  { rewrite Hqtop. pose proof (placed_erase ja v) as E.
    unfold erase in E. congruence. }
  assert (Hlook : forall j p, lcs_step ja v !! j = Some p ->
                    (j = i /\ p = q) \/ (j <> i /\ ja !! j = Some p)).
  { intros j p Hp. destruct (decide (j = i)) as [->|Hne].
    - left. split; [reflexivity|congruence].
    - right. split; [exact Hne|]. now rewrite lcs_step_lookup_ne in Hp. }
  split; [|split].
  - intros j1 j2 p1 p2 Hlt H1 H2.
    destruct (Hlook _ _ H1) as [[-> ->]|[Hn1 H1']];
      destruct (Hlook _ _ H2) as [[-> ->]|[Hn2 H2']].
    + lia.
    + rewrite HqB.
      assert (is_Some (ja !! i)) as [pi Hpi].
      { apply lookup_lt_is_Some. apply lookup_lt_Some in H2'. lia. }
      pose proof (Hat _ Hpi). pose proof (HT _ _ _ _ Hlt Hpi H2'). lia.
    + rewrite HqB. now apply (Hbelow j1).
    + now apply (HT j1 j2).
  - intros j p Hp. destruct (Hlook _ _ Hp) as [[-> ->]|[Hn Hp']].
    + rewrite Hqtop, (placed_chain ja v Hv). fold i.
      rewrite map_app. cbn [length rev map].
      destruct i as [|j'] eqn:Ei.
      * cbn. split; [reflexivity|].
        rewrite placed_erase. apply sublist_inserts_l. reflexivity.
      * assert (is_Some (ja !! j')) as [p' Hp'].
        { apply lookup_lt_is_Some. pose proof (pile_index_bound ja (indexB v)).
          fold i in H. lia. }
        rewrite Hp'. destruct (HC _ _ Hp') as [Hlen Hsub].
        split; [cbn; lia|].
        rewrite map_app. cbn [map]. rewrite placed_erase.
        now apply sublist_app.
    + destruct (HC _ _ Hp') as [Hlen Hsub]. split; [exact Hlen|].
      rewrite map_app. now apply sublist_inserts_r.
  - intros l b Hsub Hsort. rewrite map_app in Hsub. cbn [map] in Hsub.
    assert (Hkeep : forall j p, ja !! j = Some p ->
                      exists p', lcs_step ja v !! j = Some p'
                                 /\ indexB (pile_top p') <= indexB (pile_top p)).
    { intros j p Hp. destruct (decide (j = i)) as [->|Hne].
      - exists q. split; [exact Hq|]. rewrite HqB. now apply Hat.
      - exists p. split; [now rewrite lcs_step_lookup_ne|lia]. }
    apply sublist_app_r in Hsub.
    destruct Hsub as (l1 & l2 & El & H1 & H2).
    apply sublist_cons_r in H2.
    destruct H2 as [H2|(l2' & -> & H2)]; apply sublist_nil_r in H2; subst.
    + rewrite app_nil_r in El. rewrite <- El in H1.
      destruct (HJ l b H1 Hsort) as (j & p & Hj & Hp & Hb).
      destruct (Hkeep _ _ Hp) as (p' & Hp' & Hle).
      exists j, p'. split; [exact Hj|]. split; [exact Hp'|lia].
    + apply app_inj_tail in El. destruct El as [El Eb]. subst l b.
      exists i, q. split; [|split; [exact Hq|lia]].
      destruct l1 as [|x l0 _] using rev_ind; [cbn; lia|].
      apply StronglySorted_snoc_inv in Hsort. destruct Hsort as [Hs Hall].
      destruct (HJ _ _ H1 Hs) as (j & p & Hj & Hp & Hb).
      apply Forall_app in Hall. destruct Hall as [_ Hx]. inversion Hx; subst.
      rewrite length_app. cbn.
      destruct (decide (i <= j)%nat) as [Hij|]; [|lia].
      exfalso.
      assert (is_Some (ja !! i)) as [pi Hpi].
      { apply lookup_lt_is_Some. apply lookup_lt_Some in Hp. lia. }
      pose proof (Hat _ Hpi).
      destruct (decide (i = j)) as [->|Hne].
      * rewrite Hpi in Hp. injection Hp as <-. lia.
      * pose proof (HT i j _ _ ltac:(lia) Hpi Hp). lia.
Qed.

Lemma piles_inv_fold vals : forall ja done,
  Forall (fun v => prev v = None) vals -> piles_inv ja done ->
  piles_inv (fold_left lcs_step vals ja) (done ++ vals).
Proof.
  induction vals as [|v vals IH]; intros ja done Hv H; cbn.
  - now rewrite app_nil_r.
  - inversion Hv; subst.
    replace (done ++ v :: vals) with ((done ++ [v]) ++ vals)
      by now rewrite <- app_assoc.
    apply IH; [assumption|]. now apply piles_inv_step.
Qed.

Lemma piles_inv_nil : piles_inv [] [].
Proof.
  split; [|split].
  - intros i j p q _ H. discriminate.
  - intros j p H. discriminate.
  - intros l b H. cbn in H. apply sublist_nil_r in H.
    destruct l; discriminate.
Qed.

(** The anchors returned are as many as there are piles, they are taken in
    order from the values of the map, and no run of values that goes up in
    [indexB] is longer. *)
Lemma longestCommonSubsequence_longest (abMap : list (Line * Anchor)) :
  Forall (fun v => prev v = None) (map snd abMap) ->
  let x := longestCommonSubsequence abMap in
  sublist (map erase x) (map erase (map snd abMap))
  /\ (forall l, sublist l (map indexB (map snd abMap)) ->
                StronglySorted Z.lt l -> (length l <= length x)%nat).
Proof.
  intros Hv. unfold longestCommonSubsequence.
  pose proof (piles_inv_fold (map snd abMap) [] [] Hv piles_inv_nil) as Hinv.
  cbn [app] in Hinv. destruct Hinv as (_ & HC & HJ).
  set (ja := fold_left lcs_step (map snd abMap) []) in *.
  destruct (last ja) as [p|] eqn:El.
  - rewrite last_lookup in El. destruct (HC _ _ El) as [Hlen Hsub].
    cbn zeta. split; [exact Hsub|].
    intros l Hl Hs. rewrite length_rev, Hlen.
    destruct l as [|b l0] using rev_ind; [cbn; lia|].
    destruct (HJ _ _ Hl Hs) as (j & q & Hj & Hq & _).
    apply lookup_lt_Some in Hq. rewrite length_app. cbn. lia.
  - apply last_None in El. cbn zeta. split; [apply sublist_nil_l|].
    intros l Hl Hs.
    destruct l as [|b l0] using rev_ind; [cbn; lia|].
    destruct (HJ _ _ Hl Hs) as (j & q & _ & Hq & _).
    rewrite El in Hq. discriminate.
Qed.

(** X3.  The anchors [longestCommonSubsequence] picks from [uniqueCommon] go
    up strictly in [indexA] and in [indexB], they are anchors of the map,
    taken in its order, and they are as many as can be: no selection of
    anchors of the map, in its order, whose [indexB] go up strictly is
    longer. *)
Theorem longestCommonSubsequence_of_uniqueCommon (aArr : list string)
    (aLo aHi : Z) (bArr : list string) (bLo bHi : Z) :
  let uc := uniqueCommon aArr aLo aHi bArr bLo bHi in
  let x := longestCommonSubsequence uc in
  StronglySorted anchor_lt x
  /\ sublist (map erase x) (map erase (map snd uc))
  /\ (forall l : list Anchor,
         sublist l (map snd uc) ->
         StronglySorted (fun y z => indexB y < indexB z) l ->
         (length l <= length x)%nat).
Proof.
  intros uc x.
  assert (Hprev : Forall (fun v => prev v = None) (map snd uc)).
  { apply List.Forall_forall. intros v Hin. apply in_map_iff in Hin.
    destruct Hin as ([k v'] & <- & Hin).
    now apply uniqueCommon_anchor_at in Hin. }
  destruct (longestCommonSubsequence_longest uc Hprev) as [Hsub Hmax].
  split; [|split; [exact Hsub|]].
  - apply (longestCommonSubsequence_ok (fun _ _ => True) uc).
    + apply uniqueCommon_sorted.
    + intros k v Hin. split; [|exact I].
      now apply uniqueCommon_anchor_at in Hin.
  - intros l Hl Hs. rewrite <- (length_map indexB l). apply Hmax.
    + change (map indexB l) with (indexB <$> l).
      change (map indexB (map snd uc)) with (indexB <$> map snd uc).
      now apply fmap_sublist.
    + clear Hl. induction Hs as [|y l Hs IH Hy]; cbn; constructor.
      * exact IH.
      * apply Forall_map. exact Hy.
Qed.

(** In the example a selection of one anchor is as long as the whole
    answer. *)
Lemma longestCommonSubsequence_of_uniqueCommon_witness :
  sublist [mkAnchor 1 1 None] (map snd (uniqueCommon xyx 0 2 xy 0 1))
  /\ StronglySorted (fun y z => indexB y < indexB z) [mkAnchor 1 1 None]
  /\ (length [mkAnchor 1 1 None]
      <= length (longestCommonSubsequence (uniqueCommon xyx 0 2 xy 0 1)))%nat.
Proof.
  assert (H1 : sublist [mkAnchor 1 1 None]
                       (map snd (uniqueCommon xyx 0 2 xy 0 1)))
    by (vm_compute; repeat constructor).
  assert (H2 : StronglySorted (fun y z => indexB y < indexB z)
                 [mkAnchor 1 1 None]) by repeat constructor.
  split; [exact H1|]. split; [exact H2|].
  exact (proj2 (proj2 (longestCommonSubsequence_of_uniqueCommon
                         xyx 0 2 xy 0 1)) _ H1 H2).
Defined.

(** ** The matches of [patienceDiff] *)

Lemma sublist_List_filter {X} (f : X -> bool) l : sublist (List.filter f l) l.
Proof.
  induction l as [|a l IH]; cbn; [constructor|].
  destruct (f a); now constructor.
Qed.

Lemma sublist_In {X} (l k : list X) x : sublist l k -> In x l -> In x k.
Proof.
  induction 1 as [|y l k _ IH|y l k _ IH]; cbn; tauto.
Qed.

Lemma StronglySorted_sublist {X} (R : X -> X -> Prop) l k :
  sublist l k -> StronglySorted R k -> StronglySorted R l.
Proof.
  induction 1 as [|y l k Hs IH|y l k Hs IH]; intros Hk.
  - constructor.
  - apply StronglySorted_inv in Hk. destruct Hk as [Hk Hy].
    constructor; [now apply IH|].
    rewrite List.Forall_forall in *. intros x Hx. apply Hy.
    eapply sublist_In; eassumption.
  - apply StronglySorted_inv in Hk. now apply IH.
Qed.

Lemma isMatch_aSide r :
  List.filter isMatch r = List.filter (fun e => 0 <=? bIndex e) (aSide r).
Proof. unfold aSide. now rewrite filter_twice. Qed.

Lemma isMatch_bSide r :
  List.filter isMatch r = List.filter (fun e => 0 <=? aIndex e) (bSide r).
Proof.
  unfold bSide. rewrite filter_twice. apply filter_ext.
  intros e. apply andb_comm.
Qed.

Lemma sides_count r :
  Forall (fun e => 0 <= aIndex e \/ 0 <= bIndex e) r ->
  (length (aSide r) + length (bSide r) =
   length r + length (List.filter isMatch r))%nat.
Proof.
  unfold aSide, bSide, isMatch.
  induction 1 as [|e r He _ IH]; cbn [List.filter length]; [reflexivity|].
  destruct (0 <=? aIndex e) eqn:Ea, (0 <=? bIndex e) eqn:Eb;
    cbn [andb length]; lia.
Qed.

(** X4.  The Match entries of [patienceDiff(A, B)] are a common subsequence
    of A and B: their lines, in the order of the result, are lines of A
    taken in order and lines of B taken in order; their [aIndex] and their
    [bIndex] go up strictly; each joins a position of A and a position of B
    that hold the same line; and there are [|A| + |B|] entries less one for
    each Match. *)
Theorem patienceDiff_matches (A B : list string) :
  exists r,
    patienceDiff A B = Some r
    /\ sublist (map line (List.filter isMatch r)) (map Some A)
    /\ sublist (map line (List.filter isMatch r)) (map Some B)
    /\ StronglySorted Z.lt (map aIndex (List.filter isMatch r))
    /\ StronglySorted Z.lt (map bIndex (List.filter isMatch r))
    /\ Forall (fun e => aIndex e < Z.of_nat (length A)
                        /\ bIndex e < Z.of_nat (length B)
                        /\ arr_get A (aIndex e) = line e
                        /\ arr_get B (bIndex e) = line e)
              (List.filter isMatch r)
    /\ (length r + length (List.filter isMatch r)
        = length A + length B)%nat.
Proof.
  destruct (patienceDiff_covers A B) as (r & E & C).
  exists r. split; [exact E|].
  destruct (covers_lines _ _ _ _ _ _ _ C) as [La Lb].
  destruct C as (Ha & Hb & Hok).
  rewrite span_indices_seq, arr_get_all in La, Lb.
  assert (Hsa : sublist (List.filter isMatch r) (aSide r))
    by (rewrite isMatch_aSide; apply sublist_List_filter).
  assert (Hsb : sublist (List.filter isMatch r) (bSide r))
    by (rewrite isMatch_bSide; apply sublist_List_filter).
  repeat split.
  - rewrite <- La. change (sublist (line <$> List.filter isMatch r)
                                   (line <$> aSide r)).
    now apply fmap_sublist.
  - rewrite <- Lb. change (sublist (line <$> List.filter isMatch r)
                                   (line <$> bSide r)).
    now apply fmap_sublist.
  - apply (StronglySorted_sublist _ _ (map aIndex (aSide r))).
    + change (sublist (aIndex <$> List.filter isMatch r)
                      (aIndex <$> aSide r)).
      now apply fmap_sublist.
    + rewrite Ha. apply span_indices_sorted.
  - apply (StronglySorted_sublist _ _ (map bIndex (bSide r))).
    + change (sublist (bIndex <$> List.filter isMatch r)
                      (bIndex <$> bSide r)).
      now apply fmap_sublist.
    + rewrite Hb. apply span_indices_sorted.
  - apply List.Forall_forall. intros e He.
    assert (Hia : In (aIndex e) (map aIndex (aSide r)))
      by (apply in_map; eapply sublist_In; eassumption).
    assert (Hib : In (bIndex e) (map bIndex (bSide r)))
      by (apply in_map; eapply sublist_In; eassumption).
    rewrite Ha in Hia. rewrite Hb in Hib.
    apply in_span_indices in Hia, Hib.
    apply filter_In in He. destruct He as [He Hm].
    rewrite List.Forall_forall in Hok.
    destruct (Hok e He) as (_ & _ & _ & H1 & H2).
    apply andb_prop in Hm. destruct Hm as [Hma Hmb].
    apply Z.leb_le in Hma, Hmb.
    rewrite <- H1, <- H2 by lia. repeat split; lia.
  - pose proof (sides_count r) as Hc.
    rewrite <- (length_map aIndex (aSide r)),
            <- (length_map bIndex (bSide r)), Ha, Hb in Hc.
    rewrite !span_indices_seq, !length_map, !length_seq in Hc.
    rewrite <- Hc; [reflexivity|].
    eapply List.Forall_impl; [|exact Hok]. unfold entry_ok. cbn. tauto.
Qed.

(** ** Sequences with no line in common *)

Lemma arr_get_In (A : list string) i :
  0 <= i < Z.of_nat (length A) -> exists s, arr_get A i = Some s /\ In s A.
Proof.
  intros Hi. unfold arr_get.
  replace (i <? 0) with false by (symmetry; apply Z.ltb_ge; lia).
  destruct (A !! Z.to_nat i) as [s|] eqn:E.
  - exists s. split; [reflexivity|].
    apply list_elem_of_In. eapply list_elem_of_lookup_2. exact E.
  - apply lookup_ge_None in E. lia.
Qed.

Lemma disjoint_arr_get (A B : list string) i j :
  (forall s, In s A -> ~ In s B) ->
  0 <= i < Z.of_nat (length A) -> 0 <= j < Z.of_nat (length B) ->
  arr_get A i <> arr_get B j.
Proof.
  intros Hd Hi Hj E.
  destruct (arr_get_In A i Hi) as (s & Hs & HA).
  destruct (arr_get_In B j Hj) as (t & Ht & HB).
  rewrite Hs, Ht in E. injection E as ->. now apply (Hd t).
Qed.

Lemma uniqueCommon_disjoint (A B : list string) aLo aHi bLo bHi :
  (forall s, In s A -> ~ In s B) ->
  0 <= aLo -> aHi < Z.of_nat (length A) ->
  0 <= bLo -> bHi < Z.of_nat (length B) ->
  uniqueCommon A aLo aHi B bLo bHi = [].
Proof.
  intros Hd ? ? ? ?.
  destruct (uniqueCommon A aLo aHi B bLo bHi) as [|[k x] m] eqn:E;
    [reflexivity|exfalso].
  assert (Hin : In (k, x) (uniqueCommon A aLo aHi B bLo bHi))
    by (rewrite E; now left).
  apply uniqueCommon_anchor_at in Hin. destruct Hin as (_ & Ha & Hb & Heq).
  revert Heq. apply disjoint_arr_get; [exact Hd|lia|lia].
Qed.

(** X5.  When no line of A is a line of B, [patienceDiff(A, B)] is a
    DeleteOnly entry for each position of A, in order, followed by an
    InsertOnly entry for each position of B, in order.  In particular
    [patienceDiff(A, [])] deletes everything and [patienceDiff([], B)]
    inserts everything. *)
Theorem patienceDiff_disjoint (A B : list string) :
  (forall s, In s A -> ~ In s B) ->
  patienceDiff A B =
  Some (map (fun i => mkDiffEntry (arr_get A i) i (-1))
            (span_indices 0 (Z.of_nat (length A) - 1))
        ++ map (fun i => mkDiffEntry (arr_get B i) (-1) i)
               (span_indices 0 (Z.of_nat (length B) - 1))).
Proof.
  intros Hd.
  set (aHi := Z.of_nat (length A) - 1). set (bHi := Z.of_nat (length B) - 1).
  assert (Huc : uniqueCommon A 0 aHi B 0 bHi = [])
    by (apply uniqueCommon_disjoint; [exact Hd|subst aHi bHi; lia..]).
  unfold patienceDiff, patienceDiff_fuel, recurseLCS, recurseLCS_with.
  fold aHi bHi. rewrite Huc.
  change (longestCommonSubsequence []) with (@nil Anchor).
  cbv beta iota zeta. cbn [addSubMatch].
  destruct (matchBeginning_spec A B (Z.to_nat (aHi + 1 - 0)) 0 aHi 0 bHi []
              ltac:(lia)) as (k & Ek & Hk & Hkeq & _).
  assert (k = 0%nat) as ->.
  { destruct k as [|k]; [reflexivity|exfalso].
    destruct Hk as [? ?]; [lia|].
    apply (disjoint_arr_get A B 0 0 Hd); [subst aHi; lia|subst bHi; lia|].
    apply (Hkeq 1). lia. }
  rewrite Ek. change (0 + Z.of_nat 0) with 0.
  cbn [match_run seq map app].
  destruct (skipEnd_spec A B (Z.to_nat (aHi + 1 - 0)) 0 aHi 0 bHi
              ltac:(lia)) as (k & Es & Hs & Hseq).
  assert (k = 0%nat) as ->.
  { destruct k as [|k]; [reflexivity|exfalso].
    destruct Hs as [? ?]; [lia|].
    apply (disjoint_arr_get A B aHi bHi Hd); [subst aHi; lia|subst bHi; lia|].
    specialize (Hseq (Z.of_nat (S k)) ltac:(lia)).
    now replace (aHi - Z.of_nat (S k) + Z.of_nat (S k)) with aHi in Hseq by lia;
      replace (bHi - Z.of_nat (S k) + Z.of_nat (S k)) with bHi in Hseq by lia. }
  rewrite Es. change (Z.of_nat 0) with 0. rewrite !Z.sub_0_r, Huc.
  cbn [length Nat.eqb mbind option_bind].
  unfold addEndMatches at 1. rewrite (span_indices_nil (aHi + 1) aHi) by lia.
  cbn [fold_left]. unfold addInserts, addDeletes.
  rewrite (fold_addToResult A B (fun i => -1) (fun i => i)),
          (fold_addToResult A B (fun i => i) (fun i => -1)).
  cbn [app]. f_equal. f_equal.
  apply map_ext_in. intros i Hi. apply in_span_indices in Hi.
  unfold entry. cbn.
  now replace (0 <=? i) with true by (symmetry; apply Z.leb_le; lia).
Qed.

(** One line against another one. *)
Lemma patienceDiff_disjoint_witness :
  patienceDiff ["x"%string] ["y"%string] =
  Some [mkDiffEntry (Some "x"%string) 0 (-1);
        mkDiffEntry (Some "y"%string) (-1) 0].
Proof.
  apply (patienceDiff_disjoint ["x"%string] ["y"%string]).
  intros s [<-|[]] [E|[]]. discriminate.
Defined.

End PatienceDiffMore.

(** * More about [lineDiff] *)

Section LineDiffFacts.
Import PatienceDiff.
Local Open Scope Z_scope.

(** ** [split] and its inverse *)

(** [lines.join("\n")], for a sequence [l :: ls]. *)
Fixpoint join_lines (l : string) (ls : list string) : string :=
  match ls with
  | [] => l
  | l' :: ls' => l +:+ String "010"%char (join_lines l' ls')
  end.

Definition join (ls : list string) : string :=
  match ls with
  | [] => EmptyString
  | l :: ls' => join_lines l ls'
  end.

Lemma append_cons c (s t : string) : String c s +:+ t = String c (s +:+ t).
Proof. reflexivity. Qed.

Lemma append_nil_r (s : string) : s +:+ EmptyString = s.
Proof.
  induction s as [|c s IH]; [reflexivity|]. now rewrite append_cons, IH.
Qed.

Lemma append_assoc (s t u : string) : (s +:+ t) +:+ u = s +:+ (t +:+ u).
Proof.
  induction s as [|c s IH]; [reflexivity|]. now rewrite !append_cons, IH.
Qed.

Lemma length_append (s t : string) :
  String.length (s +:+ t) = (String.length s + String.length t)%nat.
Proof.
  induction s as [|c s IH]; [reflexivity|].
  rewrite append_cons. cbn [String.length]. now rewrite IH.
Qed.

Lemma split_from_cons s : forall cur,
  exists l ls, split_from cur s = l :: ls.
Proof.
  induction s as [|c s IH]; intros cur; cbn; [eauto|].
  destruct (Ascii.eqb c "010"%char); eauto.
Qed.

Lemma join_split_from s : forall cur, join (split_from cur s) = cur +:+ s.
Proof.
  induction s as [|c s IH]; intros cur; cbn [split_from].
  - change (join [cur]) with cur. symmetry. apply append_nil_r.
  - destruct (Ascii.eqb c "010"%char) eqn:E.
    + apply Ascii.eqb_eq in E. subst c.
      specialize (IH EmptyString).
      destruct (split_from_cons s EmptyString) as (l & ls & El).
      rewrite El in *. cbn in *. now rewrite IH.
    + rewrite IH, append_assoc. reflexivity.
Qed.

Lemma split_lines_inj a b : split_lines a = split_lines b -> a = b.
Proof.
  intros E. apply (f_equal join) in E. unfold split_lines in E.
  now rewrite !join_split_from in E.
Qed.

Definition zsum (l : list Z) : Z := fold_right Z.add 0 l.

Lemma zsum_app l k : zsum (l ++ k) = zsum l + zsum k.
Proof. unfold zsum. induction l as [|x l IH]; cbn; lia. Qed.

Lemma zsum_filter {X} (f : X -> bool) (g : X -> Z) l :
  zsum (map (fun e => if f e then g e else 0) l)
  = zsum (map g (List.filter f l)).
Proof.
  unfold zsum. induction l as [|x l IH]; cbn; [reflexivity|].
  destruct (f x); cbn; lia.
Qed.

Lemma zsum_plus {X} (f g : X -> Z) l :
  zsum (map (fun x => f x + g x) l) = zsum (map f l) + zsum (map g l).
Proof. unfold zsum. induction l as [|x l IH]; cbn; lia. Qed.

Definition slen (s : string) : Z := Z.of_nat (String.length s).

(** The lines of a text and the line breaks between them make up its
    length. *)
Lemma split_from_length s : forall cur,
  zsum (map slen (split_from cur s)) + Z.of_nat (length (split_from cur s))
  = slen cur + slen s + 1.
Proof.
  unfold slen.
  induction s as [|c s IH]; intros cur; cbn [split_from].
  - cbn. lia.
  - destruct (Ascii.eqb c "010"%char).
    + cbn [map zsum fold_right length]. specialize (IH EmptyString).
      unfold zsum in IH. cbn [String.length] in *. lia.
    + rewrite IH, length_append. cbn [String.length]. lia.
Qed.

Lemma count_below (N : Z) n :
  zsum (map (fun i => if i <? N then 1 else 0) (map Z.of_nat (seq 0 n)))
  = Z.min (Z.of_nat n) (Z.max N 0).
Proof.
  induction n as [|n IH]; [cbn; lia|].
  rewrite seq_S, !map_app, zsum_app, IH. cbn.
  destruct (Z.of_nat n <? N) eqn:E; lia.
Qed.

(** ** The conversion to edit blocks *)

Definition len_of (l : Line) : Z :=
  match l with Some s => slen s | None => 0 end.

Section Advance.
Variables aLines bLines : list string.

(** What an entry adds to [curA] and to [curB]. *)
Definition advA (e : DiffEntry) : Z :=
  if 0 <=? aIndex e then len_of (line e) + sepA aLines e else 0.
Definition advB (e : DiffEntry) : Z :=
  if 0 <=? bIndex e then len_of (line e) + sepB bLines e else 0.

Definition restA (es : list DiffEntry) : Z := zsum (map advA es).
Definition restB (es : list DiffEntry) : Z := zsum (map advB es).

Lemma restA_cons e es : restA (e :: es) = advA e + restA es.
Proof. reflexivity. Qed.

Lemma restB_cons e es : restB (e :: es) = advB e + restB es.
Proof. reflexivity. Qed.

(** An entry [lineDiff] can read: a Match, a DeleteOnly or an InsertOnly
    whose line is a string. *)
Definition readable (e : DiffEntry) : Prop :=
  (bIndex e = -1 \/ 0 <= bIndex e)
  /\ (0 <= aIndex e \/ 0 <= bIndex e)
  /\ is_Some (line e).

(** Edit blocks in order: from offsets [a] and [b] on, each block starts
    where the one before ended or later, ends where it starts or later, and
    the last one ends at [la] and [lb] at most. *)
Fixpoint changes_within (a b la lb : Z) (cs : list Change) : Prop :=
  match cs with
  | [] => a <= la /\ b <= lb
  | c :: cs' =>
      a <= fromA c <= toA c /\ b <= fromB c <= toB c
      /\ changes_within (toA c) (toB c) la lb cs'
  end.

Lemma changes_within_weaken a b a' b' la lb cs :
  changes_within a b la lb cs -> a' <= a -> b' <= b ->
  changes_within a' b' la lb cs.
Proof. destruct cs; cbn; intros; lia || (intuition lia). Qed.

Lemma adv_nonneg e : 0 <= advA e /\ 0 <= advB e.
Proof.
  unfold advA, advB, sepA, sepB, len_of, slen.
  destruct (line e); repeat match goal with |- context [if ?c then _ else _] =>
    destruct c end; lia.
Qed.

Lemma readable_step e :
  readable e -> isMatch e = false ->
  exists len, line_length (line e) = Some len
    /\ ((bIndex e =? -1) = true /\ advA e = len + sepA aLines e /\ advB e = 0
        \/ (bIndex e =? -1) = false /\ advA e = 0
           /\ advB e = len + sepB bLines e).
Proof.
  intros (Hb & Hab & [s Hs]) Hm. unfold isMatch in Hm.
  exists (slen s). unfold line_length, advA, advB. rewrite Hs. cbn.
  split; [reflexivity|].
  destruct (0 <=? aIndex e) eqn:Ea, (0 <=? bIndex e) eqn:Eb;
    try discriminate; [left|right|exfalso; lia].
  - split; [apply Z.eqb_eq; lia|auto].
  - split; [apply Z.eqb_neq; lia|auto].
Qed.

Lemma changeRun_spec es : forall curA curB,
  Forall readable es ->
  exists curA' curB' rest,
    changeRun aLines bLines es curA curB = Some (curA', curB', rest)
    /\ curA <= curA' /\ curB <= curB'
    /\ curA' + restA rest = curA + restA es
    /\ curB' + restB rest = curB + restB es
    /\ (length rest <= length es)%nat
    /\ Forall readable rest.
Proof.
  induction es as [|e es IH]; intros curA curB Hes; cbn [changeRun].
  - exists curA, curB, []. repeat split; try lia. constructor.
  - destruct (isMatch e) eqn:Hm.
    + exists curA, curB, (e :: es). repeat split; try lia. exact Hes.
    + inversion Hes as [|? ? He Hes']; subst.
      destruct (readable_step e He Hm) as (len & Hlen & Hcase).
      rewrite Hlen. cbn [mbind option_bind].
      pose proof (adv_nonneg e) as [? ?].
      destruct Hcase as [(Eb & HA & HB)|(Eb & HA & HB)]; rewrite Eb.
      * destruct (IH (curA + (len + sepA aLines e)) curB Hes')
          as (a' & b' & rest & E & ? & ? & ? & ? & ? & ?).
        exists a', b', rest. rewrite restA_cons, restB_cons.
        cbn [length]. repeat split; try assumption; lia.
      * destruct (IH curA (curB + (len + sepB bLines e)) Hes')
          as (a' & b' & rest & E & ? & ? & ? & ? & ? & ?).
        exists a', b', rest. rewrite restA_cons, restB_cons.
        cbn [length]. repeat split; try assumption; lia.
Qed.

Lemma changeRun_shorter e es curA curB curA' curB' rest :
  isMatch e = false ->
  changeRun aLines bLines (e :: es) curA curB = Some (curA', curB', rest) ->
  (length rest <= length es)%nat.
Proof.
  intros Hm. cbn [changeRun]. rewrite Hm.
  destruct (line_length (line e)) as [len|]; [|discriminate].
  cbn [mbind option_bind].
  assert (H : forall es a b a' b' rest,
             changeRun aLines bLines es a b = Some (a', b', rest) ->
             (length rest <= length es)%nat).
  { clear. induction es as [|e es IH]; intros a b a' b' rest; cbn [changeRun].
    - intros [= <- <- <-]. cbn. lia.
    - destruct (isMatch e); [intros [= <- <- <-]; cbn; lia|].
      destruct (line_length (line e)); [|discriminate].
      cbn [mbind option_bind]. destruct (bIndex e =? -1); intros H;
        apply IH in H; cbn; lia. }
  destruct (bIndex e =? -1); apply H.
Qed.

Lemma changesLoop_spec n : forall es curA curB changes,
  Forall readable es -> (length es <= n)%nat ->
  exists new,
    changesLoop aLines bLines n es curA curB changes = Some (changes ++ new)
    /\ changes_within curA curB (curA + restA es) (curB + restB es) new.
Proof.
  induction n as [|n IH]; intros es curA curB changes Hes Hn.
  - destruct es; [|cbn in Hn; lia]. exists []. cbn.
    rewrite app_nil_r. unfold restA, restB. cbn. split; [reflexivity|lia].
  - destruct es as [|e es].
    { exists []. cbn. rewrite app_nil_r. unfold restA, restB. cbn.
      split; [reflexivity|lia]. }
    cbn [changesLoop]. destruct (isMatch e) eqn:Hm.
    + inversion Hes as [|? ? He Hes']; subst.
      destruct He as (_ & _ & [s Hs]).
      unfold line_length. rewrite Hs. cbn [fmap option_fmap option_map
                                           mbind option_bind].
      destruct (IH es (curA + (Z.of_nat (String.length s) + sepA aLines e))
                  (curB + (Z.of_nat (String.length s) + sepB bLines e))
                  changes Hes' ltac:(cbn in Hn; lia)) as (new & E & W).
      exists new. split; [exact E|].
      unfold isMatch in Hm. apply andb_prop in Hm. destruct Hm as [Ha Hb].
      assert (HA : advA e = Z.of_nat (String.length s) + sepA aLines e)
        by (unfold advA; now rewrite Ha, Hs).
      assert (HB : advB e = Z.of_nat (String.length s) + sepB bLines e)
        by (unfold advB; now rewrite Hb, Hs).
      pose proof (adv_nonneg e) as [? ?].
      rewrite restA_cons, restB_cons, HA, HB.
      rewrite (Z.add_assoc curA), (Z.add_assoc curB).
      eapply changes_within_weaken; [exact W|lia|lia].
    + destruct (changeRun_spec (e :: es) curA curB Hes)
        as (a' & b' & rest & E & ? & ? & HrA & HrB & _ & Hrest).
      pose proof (changeRun_shorter _ _ _ _ _ _ _ Hm E) as Hlen.
      rewrite E. cbn [mbind option_bind].
      destruct (IH rest a' b' (changes ++ [mkChange curA a' curB b'])
                  Hrest ltac:(cbn in Hn; lia)) as (new & E' & W).
      exists (mkChange curA a' curB b' :: new).
      split; [now rewrite E', <- app_assoc|].
      cbn [changes_within fromA toA fromB toB].
      rewrite <- HrA, <- HrB. repeat split; try lia. exact W.
Qed.

(** A run that adds no block has read Match entries only. *)
Lemma changesLoop_grows n : forall es curA curB changes out,
  changesLoop aLines bLines n es curA curB changes = Some out ->
  (length changes <= length out)%nat
  /\ (length out = length changes -> forallb isMatch es = true).
Proof.
  induction n as [|n IH]; intros es curA curB changes out.
  - destruct es; cbn; [intros [= <-]; auto|discriminate].
  - destruct es as [|e es]; cbn [changesLoop]; [intros [= <-]; auto|].
    destruct (isMatch e) eqn:Hm.
    + destruct (line_length (line e)); [|discriminate].
      cbn [mbind option_bind]. intros H. apply IH in H.
      cbn [forallb]. rewrite Hm. exact H.
    + destruct (changeRun aLines bLines (e :: es) curA curB)
        as [[[a' b'] rest]|]; [|discriminate].
      cbn [mbind option_bind]. intros H. apply IH in H.
      rewrite length_app in H. cbn in H. split; [lia|]. intros; lia.
Qed.

End Advance.

Lemma covers_readable A B aLo aHi bLo bHi r :
  0 <= aLo -> aHi < Z.of_nat (length A) ->
  0 <= bLo -> bHi < Z.of_nat (length B) ->
  covers A B aLo aHi bLo bHi r -> Forall readable r.
Proof.
  intros ? ? ? ? (Ha & Hb & Hok).
  rewrite List.Forall_forall in *. intros e He.
  destruct (Hok e He) as (_ & Hb2 & Hab & H4 & H5).
  split; [exact Hb2|]. split; [exact Hab|].
  destruct Hab as [H3|H3].
  - assert (Hin : In (aIndex e) (map aIndex (aSide r))).
    { apply in_map. apply filter_In. split; [exact He|]. now apply Z.leb_le. }
    rewrite Ha in Hin. apply in_span_indices in Hin.
    destruct (arr_get_In A (aIndex e) ltac:(lia)) as (s & Hs & _).
    exists s. now rewrite H4.
  - assert (Hin : In (bIndex e) (map bIndex (bSide r))).
    { apply in_map. apply filter_In. split; [exact He|]. now apply Z.leb_le. }
    rewrite Hb in Hin. apply in_span_indices in Hin.
    destruct (arr_get_In B (bIndex e) ltac:(lia)) as (s & Hs & _).
    exists s. now rewrite H5.
Qed.

Lemma zsum_len_of (A : list string) :
  zsum (map len_of (map Some A)) = zsum (map slen A).
Proof. now rewrite map_map. Qed.

(** The entries of a whole diff advance [curA] to the length of the text
    that A was split from. *)
Lemma restA_covers A B r :
  covers A B 0 (Z.of_nat (length A) - 1) 0 (Z.of_nat (length B) - 1) r ->
  restA A r = zsum (map slen A) + Z.max (Z.of_nat (length A) - 1) 0
  /\ restB B r = zsum (map slen B) + Z.max (Z.of_nat (length B) - 1) 0.
Proof.
  intros C. destruct C as (Ha & Hb & Hok). rewrite List.Forall_forall in Hok.
  unfold restA, restB, advA, advB. split.
  - rewrite (zsum_filter (fun e => 0 <=? aIndex e)
               (fun e => len_of (line e) + sepA A e)).
    fold (aSide r).
    assert (E : map (fun e => len_of (line e) + sepA A e) (aSide r)
                = map (fun i => len_of (arr_get A i)
                                + (if i <? Z.of_nat (length A) - 1
                                   then 1 else 0))
                      (map aIndex (aSide r))).
    { rewrite map_map. apply map_ext_in.
      intros e He. apply filter_In in He. destruct He as [He Hi].
      apply Z.leb_le in Hi.
      destruct (Hok e He) as (_ & _ & _ & H1 & _).
      now rewrite <- H1. }
    rewrite E, Ha, span_indices_seq, zsum_plus, count_below.
    rewrite <- (map_map (arr_get A) len_of), arr_get_all, zsum_len_of. lia.
  - rewrite (zsum_filter (fun e => 0 <=? bIndex e)
               (fun e => len_of (line e) + sepB B e)).
    fold (bSide r).
    assert (E : map (fun e => len_of (line e) + sepB B e) (bSide r)
                = map (fun i => len_of (arr_get B i)
                                + (if i <? Z.of_nat (length B) - 1
                                   then 1 else 0))
                      (map bIndex (bSide r))).
    { rewrite map_map. apply map_ext_in.
      intros e He. apply filter_In in He. destruct He as [He Hi].
      apply Z.leb_le in Hi.
      destruct (Hok e He) as (_ & _ & _ & _ & H1).
      now rewrite <- H1. }
    rewrite E, Hb, span_indices_seq, zsum_plus, count_below.
    rewrite <- (map_map (arr_get B) len_of), arr_get_all, zsum_len_of. lia.
Qed.

Lemma split_lines_total a :
  zsum (map slen (split_lines a))
  + Z.max (Z.of_nat (length (split_lines a)) - 1) 0 = slen a.
Proof.
  unfold split_lines. pose proof (split_from_length a EmptyString) as H.
  destruct (split_from_cons a EmptyString) as (l & ls & E).
  rewrite E in *. cbn [length] in *.
  change (slen EmptyString) with 0 in H. lia.
Qed.

(** X6.  For all texts [a] and [b], [lineDiff(a, b)] returns (no line it
    reads is [undefined]), and the edit blocks it returns are in order and
    inside the texts: each block has [fromA <= toA] and [fromB <= toB],
    starts at or after the end of the block before it on both sides, the
    first starts at 0 or later and the last ends at [a.length] and
    [b.length] at most. *)
Theorem lineDiff_changes_within (a b : string) :
  exists cs,
    lineDiff a b = Some cs
    /\ changes_within 0 0 (Z.of_nat (String.length a))
         (Z.of_nat (String.length b)) cs.
Proof.
  unfold lineDiff.
  destruct (patienceDiff_covers (split_lines a) (split_lines b))
    as (r & E & C).
  rewrite E. cbn [mbind option_bind].
  assert (Hr : Forall (readable) r)
    by (eapply covers_readable; [..|exact C]; lia).
  destruct (changesLoop_spec (split_lines a) (split_lines b) (length r) r
              0 0 [] Hr ltac:(lia)) as (new & En & W).
  exists new. split; [exact En|].
  destruct (restA_covers _ _ _ C) as [HA HB].
  rewrite HA, HB, !split_lines_total in W. exact W.
Qed.

(** X7.  A diff without edit blocks is a diff of equal texts: when
    [lineDiff(a, b)] is empty, [a] and [b] are the same string. *)
Theorem lineDiff_empty_equal (a b : string) :
  lineDiff a b = Some [] -> a = b.
Proof.
  unfold lineDiff.
  destruct (patienceDiff_covers (split_lines a) (split_lines b))
    as (r & E & C).
  rewrite E. cbn [mbind option_bind]. intros H.
  apply changesLoop_grows in H. destruct H as [_ H].
  specialize (H eq_refl). rewrite forallb_forall in H.
  destruct (covers_lines _ _ _ _ _ _ _ C) as [La Lb].
  rewrite span_indices_seq, arr_get_all in La, Lb.
  assert (HaS : aSide r = r).
  { apply filter_all. intros e He. specialize (H e He).
    unfold isMatch in H. now apply andb_prop in H. }
  assert (HbS : bSide r = r).
  { apply filter_all. intros e He. specialize (H e He).
    unfold isMatch in H. now apply andb_prop in H. }
  rewrite HaS in La. rewrite HbS in Lb. rewrite La in Lb.
  apply split_lines_inj.
  clear -Lb. revert Lb. generalize (split_lines a), (split_lines b).
  induction l as [|x l IH]; intros [|y k]; cbn; try discriminate;
    [reflexivity|].
  intros [= -> Hk]. f_equal. now apply IH.
Qed.

(** A line against itself. *)
Lemma lineDiff_empty_equal_witness : "x"%string = "x"%string.
Proof.
  apply (lineDiff_empty_equal "x"%string "x"%string).
  vm_compute. reflexivity.
Defined.

End LineDiffFacts.

(** * More about the unchanged ranges *)

Section FoldUnchangedMore.
Import FoldUnchanged.
Local Open Scope Z_scope.

(** ** Lines and offsets of a document *)

(** The units of [ls], a line break after each line. *)
Definition text_size (ls : list string) : Z :=
  fold_right (fun l n => str_len l + 1 + n) 0 ls.

Lemma text_size_cons l ls : text_size (l :: ls) = str_len l + 1 + text_size ls.
Proof. reflexivity. Qed.

Lemma str_len_nonneg s : 0 <= str_len s.
Proof. unfold str_len. lia. Qed.

Lemma text_size_nonneg ls : 0 <= text_size ls.
Proof.
  induction ls as [|l ls IH]; [cbn; lia|].
  rewrite text_size_cons. pose proof (str_len_nonneg l). lia.
Qed.

Lemma doc_length_size doc : doc_length doc = text_size (text_lines doc) - 1.
Proof. reflexivity. Qed.

Lemma doc_length_nonneg doc : 0 <= doc_length doc.
Proof.
  rewrite doc_length_size. unfold text_lines. rewrite text_size_cons.
  pose proof (str_len_nonneg (first_line doc)).
  pose proof (text_size_nonneg (more_lines doc)). lia.
Qed.

Lemma line_scan_bounds ls : forall start num n l,
  line_scan ls start num n = Some l ->
  num <= n /\ number l = n /\ start <= line_from l
  /\ line_from l <= line_to l /\ line_to l <= start + text_size ls - 1.
Proof.
  induction ls as [|x ls IH]; intros start num n l; cbn [line_scan];
    [discriminate|].
  rewrite text_size_cons.
  pose proof (str_len_nonneg x). pose proof (text_size_nonneg ls).
  destruct (n =? num) eqn:E.
  - apply Z.eqb_eq in E. intros [= <-]. cbn. lia.
  - intros Hl. apply IH in Hl. lia.
Qed.

Lemma line_scan_mono ls : forall start num n n' l l',
  line_scan ls start num n = Some l -> line_scan ls start num n' = Some l' ->
  n < n' -> line_to l < line_from l'.
Proof.
  induction ls as [|x ls IH]; intros start num n n' l l'; cbn [line_scan];
    [discriminate|].
  destruct (n =? num) eqn:E1, (n' =? num) eqn:E2.
  - apply Z.eqb_eq in E1, E2. lia.
  - intros [= <-] H' _. apply line_scan_bounds in H'. cbn. lia.
  - intros H _ Hlt. apply line_scan_bounds in H. apply Z.eqb_eq in E2. lia.
  - apply IH.
Qed.

Lemma lineAt_scan_line ls : forall start num pos l,
  lineAt_scan ls start num pos = Some l -> start <= pos ->
  line_scan ls start num (number l) = Some l
  /\ line_from l <= pos <= line_to l.
Proof.
  induction ls as [|x ls IH]; intros start num pos l;
    cbn [lineAt_scan line_scan]; [discriminate|].
  destruct (pos <=? start + str_len x) eqn:E.
  - apply Z.leb_le in E. intros [= <-] Hs. cbn. rewrite Z.eqb_refl.
    split; [reflexivity|lia].
  - apply Z.leb_gt in E. intros H Hs.
    pose proof (lineAt_scan_number _ _ _ _ _ H) as Hn.
    replace (number l =? num) with false by (symmetry; apply Z.eqb_neq; lia).
    apply IH; [exact H|lia].
Qed.

Lemma lineAt_scan_mono ls : forall start num p q l1 l2,
  lineAt_scan ls start num p = Some l1 -> lineAt_scan ls start num q = Some l2 ->
  p <= q -> number l1 <= number l2.
Proof.
  induction ls as [|x ls IH]; intros start num p q l1 l2; cbn [lineAt_scan];
    [discriminate|].
  destruct (p <=? start + str_len x) eqn:Ep.
  - intros [= <-] H2 _. cbn.
    destruct (q <=? start + str_len x).
    + injection H2 as <-. cbn. lia.
    + apply lineAt_scan_number in H2. lia.
  - apply Z.leb_gt in Ep. intros H1 H2 Hpq.
    replace (q <=? start + str_len x) with false in H2
      by (symmetry; apply Z.leb_gt; lia).
    now apply (IH _ _ _ _ _ _ H1 H2).
Qed.

Lemma lineAt_scan_defined ls : forall start num pos,
  start <= pos ->
  (is_Some (lineAt_scan ls start num pos) <-> pos <= start + text_size ls - 1).
Proof.
  induction ls as [|x ls IH]; intros start num pos Hs; cbn [lineAt_scan].
  - cbn. split; [intros [? ?]; discriminate|lia].
  - rewrite text_size_cons. pose proof (text_size_nonneg ls).
    destruct (pos <=? start + str_len x) eqn:E.
    + apply Z.leb_le in E. split; [lia|eauto].
    + apply Z.leb_gt in E. rewrite IH by lia. lia.
Qed.

(** [doc.lineAt(pos)] throws exactly outside [0..doc.length]. *)
Lemma lineAt_defined doc pos :
  is_Some (lineAt doc pos) <-> 0 <= pos <= doc_length doc.
Proof.
  unfold lineAt. rewrite doc_length_size. destruct (pos <? 0) eqn:E.
  - apply Z.ltb_lt in E. split; [intros [? ?]; discriminate|lia].
  - apply Z.ltb_ge in E. rewrite lineAt_scan_defined by lia. lia.
Qed.

(** The line [doc.lineAt(pos)] returns is [doc.line] of its number, and
    holds [pos]. *)
Lemma lineAt_line doc pos l :
  lineAt doc pos = Some l ->
  line doc (number l) = Some l /\ line_from l <= pos <= line_to l.
Proof.
  intros H. pose proof (lineAt_number _ _ _ H) as Hn.
  unfold lineAt in H. unfold line.
  destruct (pos <? 0) eqn:E; [discriminate|]. apply Z.ltb_ge in E.
  replace (number l <? 1) with false by (symmetry; apply Z.ltb_ge; lia).
  now apply lineAt_scan_line.
Qed.

Lemma lineAt_mono doc p q l1 l2 :
  lineAt doc p = Some l1 -> lineAt doc q = Some l2 -> p <= q ->
  number l1 <= number l2.
Proof.
  unfold lineAt. destruct (p <? 0), (q <? 0); try discriminate.
  apply lineAt_scan_mono.
Qed.

Lemma line_bounds doc n l :
  line doc n = Some l ->
  1 <= n /\ number l = n
  /\ 0 <= line_from l /\ line_from l <= line_to l
  /\ line_to l <= doc_length doc.
Proof.
  unfold line. destruct (n <? 1); [discriminate|].
  intros H. apply line_scan_bounds in H. rewrite doc_length_size. lia.
Qed.

Lemma line_mono doc n n' l l' :
  line doc n = Some l -> line doc n' = Some l' -> n < n' ->
  line_to l < line_from l'.
Proof.
  unfold line. destruct (n <? 1), (n' <? 1); try discriminate.
  apply line_scan_mono.
Qed.

(** ** The loop *)

Lemma pushRange_cases doc minSize s e ranges :
  pushRange doc minSize s e ranges = Some ranges
  \/ exists ls le,
       1 <= s /\ s <= e /\ e <= doc_lines doc /\ minSize <= e - s + 1
       /\ line doc s = Some ls /\ line doc e = Some le
       /\ pushRange doc minSize s e ranges
          = Some (ranges ++ [mkFoldRange (line_from ls) (line_to le)
                               (e - s + 1)]).
Proof.
  unfold pushRange.
  destruct ((minSize <=? e - s + 1) && (1 <=? s) && (e <=? doc_lines doc)
            && (s <=? e)) eqn:E; [right|now left].
  apply andb_prop in E. destruct E as [E E4].
  apply andb_prop in E. destruct E as [E E3].
  apply andb_prop in E. destruct E as [E1 E2].
  apply Z.leb_le in E1, E2, E3, E4.
  destruct (line_defined doc s) as (ls & Hls & _); [lia|].
  destruct (line_defined doc e) as (le & Hle & _); [lia|].
  exists ls, le. rewrite Hls, Hle. repeat split; assumption.
Qed.

(** A range of whole lines [s..e] of the document, at least [minSize] of
    them. *)
Definition whole_lines (doc : Text) (minSize : Z) (r : FoldRange) : Prop :=
  exists s e ls le,
    1 <= s /\ s <= e /\ e <= doc_lines doc
    /\ line doc s = Some ls /\ line doc e = Some le
    /\ from r = line_from ls /\ to r = line_to le
    /\ lines r = e - s + 1 /\ minSize <= lines r
    /\ 0 <= from r /\ from r <= to r /\ to r <= doc_length doc.

Lemma pushRange_whole_lines doc minSize s e ranges out :
  Forall (whole_lines doc minSize) ranges ->
  pushRange doc minSize s e ranges = Some out ->
  Forall (whole_lines doc minSize) out.
Proof.
  intros Hr.
  destruct (pushRange_cases doc minSize s e ranges)
    as [E|(ls & le & H1 & H2 & H3 & H4 & Hls & Hle & E)];
    rewrite E; intros [= <-]; [exact Hr|].
  apply Forall_app. split; [exact Hr|]. constructor; [|constructor].
  exists s, e, ls, le. cbn.
  pose proof (line_bounds _ _ _ Hls). pose proof (line_bounds _ _ _ Hle).
  assert (line_from ls <= line_to le).
  { destruct (Z.eq_dec s e) as [->|Hne].
    - rewrite Hls in Hle. injection Hle as <-. lia.
    - pose proof (line_mono _ _ _ _ _ Hls Hle ltac:(lia)). lia. }
  repeat split; try assumption; lia.
Qed.

Lemma rangesLoop_whole_lines doc side margin minSize rest :
  forall i prevEndLine ranges out,
    Forall (whole_lines doc minSize) ranges ->
    rangesLoop doc side margin minSize i rest prevEndLine ranges = Some out ->
    Forall (whole_lines doc minSize) out.
Proof.
  induction rest as [|c rest IH]; intros i prev ranges out Hr;
    cbn [rangesLoop].
  - now apply pushRange_whole_lines.
  - destruct (lineAt doc (chunkStart side c)) as [l|];
      cbn [mbind option_bind]; [|discriminate].
    destruct (pushRange doc minSize _ _ ranges) as [ranges'|] eqn:E;
      cbn [mbind option_bind]; [|discriminate].
    destruct (lineAt doc (Z.min (doc_length doc) (chunkEnd side c))) as [l'|];
      cbn [mbind option_bind]; [|discriminate].
    apply IH. eapply pushRange_whole_lines; eassumption.
Qed.

Lemma pushRange_defined doc minSize s e ranges :
  is_Some (pushRange doc minSize s e ranges).
Proof.
  destruct (pushRange_cases doc minSize s e ranges)
    as [E|(ls & le & _ & _ & _ & _ & _ & _ & E)]; rewrite E; eauto.
Qed.

Lemma rangesLoop_defined doc side margin minSize rest :
  forall i prevEndLine ranges,
    is_Some (rangesLoop doc side margin minSize i rest prevEndLine ranges)
    <-> Forall (fun c => 0 <= chunkStart side c <= doc_length doc
                         /\ 0 <= chunkEnd side c) rest.
Proof.
  induction rest as [|c rest IH]; intros i prev ranges; cbn [rangesLoop].
  - split; [constructor|]. intros _. apply pushRange_defined.
  - pose proof (lineAt_defined doc (chunkStart side c)) as Hs.
    pose proof (lineAt_defined doc (Z.min (doc_length doc) (chunkEnd side c)))
      as He.
    pose proof (doc_length_nonneg doc) as Hlen.
    rewrite List.Forall_cons_iff.
    destruct (lineAt doc (chunkStart side c)) as [l|];
      cbn [mbind option_bind].
    2:{ split; [intros [? ?]; discriminate|].
        intros [[H _] _]. apply Hs in H. destruct H; discriminate. }
    destruct (pushRange_defined doc minSize
                (if i =? 0 then 1 else prev + 1 + margin)
                (number l - 1 - margin) ranges) as [ranges' E].
    rewrite E. cbn [mbind option_bind].
    destruct (lineAt doc (Z.min (doc_length doc) (chunkEnd side c))) as [l'|];
      cbn [mbind option_bind].
    2:{ split; [intros [? ?]; discriminate|].
        intros [[_ H] _].
        assert (H' : 0 <= Z.min (doc_length doc) (chunkEnd side c)
                     <= doc_length doc) by lia.
        apply He in H'. destruct H'; discriminate. }
    rewrite IH.
    assert (H1 : 0 <= chunkStart side c <= doc_length doc) by (apply Hs; eauto).
    assert (H2 : 0 <= Z.min (doc_length doc) (chunkEnd side c)
                 <= doc_length doc) by (apply He; eauto).
    split; [intros H; split; [lia|exact H]|tauto].
Qed.

(** X8.  [computeUnchangedRanges] returns -- [doc.lineAt] does not throw
    and [doc.line] never does -- exactly when every block starts at an
    offset in [0 .. doc.length] and ends at an offset [>= 0], whatever
    [margin] and [minSize] are. *)
Theorem computeUnchangedRanges_returns (doc : Text) (chunks : list Chunk)
    (side : Side) (margin minSize : Z) :
  is_Some (computeUnchangedRanges doc chunks side margin minSize)
  <-> Forall (fun c => 0 <= chunkStart side c <= doc_length doc
                       /\ 0 <= chunkEnd side c) chunks.
Proof. apply rangesLoop_defined. Qed.

(** X9.  Whatever blocks, margin and minimum it is given, every range
    [computeUnchangedRanges] returns is a span of whole lines [s..e] of the
    document: [from] is the start of line [s], [to] the end of line [e],
    [1 <= s <= e <= doc.lines], [lines = e - s + 1 >= minSize], and
    [0 <= from <= to <= doc.length]. *)
Theorem computeUnchangedRanges_whole_lines (doc : Text) (chunks : list Chunk)
    (side : Side) (margin minSize : Z) (rs : list FoldRange) :
  computeUnchangedRanges doc chunks side margin minSize = Some rs ->
  Forall (whole_lines doc minSize) rs.
Proof. apply rangesLoop_whole_lines. constructor. Qed.

(** The two ranges of the twenty-line example. *)
Lemma computeUnchangedRanges_whole_lines_witness :
  Forall (whole_lines doc20 4) [mkFoldRange 0 15 8; mkFoldRange 28 39 6].
Proof.
  apply (computeUnchangedRanges_whole_lines doc20 chunks20 SideA 2 4).
  vm_compute. reflexivity.
Defined.

(** ** Ranges and blocks *)

(** The lines that hold the start offset and the (clamped) end offset of
    each block. *)
Fixpoint chunk_lines (doc : Text) (side : Side) (chunks : list Chunk)
  : option (list (Z * Z)) :=
  match chunks with
  | [] => Some []
  | c :: rest =>
      s ← lineAt doc (chunkStart side c);
      e ← lineAt doc (Z.min (doc_length doc) (chunkEnd side c));
      ps ← chunk_lines doc side rest;
      Some ((number s, number e) :: ps)
  end.

(** The gaps, from the lines of the blocks. *)
Fixpoint line_gaps (last lo : Z) (after : bool) (ps : list (Z * Z))
  : list Gap :=
  match ps with
  | [] => [mkGap lo last after false]
  | p :: ps' => mkGap lo (fst p - 1) after true
                :: line_gaps last (snd p + 1) true ps'
  end.

Lemma gaps_from_lines doc side chunks : forall lo after,
  gaps_from doc side lo after chunks =
  (ps ← chunk_lines doc side chunks;
   Some (line_gaps (doc_lines doc) lo after ps)).
Proof.
  induction chunks as [|c rest IH]; intros lo after;
    cbn [gaps_from chunk_lines]; [reflexivity|].
  destruct (lineAt doc (chunkStart side c)) as [ls|];
    cbn [mbind option_bind]; [|reflexivity].
  destruct (lineAt doc (Z.min (doc_length doc) (chunkEnd side c))) as [le|];
    cbn [mbind option_bind]; [|reflexivity].
  rewrite IH. destruct (chunk_lines doc side rest); reflexivity.
Qed.

(** The lines [s..e] a gap gives a range for, if any. *)
Definition gap_span (margin minSize : Z) (g : Gap) : list (Z * Z) :=
  if (minSize <=? gap_end margin g - gap_start margin g + 1)
     && (gap_start margin g <=? gap_end margin g)
  then [(gap_start margin g, gap_end margin g)]
  else [].

Definition span_range (doc : Text) (se : Z * Z) : FoldRange :=
  mkFoldRange (line_start doc (fst se)) (line_end doc (snd se))
    (snd se - fst se + 1).

Lemma flat_map_gap_range doc margin minSize gs :
  flat_map (gap_range doc margin minSize) gs
  = map (span_range doc) (flat_map (gap_span margin minSize) gs).
Proof.
  induction gs as [|g gs IH]; cbn [flat_map map]; [reflexivity|].
  rewrite map_app, IH. f_equal.
  unfold gap_range, range_of, gap_span.
  now destruct ((minSize <=? _) && _).
Qed.

Definition flat_pairs (ps : list (Z * Z)) : list Z :=
  flat_map (fun p => [fst p; snd p]) ps.

(** Blocks in order: each starts at or before its end, and at or after the
    end of the block before it. *)
Definition chunks_ordered (side : Side) (chunks : list Chunk) : Prop :=
  StronglySorted Z.le
    (flat_map (fun c => [chunkStart side c; chunkEnd side c]) chunks).

Lemma line_gaps_spans margin minSize last ps :
  0 <= margin ->
  forall lo after,
    StronglySorted Z.le (flat_pairs ps) ->
    Forall (fun x => lo - 1 <= x <= last) (flat_pairs ps) ->
    let sp := flat_map (gap_span margin minSize) (line_gaps last lo after ps) in
    Forall (fun se => lo <= fst se /\ fst se <= snd se /\ snd se <= last) sp
    /\ StronglySorted (fun x y => snd x < fst y) sp
    /\ Forall (fun p => Forall (fun se => snd se < fst p \/ snd p < fst se) sp)
              ps.
Proof.
  intros HM. induction ps as [|[a b] ps IH]; intros lo after Hs Hb.
  - cbn. unfold gap_span, gap_start, gap_end. cbn.
    destruct ((minSize <=? _) && _) eqn:E; cbn.
    + apply andb_prop in E. destruct E as [_ E]. apply Z.leb_le in E.
      repeat constructor; cbn; destruct after; lia.
    + repeat constructor.
  - cbn [flat_pairs flat_map app fst snd] in Hs, Hb.
    fold (flat_pairs ps) in Hs, Hb.
    apply StronglySorted_inv in Hs. destruct Hs as [Hs Ha].
    apply StronglySorted_inv in Hs. destruct Hs as [Hs Hb'].
    inversion Ha as [|? ? Hab Ha']; subst.
    inversion Hb as [|? ? Hba Hb1]; subst.
    inversion Hb1 as [|? ? Hbb Hb2]; subst.
    destruct (IH (b + 1) true Hs) as (I1 & I2 & I3).
    { rewrite List.Forall_forall in *. intros x Hx.
      specialize (Hb' x Hx). specialize (Hb2 x Hx). lia. }
    cbn [line_gaps flat_map fst snd]. cbn zeta in *.
    set (sp' := flat_map (gap_span margin minSize)
                  (line_gaps last (b + 1) true ps)) in *.
    assert (Hlater : Forall (fun se => b + 1 <= fst se) sp')
      by (eapply List.Forall_impl; [|exact I1]; cbn; intros se ?; lia).
    assert (Hwithin : Forall (fun se => lo <= fst se /\ fst se <= snd se
                                        /\ snd se <= last) sp')
      by (eapply List.Forall_impl; [|exact I1]; cbn; intros se ?; lia).
    assert (Hhd : gap_span margin minSize (mkGap lo (a - 1) after true) = []
                  \/ exists s e,
                       gap_span margin minSize (mkGap lo (a - 1) after true)
                       = [(s, e)]
                       /\ lo <= s /\ s <= e /\ e <= a - 1 - margin).
    { unfold gap_span, gap_start, gap_end.
      cbn [after_block before_block gap_first gap_last].
      destruct ((minSize <=? _) && _) eqn:E; [right|now left].
      apply andb_prop in E. destruct E as [_ E]. apply Z.leb_le in E.
      eexists _, _. split; [reflexivity|]. destruct after; lia. }
    destruct Hhd as [->|(s & e & -> & H1 & H2 & H3)]; cbn [app].
    + split; [exact Hwithin|]. split; [exact I2|].
      constructor; [|exact I3].
      eapply List.Forall_impl; [|exact Hlater]. cbn. intros se ?. lia.
    + split; [|split].
      * constructor; [cbn; lia|exact Hwithin].
      * constructor; [exact I2|].
        eapply List.Forall_impl; [|exact Hlater]. cbn. intros se ?. lia.
      * constructor.
        -- constructor; [cbn; left; lia|].
           eapply List.Forall_impl; [|exact Hlater]. cbn. intros se ?. lia.
        -- rewrite List.Forall_forall in *. intros p Hp.
           constructor; [|now apply I3].
           cbn. left.
           assert (a <= fst p).
           { apply Ha'. unfold flat_pairs. apply in_flat_map.
             exists p. split; [exact Hp|now left]. }
           lia.
Qed.

Definition chunk_offsets (side : Side) (chunks : list Chunk) : list Z :=
  flat_map (fun c => [chunkStart side c; chunkEnd side c]) chunks.

Lemma chunk_lines_lb doc side chunks : forall ps p0 l0,
  chunk_lines doc side chunks = Some ps ->
  lineAt doc p0 = Some l0 ->
  Forall (fun x => p0 <= x) (chunk_offsets side chunks) ->
  Forall (fun x => number l0 <= x) (flat_pairs ps).
Proof.
  induction chunks as [|c rest IH]; intros ps p0 l0; cbn [chunk_lines].
  - intros [= <-] _ _. constructor.
  - destruct (lineAt doc (chunkStart side c)) as [ls|] eqn:Es;
      cbn [mbind option_bind]; [|discriminate].
    destruct (lineAt doc (Z.min (doc_length doc) (chunkEnd side c)))
      as [le|] eqn:Ee; cbn [mbind option_bind]; [|discriminate].
    destruct (chunk_lines doc side rest) as [ps'|] eqn:Ec;
      cbn [mbind option_bind]; [|discriminate].
    intros [= <-] H0 HF. cbn [chunk_offsets flat_map app] in HF.
    inversion HF as [|? ? H1 HF1]; subst.
    inversion HF1 as [|? ? H2 HF2]; subst.
    assert (Hp0 : 0 <= p0 <= doc_length doc) by (apply lineAt_defined; eauto).
    cbn [flat_pairs flat_map app fst snd].
    constructor; [exact (lineAt_mono _ _ _ _ _ H0 Es H1)|].
    constructor; [apply (lineAt_mono _ _ _ _ _ H0 Ee); lia|].
    now apply (IH ps' p0 l0).
Qed.

Lemma chunk_lines_sorted doc side chunks : forall ps,
  chunk_lines doc side chunks = Some ps -> chunks_ordered side chunks ->
  StronglySorted Z.le (flat_pairs ps)
  /\ Forall (fun x => 1 - 1 <= x <= doc_lines doc) (flat_pairs ps).
Proof.
  unfold chunks_ordered. fold (chunk_offsets side chunks).
  induction chunks as [|c rest IH]; intros ps; cbn [chunk_lines].
  - intros [= <-] _. split; constructor.
  - destruct (lineAt doc (chunkStart side c)) as [ls|] eqn:Es;
      cbn [mbind option_bind]; [|discriminate].
    destruct (lineAt doc (Z.min (doc_length doc) (chunkEnd side c)))
      as [le|] eqn:Ee; cbn [mbind option_bind]; [|discriminate].
    destruct (chunk_lines doc side rest) as [ps'|] eqn:Ec;
      cbn [mbind option_bind]; [|discriminate].
    intros [= <-] Ho. cbn [chunk_offsets flat_map app] in Ho.
    fold (chunk_offsets side rest) in Ho.
    apply StronglySorted_inv in Ho. destruct Ho as [Ho Hs].
    apply StronglySorted_inv in Ho. destruct Ho as [Ho He].
    inversion Hs as [|? ? Hse Hs']; subst.
    destruct (IH ps' eq_refl Ho) as [I1 I2].
    assert (Hp : 0 <= chunkStart side c <= doc_length doc)
      by (apply lineAt_defined; eauto).
    pose proof (lineAt_number _ _ _ Es). pose proof (lineAt_number _ _ _ Ee).
    cbn [flat_pairs flat_map app fst snd]. fold (flat_pairs ps').
    split.
    + constructor; [constructor; [exact I1|]|].
      * apply (chunk_lines_lb doc side rest ps' _ le Ec Ee).
        eapply List.Forall_impl; [|exact He]. cbn. intros x ?. lia.
      * constructor; [apply (lineAt_mono _ _ _ _ _ Es Ee); lia|].
        now apply (chunk_lines_lb doc side rest ps' _ ls Ec Es).
    + constructor; [lia|]. constructor; [lia|exact I2].
Qed.

Lemma chunk_lines_In doc side chunks : forall ps c,
  chunk_lines doc side chunks = Some ps -> In c chunks ->
  exists ls le,
    lineAt doc (chunkStart side c) = Some ls
    /\ lineAt doc (Z.min (doc_length doc) (chunkEnd side c)) = Some le
    /\ In (number ls, number le) ps.
Proof.
  induction chunks as [|c0 rest IH]; intros ps c; cbn [chunk_lines];
    [intros _ []|].
  destruct (lineAt doc (chunkStart side c0)) as [ls|] eqn:Es;
    cbn [mbind option_bind]; [|discriminate].
  destruct (lineAt doc (Z.min (doc_length doc) (chunkEnd side c0)))
    as [le|] eqn:Ee; cbn [mbind option_bind]; [|discriminate].
  destruct (chunk_lines doc side rest) as [ps'|] eqn:Ec;
    cbn [mbind option_bind]; [|discriminate].
  intros [= <-] [<-|Hin].
  - exists ls, le. repeat split; try assumption. now left.
  - destruct (IH ps' c eq_refl Hin) as (ls' & le' & ? & ? & ?).
    exists ls', le'. repeat split; try assumption. now right.
Qed.

Lemma line_end_lt_start doc e s :
  1 <= e -> e < s -> s <= doc_lines doc ->
  line_end doc e < line_start doc s.
Proof.
  intros He Hes Hs.
  destruct (line_defined doc e) as (le & Hle & _); [lia|].
  destruct (line_defined doc s) as (ls & Hls & _); [lia|].
  unfold line_end, line_start. rewrite Hle, Hls. cbn.
  exact (line_mono _ _ _ _ _ Hle Hls Hes).
Qed.

Lemma spans_sorted_ranges doc sp :
  Forall (fun se => 1 <= fst se /\ fst se <= snd se
                    /\ snd se <= doc_lines doc) sp ->
  StronglySorted (fun x y => snd x < fst y) sp ->
  StronglySorted (fun r1 r2 => to r1 < from r2) (map (span_range doc) sp).
Proof.
  intros Hb Hs. induction Hs as [|x sp Hs IH Hx]; cbn [map]; [constructor|].
  inversion Hb as [|? ? Hbx Hb']; subst.
  constructor; [now apply IH|].
  rewrite List.Forall_forall in *. intros r Hr.
  apply in_map_iff in Hr. destruct Hr as (y & <- & Hy).
  specialize (Hx y Hy). specialize (Hb' y Hy). cbn.
  apply line_end_lt_start; lia.
Qed.

(** With a margin [>= 0] and blocks in order, the ranges are the ranges of
    spans of lines that are in order, apart from each other and apart from
    the lines of the blocks. *)
Lemma computeUnchangedRanges_spans doc chunks side margin minSize rs :
  0 <= margin -> chunks_ordered side chunks ->
  computeUnchangedRanges doc chunks side margin minSize = Some rs ->
  exists ps sp,
    chunk_lines doc side chunks = Some ps
    /\ rs = map (span_range doc) sp
    /\ Forall (fun se => 1 <= fst se /\ fst se <= snd se
                         /\ snd se <= doc_lines doc) sp
    /\ StronglySorted (fun x y => snd x < fst y) sp
    /\ Forall (fun p => Forall (fun se => snd se < fst p \/ snd p < fst se) sp)
              ps.
Proof.
  intros HM Ho. unfold computeUnchangedRanges.
  rewrite (rangesLoop_gaps doc side margin minSize chunks HM 0 0 [] 1 false)
    by (lia || reflexivity).
  rewrite gaps_from_lines.
  destruct (chunk_lines doc side chunks) as [ps|] eqn:Ec;
    cbn [mbind option_bind]; [|discriminate].
  intros [= <-]. cbn [app]. rewrite flat_map_gap_range.
  destruct (chunk_lines_sorted doc side chunks ps Ec Ho) as [Hs Hb].
  destruct (line_gaps_spans margin minSize (doc_lines doc) ps HM 1 false Hs Hb)
    as (S1 & S2 & S3).
  eexists ps, _. split; [reflexivity|]. split; [reflexivity|].
  split; [|split; assumption].
  eapply List.Forall_impl; [|exact S1]. cbn. intros se ?. lia.
Qed.

(** X10.  With a margin [>= 0] and blocks in order, the ranges
    [computeUnchangedRanges] returns are in order and apart -- each ends
    before the next one starts -- and none of them touches a block: a range
    ends before the start offset of a block or starts after its end offset
    (clamped to the document). *)
Theorem computeUnchangedRanges_ordered (doc : Text) (chunks : list Chunk)
    (side : Side) (margin minSize : Z) (rs : list FoldRange) :
  0 <= margin -> chunks_ordered side chunks ->
  computeUnchangedRanges doc chunks side margin minSize = Some rs ->
  StronglySorted (fun r1 r2 => to r1 < from r2) rs
  /\ Forall (fun c =>
       Forall (fun r => to r < chunkStart side c
                        \/ Z.min (doc_length doc) (chunkEnd side c) < from r)
              rs) chunks.
Proof.
  intros HM Ho E.
  destruct (computeUnchangedRanges_spans _ _ _ _ _ _ HM Ho E)
    as (ps & sp & Ec & -> & S1 & S2 & S3).
  split; [now apply spans_sorted_ranges|].
  apply List.Forall_forall. intros c Hc.
  destruct (chunk_lines_In doc side chunks ps c Ec Hc)
    as (ls & le & Es & Ee & Hin).
  rewrite List.Forall_forall in S3. specialize (S3 _ Hin).
  cbn [fst snd] in S3.
  rewrite List.Forall_forall in *. intros r Hr.
  apply in_map_iff in Hr. destruct Hr as (se & <- & Hse).
  specialize (S1 se Hse). specialize (S3 se Hse). cbn.
  pose proof (lineAt_number _ _ _ Es). pose proof (lineAt_number _ _ _ Ee).
  destruct (lineAt_line _ _ _ Es) as [Ls Hps].
  destruct (lineAt_line _ _ _ Ee) as [Le Hpe].
  destruct S3 as [Hlt|Hlt]; [left|right].
  - pose proof (line_end_lt_start doc (snd se) (number ls)
                  ltac:(lia) Hlt ltac:(lia)) as H'.
    unfold line_start in H'. rewrite Ls in H'. cbn in H'. lia.
  - pose proof (line_end_lt_start doc (number le) (fst se)
                  ltac:(lia) Hlt ltac:(lia)) as H'.
    unfold line_end in H'. rewrite Le in H'. cbn in H'. lia.
Qed.

(** The twenty-line example: lines 1..8 and 15..20 are folded, the block
    is at offsets 20..23 on lines 11 and 12. *)
Lemma computeUnchangedRanges_ordered_witness :
  StronglySorted (fun r1 r2 => to r1 < from r2)
    [mkFoldRange 0 15 8; mkFoldRange 28 39 6]
  /\ Forall (fun c =>
       Forall (fun r => to r < chunkStart SideA c
                        \/ Z.min (doc_length doc20) (chunkEnd SideA c) < from r)
              [mkFoldRange 0 15 8; mkFoldRange 28 39 6]) chunks20.
Proof.
  apply (computeUnchangedRanges_ordered doc20 chunks20 SideA 2 4).
  - lia.
  - unfold chunks_ordered. cbn. repeat constructor; lia.
  - vm_compute. reflexivity.
Defined.

End FoldUnchangedMore.

(** * More about the file watcher *)

Section FileWatcherMore.
Import FileWatcher.
Local Open Scope Z_scope.

(** ** What one [handleModify] does *)

(** X11.  A call of [handleModify] either reports or writes the snapshot,
    never both.  It never touches the settings, the markers or the timers
    and never takes a path out of the pending set.  When it makes no
    report, the pending set is as before and the watcher is unchanged or
    has the content read as the snapshot of the path.  When it reports, it
    reports once, detection is on, the old content of the report is the
    snapshot the path had and still has, it differs from the content read,
    the path is pending afterwards, and the path was pending before or had
    no live marker and no editor showing the content. *)
Theorem handleModify_report_or_snapshot (file : TAbstractFile)
    (content : string) (views : list MarkdownView) (w : Watcher) :
  let '(w', reports) := handleModify file content views w in
  settings w' = settings w
  /\ recentlyEditedInternally w' = recentlyEditedInternally w
  /\ debounceTimers w' = debounceTimers w
  /\ pendingExternalPaths w ⊆ pendingExternalPaths w'
  /\ ((reports = []
       /\ pendingExternalPaths w' = pendingExternalPaths w
       /\ (w' = w
           \/ w' = set_snapshot (path file) content w
              /\ snapshots w' !! path file = Some content))
      \/ (exists old,
             reports = [mkReport (path file) old content]
             /\ enabled (settings w) = true
             /\ snapshots w !! path file = Some old
             /\ snapshots w' = snapshots w
             /\ old <> content
             /\ (path file ∈ pendingExternalPaths w')
             /\ (path file ∈ pendingExternalPaths w
                 \/ (path file ∉ recentlyEditedInternally w)
                    /\ editorHasContent (path file) content views = false))).
Proof.
  assert (Hset : forall p, snapshots (set_snapshot p content w) !! p
                           = Some content)
    by (intros p; cbn; apply lookup_insert_eq).
  unfold handleModify. destruct file as [p ext|p]; cbn [path].
  2:{ repeat split; try reflexivity. left. auto. }
  destruct (negb (bool_decide (ext = "md"%string)));
    [repeat split; try reflexivity; left; auto|].
  destruct (enabled (settings w)) eqn:He; cbn [negb];
    [|repeat split; try reflexivity; left; auto].
  unfold handleModify_resume.
  destruct (snapshots w !! p) as [old|] eqn:Hs.
  2:{ repeat split; try reflexivity. left. auto. }
  case_bool_decide as Hoc; [repeat split; try reflexivity; left; auto|].
  case_bool_decide as Hp.
  { repeat split; try reflexivity. right. exists old. repeat split; auto. }
  case_bool_decide as Hr; [repeat split; try reflexivity; left; auto|].
  destruct (editorHasContent p content views) eqn:Hv;
    [repeat split; try reflexivity; left; auto|].
  cbn. repeat split; try reflexivity; [apply union_subseteq_r|].
  right. exists old. repeat split; auto.
  apply elem_of_union_l, elem_of_singleton. reflexivity.
Qed.

(** ** Handles and timeouts *)

(** Every stored handle is armed, for the path it is stored under. *)
Definition timers_armed (w : Watcher) (h : Host) : Prop :=
  forall p id, debounceTimers w !! p = Some id ->
               exists due, timeouts h !! id = Some (p, due).

Lemma handleModify_frame file content views w :
  settings (fst (handleModify file content views w)) = settings w
  /\ recentlyEditedInternally (fst (handleModify file content views w))
     = recentlyEditedInternally w
  /\ debounceTimers (fst (handleModify file content views w))
     = debounceTimers w.
Proof.
  unfold handleModify, handleModify_resume.
  destruct file as [p ext|p]; [|auto].
  repeat (match goal with
          | |- context [if ?b then _ else _] => destruct b
          | |- context [match ?o with Some _ => _ | None => _ end] => destruct o
          end); auto.
Qed.

Lemma timers_armed_mark p w h :
  timers_inv w h -> timers_armed w h ->
  timers_armed (fst (markAsInternalEdit p (w, h)))
               (snd (markAsInternalEdit p (w, h))).
Proof.
  intros [H1 H2] Ha. rewrite markAsInternalEdit_eq. cbn [fst snd].
  intros q id. cbn [debounceTimers timeouts].
  destruct (decide (p = q)) as [->|Hne].
  - rewrite lookup_insert_eq. intros [= <-]. rewrite lookup_insert_eq. eauto.
  - rewrite lookup_insert_ne by exact Hne. intros Hq.
    pose proof (H2 _ _ Hq) as Hlt. destruct (Ha _ _ Hq) as [due Hdue].
    exists due. rewrite lookup_insert_ne by lia.
    destruct (debounceTimers w !! p) as [old|] eqn:Eo; [|exact Hdue].
    rewrite lookup_delete_ne; [exact Hdue|].
    intros ->. destruct (Ha _ _ Eo) as [due' Hdue']. congruence.
Qed.

Lemma timers_armed_fire id w h w' h' :
  timers_inv w h -> timers_armed w h ->
  fireTimeout id (w, h) = Some (w', h') -> timers_armed w' h'.
Proof.
  intros [H1 H2] Ha. unfold fireTimeout.
  destruct (timeouts h !! id) as [[p due]|] eqn:E; [|discriminate].
  destruct (due <=? now h); [|discriminate]. intros [= <- <-].
  intros q id'. cbn. intros Hq. apply lookup_delete_Some in Hq.
  destruct Hq as [Hne Hq]. destruct (Ha _ _ Hq) as [due' Hdue'].
  exists due'. rewrite lookup_delete_ne; [exact Hdue'|].
  intros ->. congruence.
Qed.

Lemma timers_armed_step s ev :
  timers_inv (watcher s) (host s) -> timers_armed (watcher s) (host s) ->
  timers_armed (watcher (step s ev)) (host (step s ev)).
Proof.
  intros Hinv Ha. destruct ev; cbn [step].
  - destruct (handleModify_frame file content views (watcher s))
      as (_ & _ & Ht).
    destruct (handleModify file content views (watcher s)) as [w' r].
    cbn [fst watcher host] in *. intros q id Hq. rewrite Ht in Hq.
    now apply Ha.
  - unfold handleCreate. destruct file as [p ext|p]; [|exact Ha].
    destruct (negb _); exact Ha.
  - destruct file; exact Ha.
  - destruct file; exact Ha.
  - exact Ha.
  - pose proof (timers_armed_mark p _ _ Hinv Ha) as H.
    destruct (markAsInternalEdit p (watcher s, host s)). exact H.
  - cbn. intros p id. cbn. rewrite lookup_empty. discriminate.
  - destruct (fireTimeout id (watcher s, host s)) as [[w' h']|] eqn:E;
      [|exact Ha].
    cbn. eapply timers_armed_fire; [exact Hinv|exact Ha|exact E].
  - exact Ha.
  - exact Ha.
  - exact Ha.
Qed.

Lemma timers_armed_run evs : forall s,
  timers_inv (watcher s) (host s) -> timers_armed (watcher s) (host s) ->
  timers_armed (watcher (run evs s)) (host (run evs s)).
Proof.
  induction evs as [|ev evs IH]; intros s Hi Ha; [exact Ha|].
  cbn [run fold_left]. apply IH.
  - now apply timers_inv_step.
  - now apply timers_armed_step.
Qed.

Lemma timers_armed_reachable evs st :
  timers_armed (watcher (run evs (initial st))) (host (run evs (initial st))).
Proof.
  apply timers_armed_run.
  - split; cbn; intros *; rewrite lookup_empty; discriminate.
  - intros p id. cbn. rewrite lookup_empty. discriminate.
Qed.

(** X12.  In every state the watcher can reach, the handles it stores and
    the timeouts that are armed are the same: [debounceTimers] maps a path
    to a handle exactly when the timeout of that handle is armed with the
    callback for that path -- no stored handle is of a timeout that fired
    or was cleared, and no armed timeout has been forgotten. *)
Theorem debounceTimers_armed (evs : list Event) (st : ExternalDiffSettings)
    (p : string) (id : positive) :
  let s := run evs (initial st) in
  debounceTimers (watcher s) !! p = Some id
  <-> exists due, timeouts (host s) !! id = Some (p, due).
Proof.
  intros s. split.
  - apply (timers_armed_reachable evs st).
  - intros [due H]. now apply (timers_inv_reachable evs st) in H.
Qed.

(** ** Markers and renames *)

(** A rename of a file, the one event that moves a marker. *)
Definition is_file_rename (ev : Event) : bool :=
  match ev with Rename (TFile _ _) _ => true | _ => false end.

Definition markers_timed (w : Watcher) : Prop :=
  forall p, p ∈ recentlyEditedInternally w -> is_Some (debounceTimers w !! p).

Lemma markers_timed_step s ev :
  is_file_rename ev = false ->
  timers_inv (watcher s) (host s) ->
  markers_timed (watcher s) -> markers_timed (watcher (step s ev)).
Proof.
  intros Hev Hinv Hm. destruct ev; cbn [step].
  - destruct (handleModify_frame file content views (watcher s))
      as (_ & Hr & Ht).
    destruct (handleModify file content views (watcher s)) as [w' r].
    cbn [fst watcher host] in *. intros q Hq. rewrite Ht.
    rewrite Hr in Hq. now apply Hm.
  - unfold handleCreate. destruct file as [p ext|p]; [|exact Hm].
    destruct (negb _); exact Hm.
  - destruct file as [p ext|p]; [|exact Hm].
    intros q. cbn. rewrite elem_of_difference. intros [Hq _]. now apply Hm.
  - destruct file; [discriminate|exact Hm].
  - exact Hm.
  - pose proof (markAsInternalEdit_eq p (watcher s) (host s)) as E.
    destruct (markAsInternalEdit p (watcher s, host s)) as [w' h'].
    injection E as -> ->. intros q. cbn.
    destruct (decide (p = q)) as [->|Hne].
    + rewrite lookup_insert_eq. eauto.
    + rewrite lookup_insert_ne by exact Hne.
      rewrite elem_of_union, elem_of_singleton.
      intros [?|Hq]; [congruence|now apply Hm].
  - cbn. intros q. cbn. intros Hq. now apply elem_of_empty in Hq.
  - unfold fireTimeout.
    destruct (timeouts (host s) !! id) as [[p due]|] eqn:E; [|exact Hm].
    destruct (due <=? now (host s)); [|exact Hm].
    cbn. intros q. cbn. rewrite elem_of_difference, elem_of_singleton.
    intros [Hq Hne]. rewrite lookup_delete_ne by congruence. now apply Hm.
  - exact Hm.
  - exact Hm.
  - exact Hm.
Qed.

Lemma markers_timed_run evs : forall s,
  forallb (fun ev => negb (is_file_rename ev)) evs = true ->
  timers_inv (watcher s) (host s) ->
  markers_timed (watcher s) -> markers_timed (watcher (run evs s)).
Proof.
  induction evs as [|ev evs IH]; intros s Hevs Hi Hm; [exact Hm|].
  cbn [forallb] in Hevs. apply andb_prop in Hevs. destruct Hevs as [Hev Hevs].
  apply negb_true_iff in Hev.
  cbn [run fold_left]. apply IH; [exact Hevs| |].
  - now apply timers_inv_step.
  - now apply markers_timed_step.
Qed.

(** X13.  As long as no file is renamed, every marker has its timeout: in
    every state reached without a rename of a file, a path in
    [recentlyEditedInternally] has a handle in [debounceTimers], and the
    timeout of that handle is armed with the callback that removes the
    marker of that path. *)
Theorem marker_has_timeout (evs : list Event) (st : ExternalDiffSettings)
    (p : string) :
  forallb (fun ev => negb (is_file_rename ev)) evs = true ->
  let s := run evs (initial st) in
  p ∈ recentlyEditedInternally (watcher s) ->
  exists id due,
    debounceTimers (watcher s) !! p = Some id
    /\ timeouts (host s) !! id = Some (p, due).
Proof.
  intros Hevs s Hp.
  assert (Hm : markers_timed (watcher s)).
  { apply markers_timed_run; [exact Hevs| |].
    - split; cbn; intros *; rewrite lookup_empty; discriminate.
    - intros q. cbn. intros Hq. now apply elem_of_empty in Hq. }
  destruct (Hm p Hp) as [id Hid]. exists id.
  destruct (timers_armed_reachable evs st p id Hid) as [due Hdue].
  exists due. split; assumption.
Qed.

(** An edit in the editor, and half a second. *)
Lemma marker_has_timeout_witness :
  exists id due,
    debounceTimers (watcher (run [MarkAsInternalEdit a_md; Elapse 500]
                                 (initial enabled_settings))) !! a_md
    = Some id
    /\ timeouts (host (run [MarkAsInternalEdit a_md; Elapse 500]
                           (initial enabled_settings))) !! id
       = Some (a_md, due).
Proof.
  apply (marker_has_timeout [MarkAsInternalEdit a_md; Elapse 500]
           enabled_settings a_md).
  - reflexivity.
  - apply (bool_decide_unpack _). vm_compute. exact I.
Defined.






(** A note is edited in the editor and renamed; five seconds later the
    timeout armed by the edit fires.  The new path is still marked, and an
    external modification of it is not reported. *)
Definition renamed_after_edit : World :=
  run [Create (md "a.md") "S0"; MarkAsInternalEdit "a.md"]
      (initial enabled_settings).


(** ** Accumulation over a run *)

(** The events that leave the snapshot and the pending mark of [p] alone:
    all but a create, a delete or a rename of a file at [p], a rename of a
    file away from [p], [updateSnapshot(p, _)] and the teardown. *)
Definition keeps_baseline (p : string) (ev : Event) : bool :=
  match ev with
  | Create (TFile q _) _ => negb (bool_decide (q = p))
  | Delete (TFile q _) => negb (bool_decide (q = p))
  | Rename (TFile q _) oldPath =>
      negb (bool_decide (q = p)) && negb (bool_decide (oldPath = p))
  | UpdateSnapshot q _ => negb (bool_decide (q = p))
  | Destroy => false
  | _ => true
  end.

(** [p] is pending with the snapshot [old]. *)
Definition pending_with (p old : string) (w : Watcher) : Prop :=
  p ∈ pendingExternalPaths w /\ snapshots w !! p = Some old.

Lemma handleModify_resume_other q p content views w :
  q <> p ->
  snapshots (fst (handleModify_resume q content views w)) !! p
  = snapshots w !! p
  /\ (p ∈ pendingExternalPaths w ->
      p ∈ pendingExternalPaths (fst (handleModify_resume q content views w)))
  /\ Forall (fun r => report_path r = q)
            (snd (handleModify_resume q content views w)).
Proof.
  intros Hne.
  assert (Hs : snapshots (set_snapshot q content w) !! p = snapshots w !! p)
    by (cbn; now rewrite lookup_insert_ne).
  unfold handleModify_resume.
  destruct (snapshots w !! q) as [o|]; [|cbn [fst snd]; auto].
  case_bool_decide; [cbn [fst snd]; auto|].
  case_bool_decide; [cbn [fst snd]; repeat split; auto|].
  case_bool_decide; [cbn [fst snd]; auto|].
  destruct (editorHasContent q content views); [cbn [fst snd]; auto|].
  cbn. repeat split; auto. intros Hp. now apply elem_of_union_r.
Qed.

Lemma pending_with_modify p old file content views w :
  pending_with p old w ->
  pending_with p old (fst (handleModify file content views w))
  /\ Forall (fun r => report_path r = p ->
                      oldContent r = old /\ newContent r = content
                      /\ old <> content)
            (snd (handleModify file content views w)).
Proof.
  intros [Hp Hs]. unfold handleModify.
  destruct file as [q ext|q]; [|split; [split; assumption|constructor]].
  destruct (negb (bool_decide (ext = "md"%string)));
    [split; [split; assumption|constructor]|].
  destruct (negb (enabled (settings w)));
    [split; [split; assumption|constructor]|].
  destruct (decide (q = p)) as [->|Hne].
  - rewrite (handleModify_resume_pending p old) by assumption. cbn [fst snd].
    split; [split; assumption|].
    case_bool_decide; repeat constructor; auto.
  - destruct (handleModify_resume_other q p content views w Hne)
      as (H1 & H2 & H3).
    split; [split; [now apply H2|now rewrite H1]|].
    eapply List.Forall_impl; [|exact H3]. cbn. intros r Hr Hr'. congruence.
Qed.

Lemma pending_with_step p old s ev :
  keeps_baseline p ev = true ->
  pending_with p old (watcher s) ->
  pending_with p old (watcher (step s ev))
  /\ exists new,
       reported (step s ev) = reported s ++ new
       /\ Forall (fun r => report_path r = p ->
                           oldContent r = old /\ oldContent r <> newContent r)
                 new.
Proof.
  intros Hev Hpw.
  assert (Hnone : forall w, pending_with p old w ->
            pending_with p old w
            /\ exists new : list Report,
                 reported s = reported s ++ new
                 /\ Forall (fun r => report_path r = p ->
                              oldContent r = old
                              /\ oldContent r <> newContent r) new).
  { intros w Hw. split; [exact Hw|]. exists []. rewrite app_nil_r.
    split; [reflexivity|constructor]. }
  destruct Hpw as [Hp Hs].
  destruct ev; cbn [step keeps_baseline] in *.
  - destruct (pending_with_modify p old file content views (watcher s)
                (conj Hp Hs)) as [Hw Hr].
    destruct (handleModify file content views (watcher s)) as [w' r].
    cbn [fst snd watcher reported] in *. split; [exact Hw|].
    exists r. split; [reflexivity|].
    eapply List.Forall_impl; [|exact Hr]. cbn. intros x Hx Hpath.
    destruct (Hx Hpath) as (-> & -> & ?). auto.
  - cbn [watcher reported]. apply Hnone. unfold handleCreate.
    destruct file as [q ext|q]; [|now split].
    apply negb_true_iff, bool_decide_eq_false in Hev.
    destruct (negb _); [now split|].
    split; [exact Hp|]. cbn. now rewrite lookup_insert_ne.
  - cbn [watcher reported]. apply Hnone.
    destruct file as [q ext|q]; [|now split].
    apply negb_true_iff, bool_decide_eq_false in Hev.
    split; [exact Hp|]. cbn. now rewrite lookup_delete_ne.
  - cbn [watcher reported]. apply Hnone.
    destruct file as [q ext|q]; [|now split].
    apply andb_prop in Hev. destruct Hev as [H1 H2].
    apply negb_true_iff, bool_decide_eq_false in H1, H2.
    split; [exact Hp|]. cbn.
    destruct (snapshots (watcher s) !! oldPath); [|exact Hs].
    rewrite lookup_insert_ne by exact H1.
    now rewrite lookup_delete_ne.
  - cbn [watcher reported]. apply Hnone.
    apply negb_true_iff, bool_decide_eq_false in Hev.
    split; cbn; [|now rewrite lookup_insert_ne].
    rewrite elem_of_difference, elem_of_singleton. split; [exact Hp|congruence].
  - pose proof (markAsInternalEdit_eq p0 (watcher s) (host s)) as E.
    destruct (markAsInternalEdit p0 (watcher s, host s)) as [w' h'].
    injection E as -> ->. cbn [watcher reported]. apply Hnone. now split.
  - discriminate.
  - unfold fireTimeout.
    destruct (timeouts (host s) !! id) as [[q due]|]; [|now apply Hnone].
    destruct (due <=? now (host s)); [|now apply Hnone].
    cbn [watcher reported]. apply Hnone. now split.
  - cbn [watcher reported]. apply Hnone. now split.
  - cbn [watcher reported]. apply Hnone. now split.
  - cbn [watcher reported]. apply Hnone. now split.
Qed.

(** X15.  Edits accumulate against one baseline over a whole run.  From a
    state where [p] is pending with the snapshot [old], and through any
    events other than a create, delete or rename at [p], a rename away
    from [p], [updateSnapshot(p, _)] and the teardown -- modifications of
    any file, edits in the editor, timeouts, time, changes of the settings
    -- [p] stays pending, its snapshot stays [old], no report made before
    is lost, and every report made for [p] has [old] as its old content and
    a new content that differs from it. *)
Theorem pending_baseline_run (p old : string) (evs : list Event) (s : World) :
  p ∈ pendingExternalPaths (watcher s) ->
  snapshots (watcher s) !! p = Some old ->
  forallb (keeps_baseline p) evs = true ->
  (p ∈ pendingExternalPaths (watcher (run evs s)))
  /\ snapshots (watcher (run evs s)) !! p = Some old
  /\ exists new,
       reported (run evs s) = reported s ++ new
       /\ Forall (fun r => report_path r = p ->
                           oldContent r = old /\ oldContent r <> newContent r)
                 new.
Proof.
  intros Hp Hs. revert s Hp Hs.
  induction evs as [|ev evs IH]; intros s Hp Hs Hevs.
  - split; [exact Hp|]. split; [exact Hs|]. exists []. rewrite app_nil_r.
    split; [reflexivity|constructor].
  - cbn [forallb] in Hevs. apply andb_prop in Hevs.
    destruct Hevs as [Hev Hevs].
    destruct (pending_with_step p old s ev Hev (conj Hp Hs))
      as ([Hp1 Hs1] & new1 & E1 & F1).
    destruct (IH (step s ev) Hp1 Hs1 Hevs) as (Hp2 & Hs2 & new2 & E2 & F2).
    cbn [run fold_left]. split; [exact Hp2|]. split; [exact Hs2|].
    exists (new1 ++ new2). split.
    + unfold run in E2. rewrite E2, E1, <- app_assoc. reflexivity.
    + apply Forall_app. split; assumption.
Qed.

(** A pending file is modified, edited in the editor, and modified again
    with detection switched off and on: the snapshot stays ["S0"]. *)
Lemma pending_baseline_run_witness :
  snapshots
    (watcher (run [Modify (md "a.md") "S2" []; MarkAsInternalEdit "a.md";
                   SetEnabled false; Modify (md "a.md") "S3" [];
                   SetEnabled true; Modify (md "a.md") "S4" []]
                  pending_world)) !! "a.md"%string
  = Some "S0"%string.
Proof.
  apply (pending_baseline_run "a.md" "S0"
           [Modify (md "a.md") "S2" []; MarkAsInternalEdit "a.md";
            SetEnabled false; Modify (md "a.md") "S3" [];
            SetEnabled true; Modify (md "a.md") "S4" []] pending_world).
  - apply (bool_decide_unpack _). vm_compute. exact I.
  - vm_compute. reflexivity.
  - reflexivity.
Defined.

(** ** Renames *)

Lemma watcher_eq (w1 w2 : Watcher) :
  settings w1 = settings w2 -> snapshots w1 = snapshots w2 ->
  recentlyEditedInternally w1 = recentlyEditedInternally w2 ->
  pendingExternalPaths w1 = pendingExternalPaths w2 ->
  debounceTimers w1 = debounceTimers w2 -> w1 = w2.
Proof. destruct w1, w2. cbn. intros; subst; reflexivity. Qed.

(** X16.  [handleRename] moves the snapshot and the marker of the old path
    to the new one and touches nothing else -- not the pending set, not
    the timers -- and loses nothing: renaming a file from [p] to a path
    [q] that has no snapshot and no marker, and back, gives the watcher
    back as it was. *)
Theorem handleRename_back (w : Watcher) (p q ext ext' : string) :
  p <> q ->
  snapshots w !! q = None ->
  q ∉ recentlyEditedInternally w ->
  let w1 := handleRename (TFile q ext) p w in
  snapshots w1 !! q = snapshots w !! p
  /\ snapshots w1 !! p = None
  /\ (q ∈ recentlyEditedInternally w1 <-> p ∈ recentlyEditedInternally w)
  /\ (p ∉ recentlyEditedInternally w1)
  /\ pendingExternalPaths w1 = pendingExternalPaths w
  /\ debounceTimers w1 = debounceTimers w
  /\ handleRename (TFile p ext') q w1 = w.
Proof.
  intros Hne Hq Hr. cbv zeta.
  assert (Hs1 : snapshots (handleRename (TFile q ext) p w) !! q
                = snapshots w !! p).
  { cbn. destruct (snapshots w !! p) as [c|] eqn:E;
      [apply lookup_insert_eq|exact Hq]. }
  assert (Hs2 : snapshots (handleRename (TFile q ext) p w) !! p = None).
  { cbn. destruct (snapshots w !! p) as [c|] eqn:E; [|exact E].
    rewrite lookup_insert_ne by congruence. apply lookup_delete_eq. }
  assert (Hr1 : q ∈ recentlyEditedInternally (handleRename (TFile q ext) p w)
                <-> p ∈ recentlyEditedInternally w).
  { cbn. case_bool_decide as Hp.
    - rewrite elem_of_union, elem_of_singleton. tauto.
    - tauto. }
  assert (Hr2 : p ∉ recentlyEditedInternally (handleRename (TFile q ext) p w)).
  { cbn. case_bool_decide as Hp; [|exact Hp].
    rewrite elem_of_union, elem_of_difference, !elem_of_singleton.
    intros [?|[_ ?]]; congruence. }
  split; [exact Hs1|]. split; [exact Hs2|]. split; [exact Hr1|].
  split; [exact Hr2|]. split; [reflexivity|]. split; [reflexivity|].
  apply watcher_eq; try reflexivity.
  - cbn [handleRename snapshots]. cbn [handleRename snapshots] in Hs1.
    rewrite Hs1. clear Hs1 Hs2 Hr1 Hr2.
    destruct (snapshots w !! p) as [c|] eqn:E; [|reflexivity].
    apply map_eq. intros x.
    destruct (decide (x = p)) as [->|Hxp].
    + now rewrite lookup_insert_eq.
    + rewrite lookup_insert_ne by congruence.
      destruct (decide (x = q)) as [->|Hxq].
      * now rewrite lookup_delete_eq.
      * rewrite lookup_delete_ne by congruence.
        rewrite lookup_insert_ne by congruence.
        now rewrite lookup_delete_ne by congruence.
  - cbn [handleRename recentlyEditedInternally].
    cbn [handleRename recentlyEditedInternally] in Hr1.
    clear Hs1 Hs2 Hr2.
    destruct (decide (p ∈ recentlyEditedInternally w)) as [Hp|Hp].
    + rewrite (bool_decide_eq_true_2 _ Hp) in *.
      rewrite bool_decide_eq_true_2
        by (apply elem_of_union_l, elem_of_singleton; reflexivity).
      apply set_eq. intros x.
      repeat (rewrite elem_of_union || rewrite elem_of_difference
              || rewrite elem_of_singleton).
      destruct (decide (x = p)) as [Exp|Exp];
        destruct (decide (x = q)) as [Exq|Exq];
        [congruence|subst x; tauto|subst x; tauto|tauto].
    + rewrite (bool_decide_eq_false_2 _ Hp) in *.
      now rewrite (bool_decide_eq_false_2 _ Hr).
Qed.

(** A tracked note is edited, renamed and renamed back. *)
Lemma handleRename_back_witness :
  handleRename (TFile "a.md" "md") "b.md"
    (handleRename (TFile "b.md" "md") "a.md" (watcher renamed_after_edit))
  = watcher renamed_after_edit.
Proof.
  apply (handleRename_back (watcher renamed_after_edit) "a.md" "b.md" "md" "md").
  - discriminate.
  - vm_compute. reflexivity.
  - apply (bool_decide_unpack _). vm_compute. exact I.
Defined.

End FileWatcherMore.

(** * The fold state *)

Section FoldFieldFacts.
Import FoldUnchanged FoldField.
Local Open Scope Z_scope.

(** Calls of [builder.add] in the order the builder wants them: each
    decoration ends before the next one starts. *)
Definition apart (ds : list Added) : Prop :=
  StronglySorted (fun x y => add_to x < add_from y) ds.

Lemma buildFrom_of rs : forall i folded,
  Forall (fun x => exists r, In r rs /\ from r < to r
                             /\ add_from x = from r
                             /\ (add_to x = to r \/ add_to x = from r))
         (buildFrom i rs folded).
Proof.
  induction rs as [|r rs IH]; intros i folded; cbn [buildFrom];
    [constructor|].
  apply Forall_app. split.
  - destruct (to r <=? from r) eqn:E; [constructor|].
    apply Z.leb_gt in E.
    case_bool_decide; repeat constructor; exists r; cbn;
      (split; [now left|]); auto.
  - eapply List.Forall_impl; [|apply IH]. cbn.
    intros x (r' & Hin & ?). exists r'. split; [now right|assumption].
Qed.

Lemma buildFrom_apart rs : forall i folded,
  StronglySorted (fun r1 r2 => to r1 < from r2) rs ->
  apart (buildFrom i rs folded).
Proof.
  unfold apart.
  induction rs as [|r rs IH]; intros i folded Hs; cbn [buildFrom];
    [constructor|].
  apply StronglySorted_inv in Hs. destruct Hs as [Hs Hr].
  specialize (IH (i + 1) folded Hs).
  assert (Hlater : Forall (fun y => to r < add_from y)
                     (buildFrom (i + 1) rs folded)).
  { eapply List.Forall_impl; [|apply buildFrom_of]. cbn.
    intros y (r' & Hin & _ & -> & _).
    rewrite List.Forall_forall in Hr. now apply Hr. }
  destruct (to r <=? from r) eqn:E; [exact IH|].
  apply Z.leb_gt in E.
  case_bool_decide; cbn [app]; (constructor; [exact IH|]);
    (eapply List.Forall_impl; [|exact Hlater]); cbn; intros; lia.
Qed.

Lemma update_toggle s i :
  update s (toggle i)
  = mkFoldState (ranges s)
      (if bool_decide (i ∈ foldedIds s) then foldedIds s ∖ {[i]}
       else foldedIds s ∪ {[i]})
      (buildDecorations (ranges s)
         (if bool_decide (i ∈ foldedIds s) then foldedIds s ∖ {[i]}
          else foldedIds s ∪ {[i]})).
Proof. reflexivity. Qed.

Lemma update_setRanges s rs :
  update s (setRanges rs)
  = mkFoldState rs (all_indices rs) (buildDecorations rs (all_indices rs)).
Proof. reflexivity. Qed.

Lemma toggle_toggle (i : Z) (X : gset Z) :
  (let Y := if bool_decide (i ∈ X) then X ∖ {[i]} else X ∪ {[i]} in
   if bool_decide (i ∈ Y) then Y ∖ {[i]} else Y ∪ {[i]}) = X.
Proof.
  cbv zeta. destruct (decide (i ∈ X)) as [Hi|Hi].
  - rewrite (bool_decide_eq_true_2 _ Hi).
    assert (Hn : i ∉ X ∖ {[i]})
      by (rewrite elem_of_difference, elem_of_singleton; tauto).
    rewrite (bool_decide_eq_false_2 _ Hn).
    apply set_eq. intros x.
    rewrite elem_of_union, elem_of_difference, elem_of_singleton.
    destruct (decide (x = i)) as [->|]; tauto.
  - rewrite (bool_decide_eq_false_2 _ Hi).
    assert (Hn : i ∈ X ∪ {[i]})
      by (rewrite elem_of_union, elem_of_singleton; tauto).
    rewrite (bool_decide_eq_true_2 _ Hn).
    apply set_eq. intros x.
    rewrite elem_of_difference, elem_of_union, elem_of_singleton.
    destruct (decide (x = i)) as [->|]; tauto.
Qed.

(** X17.  On a state whose ranges are in order and apart, as those of
    [computeUnchangedRanges] are, [toggleFold] of an index flips that index
    and no other, leaves the ranges alone, and rebuilds the decorations with
    calls of [builder.add] that come in the order the builder wants, so that
    the builder does not throw; it is its own inverse: when the decorations
    of the state are those of its ranges and folded indices (as every state
    [update] has built is), two toggles of the same index give the state
    back. *)
Theorem toggleFold_involution (s : FoldState) (i : Z) :
  StronglySorted (fun r1 r2 => to r1 < from r2) (ranges s) ->
  ranges (update s (toggle i)) = ranges s
  /\ (forall j, j ∈ foldedIds (update s (toggle i))
                <-> (if decide (j = i) then j ∉ foldedIds s
                     else j ∈ foldedIds s))
  /\ decorations (update s (toggle i))
     = buildDecorations (ranges s) (foldedIds (update s (toggle i)))
  /\ apart (decorations (update s (toggle i)))
  /\ apart (decorations (update (update s (toggle i)) (toggle i)))
  /\ (decorations s = buildDecorations (ranges s) (foldedIds s) ->
      update (update s (toggle i)) (toggle i) = s).
Proof.
  intros Hs. rewrite !update_toggle. cbn [ranges foldedIds decorations].
  split; [reflexivity|]. split; [|split; [reflexivity|]].
  - intros j. case_bool_decide as Hi; destruct (decide (j = i)) as [->|Hne].
    + rewrite elem_of_difference, elem_of_singleton. tauto.
    + rewrite elem_of_difference, elem_of_singleton. tauto.
    + rewrite elem_of_union, elem_of_singleton. tauto.
    + rewrite elem_of_union, elem_of_singleton. tauto.
  - split; [apply buildFrom_apart; exact Hs|].
    split; [apply buildFrom_apart; exact Hs|].
    intros Hd.
    pose proof (toggle_toggle i (foldedIds s)) as E. cbn zeta in E.
    rewrite E. destruct s as [rs X ds]. cbn in *. now rewrite Hd.
Qed.

(** Two toggles of range 0 on a field with the two ranges of twenty lines
    with lines 11..12 changed. *)
Lemma toggleFold_involution_witness :
  let s := update create
             (setRanges [mkFoldRange 0 15 8; mkFoldRange 28 39 6]) in
  StronglySorted (fun r1 r2 => to r1 < from r2) (ranges s)
  /\ apart (decorations (update s (toggle 0)))
  /\ update (update s (toggle 0)) (toggle 0) = s.
Proof.
  cbv zeta.
  assert (Hs : StronglySorted (fun r1 r2 => to r1 < from r2)
                 (ranges (update create
                    (setRanges [mkFoldRange 0 15 8; mkFoldRange 28 39 6])))).
  { rewrite update_setRanges. cbn [ranges].
    repeat constructor. }
  split; [exact Hs|].
  destruct (toggleFold_involution _ 0 Hs) as (_ & _ & _ & Ha & _ & Hback).
  split; [exact Ha|].
  apply Hback. reflexivity.
Defined.

(** A click on a fold widget of one of the two editors. *)
Inductive Click : Type := OnA (index : Z) | OnB (index : Z).

Definition click (m : MergeFolds) (c : Click) : MergeFolds :=
  match c with OnA i => clickA i m | OnB i => clickB i m end.

(** Both fields have the decorations of their ranges and folded indices. *)
Definition built (m : MergeFolds) : Prop :=
  decorations (a m) = buildDecorations (ranges (a m)) (foldedIds (a m))
  /\ decorations (b m) = buildDecorations (ranges (b m)) (foldedIds (b m)).

Lemma click_keeps m c :
  ranges (a (click m c)) = ranges (a m)
  /\ ranges (b (click m c)) = ranges (b m)
  /\ built (click m c)
  /\ (foldedIds (a m) = foldedIds (b m) ->
      foldedIds (a (click m c)) = foldedIds (b (click m c))).
Proof.
  destruct c as [i|i]; unfold click, clickA, clickB, built;
    cbn [a b]; rewrite !update_toggle; cbn [ranges foldedIds decorations];
    repeat split; intros ->; reflexivity.
Qed.

Lemma clicks_keep cs : forall m,
  built m ->
  ranges (a (fold_left click cs m)) = ranges (a m)
  /\ ranges (b (fold_left click cs m)) = ranges (b m)
  /\ built (fold_left click cs m)
  /\ (foldedIds (a m) = foldedIds (b m) ->
      foldedIds (a (fold_left click cs m))
      = foldedIds (b (fold_left click cs m))).
Proof.
  induction cs as [|c cs IH]; intros m Hb; cbn [fold_left]; [auto|].
  destruct (click_keeps m c) as (Ra & Rb & Hb' & Hf).
  destruct (IH (click m c) Hb') as (Ra' & Rb' & Hb'' & Hf').
  rewrite Ra', Rb', Ra, Rb.
  split; [reflexivity|]. split; [reflexivity|]. split; [exact Hb''|].
  intros Hf0. apply Hf', Hf, Hf0.
Qed.

(** X18.  The folds of a merge view.  With the blocks in order on both
    sides, after [createMergeView] and any clicks on the fold widgets of
    either editor: each editor still has the unchanged ranges computed for
    its side (margin 2, at least 4 lines); its decorations are those of
    these ranges and of its folded indices, added to the builder in order,
    each ending before the next one starts; at first every range is
    folded; and when both sides have as many ranges, the two editors fold
    the same indices at all times. *)
Theorem merge_folds (docA docB : Text) (chunks : list Chunk)
    (m : MergeFolds) (cs : list Click) :
  chunks_ordered SideA chunks -> chunks_ordered SideB chunks ->
  initialFolds docA docB chunks = Some m ->
  let m' := fold_left click cs m in
  computeUnchangedRanges docA chunks SideA 2 4 = Some (ranges (a m'))
  /\ computeUnchangedRanges docB chunks SideB 2 4 = Some (ranges (b m'))
  /\ built m'
  /\ apart (decorations (a m')) /\ apart (decorations (b m'))
  /\ foldedIds (a m) = all_indices (ranges (a m))
  /\ foldedIds (b m) = all_indices (ranges (b m))
  /\ (length (ranges (a m)) = length (ranges (b m)) ->
      foldedIds (a m') = foldedIds (b m')).
Proof.
  intros HoA HoB. unfold initialFolds.
  destruct (computeUnchangedRanges docA chunks SideA 2 4) as [rsA|] eqn:EA;
    cbn [mbind option_bind]; [|discriminate].
  destruct (computeUnchangedRanges docB chunks SideB 2 4) as [rsB|] eqn:EB;
    cbn [mbind option_bind]; [|discriminate].
  intros [= <-]. cbv zeta. rewrite !update_setRanges.
  set (m0 := mkMergeFolds _ _).
  assert (Hb : built m0) by (split; reflexivity).
  destruct (clicks_keep cs m0 Hb) as (Ra & Rb & [Ba Bb] & Hf).
  set (m' := fold_left click cs m0) in *.
  cbn [a b ranges foldedIds m0] in *.
  assert (SA : StronglySorted (fun r1 r2 => to r1 < from r2) rsA).
  { destruct (computeUnchangedRanges_spans docA chunks SideA 2 4 rsA
                ltac:(lia) HoA EA)
      as (ps & sp & _ & -> & S1 & S2 & _).
    now apply spans_sorted_ranges. }
  assert (SB : StronglySorted (fun r1 r2 => to r1 < from r2) rsB).
  { destruct (computeUnchangedRanges_spans docB chunks SideB 2 4 rsB
                ltac:(lia) HoB EB)
      as (ps & sp & _ & -> & S1 & S2 & _).
    now apply spans_sorted_ranges. }
  rewrite Ra, Rb. split; [reflexivity|]. split; [reflexivity|].
  split; [split; assumption|].
  split; [rewrite Ba, Ra; now apply buildFrom_apart|].
  split; [rewrite Bb, Rb; now apply buildFrom_apart|].
  split; [reflexivity|]. split; [reflexivity|].
  intros Hlen. apply Hf. unfold all_indices. now rewrite Hlen.
Qed.

(** The twenty-line example on both sides, and a click on the first widget
    of editor A and one on the second widget of editor B. *)
Definition folds20 : MergeFolds :=
  mkMergeFolds
    (update create (setRanges [mkFoldRange 0 15 8; mkFoldRange 28 39 6]))
    (update create (setRanges [mkFoldRange 0 15 8; mkFoldRange 28 39 6])).

Lemma merge_folds_witness :
  apart (decorations (a (fold_left click [OnA 0; OnB 1] folds20)))
  /\ foldedIds (a (fold_left click [OnA 0; OnB 1] folds20))
     = foldedIds (b (fold_left click [OnA 0; OnB 1] folds20)).
Proof.
  assert (HA : chunks_ordered SideA chunks20)
    by (unfold chunks_ordered; cbn; repeat constructor; lia).
  assert (HB : chunks_ordered SideB chunks20)
    by (unfold chunks_ordered; cbn; repeat constructor; lia).
  assert (E : initialFolds doc20 doc20 chunks20 = Some folds20)
    by (vm_compute; reflexivity).
  destruct (merge_folds doc20 doc20 chunks20 folds20 [OnA 0; OnB 1] HA HB E)
    as (_ & _ & _ & H1 & _ & _ & _ & H2).
  split; [exact H1|]. apply H2. reflexivity.
Defined.

End FoldFieldFacts.

(** * The plugin and the watcher *)

Section PluginFacts.
Import FileWatcher Plugin.
Local Open Scope Z_scope.

(** A modification that brings the content the snapshot already has changes
    nothing and is not reported, whatever the settings, markers and
    editors. *)
Lemma handleModify_same_snapshot f content views w :
  snapshots w !! path f = Some content ->
  handleModify f content views w = (w, []).
Proof.
  unfold handleModify. destruct f as [p ext|p]; cbn [path]; [|reflexivity].
  destruct (negb (bool_decide (ext = "md"%string))); [reflexivity|].
  destruct (negb (enabled (settings w))); [reflexivity|].
  intros Hs. unfold handleModify_resume. rewrite Hs.
  rewrite bool_decide_eq_true_2 by reflexivity.
  now rewrite set_snapshot_same.
Qed.

Lemma markAsInternalEdit_keeps p w h :
  snapshots (fst (markAsInternalEdit p (w, h))) = snapshots w
  /\ pendingExternalPaths (fst (markAsInternalEdit p (w, h)))
     = pendingExternalPaths w
  /\ (p ∈ recentlyEditedInternally (fst (markAsInternalEdit p (w, h)))).
Proof.
  rewrite markAsInternalEdit_eq. cbn. repeat split.
  apply elem_of_union_l, elem_of_singleton. reflexivity.
Qed.

(** X19.  A resolved diff does not come back.  After [onAccept(content)]
    the path has no pending diff, is not pending in the watcher, and has
    [content] as its snapshot; the plugin has written [content] to the file
    -- after marking the path -- if [content] is not the new content of the
    diff and the file exists, and has written nothing otherwise.  After
    [onReject()] the same holds with the old content of the diff, written
    whenever the file exists.  In both cases the vault's [modify] event for
    what was written, or any other modification that brings the same
    content, leaves the watcher as it is and is not reported, with or
    without the marker. *)
Theorem resolved_not_reported (d : PendingDiff) (content : string)
    (file : option TAbstractFile) (st : State) :
  (let st' := onAccept d content file st in
   pendingDiffs st' !! diff_path d = None
   /\ (diff_path d ∉ pendingExternalPaths (fileWatcher st'))
   /\ snapshots (fileWatcher st') !! diff_path d = Some content
   /\ (written st' = written st
       /\ (content = diff_newContent d \/ file = None)
       \/ exists f,
            file = Some f /\ content <> diff_newContent d
            /\ written st' = written st ++ [(f, content)]
            /\ diff_path d ∈ recentlyEditedInternally (fileWatcher st'))
   /\ (forall f views,
          path f = diff_path d ->
          handleModify f content views (fileWatcher st')
          = (fileWatcher st', [])))
  /\ (let st' := onReject d file st in
      pendingDiffs st' !! diff_path d = None
      /\ (diff_path d ∉ pendingExternalPaths (fileWatcher st'))
      /\ snapshots (fileWatcher st') !! diff_path d = Some (diff_oldContent d)
      /\ (written st' = written st /\ file = None
          \/ exists f,
               file = Some f
               /\ written st' = written st ++ [(f, diff_oldContent d)]
               /\ diff_path d ∈ recentlyEditedInternally (fileWatcher st'))
      /\ (forall f views,
             path f = diff_path d ->
             handleModify f (diff_oldContent d) views (fileWatcher st')
             = (fileWatcher st', []))).
Proof.
  assert (Hu : forall c w,
             snapshots (updateSnapshot (diff_path d) c w) !! diff_path d
             = Some c
             /\ (diff_path d
                 ∉ pendingExternalPaths (updateSnapshot (diff_path d) c w)))
    by (intros; apply updateSnapshot_lookup).
  assert (Hm : forall c w f views,
             snapshots w !! diff_path d = Some c -> path f = diff_path d ->
             handleModify f c views w = (w, [])).
  { intros c w f views Hs Hf. apply handleModify_same_snapshot.
    now rewrite Hf. }
  split; cbv zeta.
  - unfold onAccept. destruct (Hu content (fileWatcher st)) as [Hs Hp].
    case_bool_decide as Hc; [|destruct file as [f|]].
    + cbn [pendingDiffs fileWatcher written].
      split; [apply lookup_delete_eq|]. split; [exact Hp|].
      split; [exact Hs|]. split; [left; auto|]. intros f views.
      now apply Hm.
    + destruct (markAsInternalEdit_keeps (diff_path d)
                  (updateSnapshot (diff_path d) content (fileWatcher st))
                  (timers st)) as (Ks & Kp & Kr).
      destruct (markAsInternalEdit (diff_path d) _) as [w2 h2].
      cbn [fst pendingDiffs fileWatcher written] in *.
      split; [apply lookup_delete_eq|]. split; [now rewrite Kp|].
      split; [now rewrite Ks|]. split; [right; exists f; auto|].
      intros f' views. apply Hm. now rewrite Ks.
    + cbn [pendingDiffs fileWatcher written].
      split; [apply lookup_delete_eq|]. split; [exact Hp|].
      split; [exact Hs|]. split; [left; auto|]. intros f views.
      now apply Hm.
  - unfold onReject. destruct file as [f|].
    + destruct (markAsInternalEdit_keeps (diff_path d) (fileWatcher st)
                  (timers st)) as (_ & _ & Kr).
      destruct (markAsInternalEdit (diff_path d) _) as [w1 h1].
      cbn [fst pendingDiffs fileWatcher written] in *.
      destruct (Hu (diff_oldContent d) w1) as [Hs Hp].
      split; [apply lookup_delete_eq|]. split; [exact Hp|].
      split; [exact Hs|]. split; [right; exists f; auto|].
      intros f' views. now apply Hm.
    + cbn [pendingDiffs fileWatcher written].
      destruct (Hu (diff_oldContent d) (fileWatcher st)) as [Hs Hp].
      split; [apply lookup_delete_eq|]. split; [exact Hp|].
      split; [exact Hs|]. split; [left; auto|]. intros f views.
      now apply Hm.
Qed.

(** An external modification is reported and rejected: the write that
    restores the old content is not reported. *)
Definition reported_state : State :=
  acts [Watch (Create (md "a.md") "S0"); Watch (Modify (md "a.md") "S1" [])]
       (loaded enabled_settings).

Lemma resolved_not_reported_witness :
  path (md "a.md") = diff_path (mkPendingDiff "a.md" "S0" "S1")
  /\ handleModify (md "a.md") "S0" []
       (fileWatcher (onReject (mkPendingDiff "a.md" "S0" "S1")
                       (Some (md "a.md")) reported_state))
     = (fileWatcher (onReject (mkPendingDiff "a.md" "S0" "S1")
                       (Some (md "a.md")) reported_state), []).
Proof.
  split; [reflexivity|].
  destruct (resolved_not_reported (mkPendingDiff "a.md" "S0" "S1") "S1"
              (Some (md "a.md")) reported_state)
    as (_ & _ & _ & _ & _ & H).
  apply (H (md "a.md") []). reflexivity.
Defined.

(** ** Pending paths and pending diffs *)

(** Every path that is pending in the watcher has a diff, and every diff is
    stored under the path its callbacks have captured. *)
Definition diffs_cover (st : State) : Prop :=
  (forall p, p ∈ pendingExternalPaths (fileWatcher st) ->
             is_Some (pendingDiffs st !! p))
  /\ (forall p d, pendingDiffs st !! p = Some d -> diff_path d = p).

Lemma step_pending w h ev p :
  p ∈ pendingExternalPaths (watcher (step (mkWorld w h []) ev)) ->
  p ∈ pendingExternalPaths w
  \/ exists r, In r (reported (step (mkWorld w h []) ev)) /\ report_path r = p.
Proof.
  destruct ev; cbn [step watcher host reported].
  - unfold handleModify, handleModify_resume.
    destruct file as [q ext|q]; [|cbn; auto].
    repeat (match goal with
            | |- context [if ?b then _ else _] => destruct b
            | |- context [match ?o with Some _ => _ | None => _ end] =>
                destruct o
            end); cbn; auto.
    rewrite elem_of_union, elem_of_singleton. intros [->|?]; [right|auto].
    eexists. split; [left; reflexivity|reflexivity].
  - unfold handleCreate. destruct file as [q ext|q]; [|cbn; auto].
    destruct (negb _); cbn; auto.
  - destruct file; cbn; auto.
  - destruct file; cbn; auto.
  - cbn. rewrite elem_of_difference. intros [? _]. auto.
  - pose proof (markAsInternalEdit_keeps p0 w h) as (_ & Kp & _).
    destruct (markAsInternalEdit p0 (w, h)) as [w' h'].
    cbn [fst watcher] in *. rewrite Kp. auto.
  - cbn. intros H. now apply elem_of_empty in H.
  - unfold fireTimeout. destruct (timeouts h !! id) as [[q due]|]; [|cbn; auto].
    destruct (due <=? now h); cbn; auto.
  - cbn. auto.
  - cbn. auto.
  - cbn. auto.
Qed.

Lemma handleExternalChange_fold rs : forall st,
  let st' := fold_left (fun st' r => handleExternalChange r st') rs st in
  fileWatcher st' = fileWatcher st
  /\ (forall p, is_Some (pendingDiffs st !! p)
                \/ (exists r, In r rs /\ report_path r = p) ->
                is_Some (pendingDiffs st' !! p))
  /\ ((forall p d, pendingDiffs st !! p = Some d -> diff_path d = p) ->
      forall p d, pendingDiffs st' !! p = Some d -> diff_path d = p).
Proof.
  induction rs as [|r rs IH]; intros st; cbn [fold_left].
  - split; [reflexivity|]. split; [|auto].
    intros p [H|(r & [] & _)]. exact H.
  - destruct (IH (handleExternalChange r st)) as (I1 & I2 & I3).
    cbv zeta in *. rewrite I1. split; [reflexivity|]. split.
    + intros p Hp. apply I2. cbn [handleExternalChange pendingDiffs].
      destruct (decide (report_path r = p)) as [<-|Hne].
      * left. rewrite lookup_insert_eq. eauto.
      * rewrite lookup_insert_ne by exact Hne.
        destruct Hp as [Hp|(r' & [->|Hin] & Hr')]; [auto|congruence|eauto].
    + intros HJ. apply I3. cbn [handleExternalChange pendingDiffs].
      intros p d. destruct (decide (report_path r = p)) as [<-|Hne].
      * rewrite lookup_insert_eq. now intros [= <-].
      * rewrite lookup_insert_ne by exact Hne. apply HJ.
Qed.

Lemma diffs_cover_act st a : diffs_cover st -> diffs_cover (act st a).
Proof.
  intros [HI HJ]. destruct a as [ev|d content file|d file|file old new];
    cbn [act].
  - pose proof (step_pending (fileWatcher st) (timers st) ev) as Hstep.
    set (s := step (mkWorld (fileWatcher st) (timers st) []) ev) in *.
    destruct (handleExternalChange_fold (reported s)
                (mkState (watcher s) (host s) (pendingDiffs st) (written st)))
      as (F1 & F2 & F3).
    cbv zeta in *. cbn [fileWatcher pendingDiffs] in *. split.
    + intros p Hp. rewrite F1 in Hp. apply F2.
      destruct (Hstep p Hp) as [H|H]; [left; now apply HI|now right].
    + now apply F3.
  - unfold onAccept.
    assert (Hkeep : forall w h wr,
              pendingExternalPaths w
              = pendingExternalPaths
                  (updateSnapshot (diff_path d) content (fileWatcher st)) ->
              diffs_cover (mkState w h
                             (delete (diff_path d) (pendingDiffs st)) wr)).
    { intros w h wr Hw. split; cbn [fileWatcher pendingDiffs].
      - intros p. rewrite Hw. cbn. rewrite elem_of_difference, elem_of_singleton.
        intros [Hp Hne]. rewrite lookup_delete_ne by congruence. now apply HI.
      - intros p d' H. apply lookup_delete_Some in H. destruct H as [_ H].
        now apply HJ. }
    case_bool_decide; [now apply Hkeep|]. destruct file as [f|];
      [|now apply Hkeep].
    destruct (markAsInternalEdit_keeps (diff_path d)
                (updateSnapshot (diff_path d) content (fileWatcher st))
                (timers st)) as (_ & Kp & _).
    destruct (markAsInternalEdit (diff_path d) _) as [w2 h2].
    cbn [fst] in Kp. now apply Hkeep.
  - unfold onReject.
    assert (Hkeep : forall w, pendingExternalPaths w
                              = pendingExternalPaths (fileWatcher st) ->
              forall h wr,
                diffs_cover (mkState (updateSnapshot (diff_path d)
                                        (diff_oldContent d) w) h
                               (delete (diff_path d) (pendingDiffs st)) wr)).
    { intros w Hw h wr. split; cbn [fileWatcher pendingDiffs].
      - intros p. cbn. rewrite Hw, elem_of_difference, elem_of_singleton.
        intros [Hp Hne]. rewrite lookup_delete_ne by congruence. now apply HI.
      - intros p d' H. apply lookup_delete_Some in H. destruct H as [_ H].
        now apply HJ. }
    destruct file as [f|]; [|now apply Hkeep].
    destruct (markAsInternalEdit_keeps (diff_path d) (fileWatcher st)
                (timers st)) as (_ & Kp & _).
    destruct (markAsInternalEdit (diff_path d) _) as [w1 h1].
    cbn [fst] in Kp. now apply Hkeep.
  - destruct (markAsInternalEdit_keeps (path file) (fileWatcher st)
                (timers st)) as (_ & Kp & _).
    destruct (markAsInternalEdit (path file) _) as [w1 h1].
    cbn [fst] in Kp. split; cbn [handleExternalChange fileWatcher pendingDiffs
                                   report_path oldContent newContent].
    + intros p. rewrite Kp. intros Hp.
      destruct (decide (path file = p)) as [<-|Hne].
      * rewrite lookup_insert_eq. eauto.
      * rewrite lookup_insert_ne by exact Hne. now apply HI.
    + intros p d'. destruct (decide (path file = p)) as [<-|Hne].
      * rewrite lookup_insert_eq. now intros [= <-].
      * rewrite lookup_insert_ne by exact Hne. apply HJ.
Qed.

Lemma diffs_cover_acts l : forall st, diffs_cover st -> diffs_cover (acts l st).
Proof.
  induction l as [|x l IH]; intros st H; [exact H|].
  cbn [acts fold_left]. apply IH. now apply diffs_cover_act.
Qed.

(** X20.  Whatever happens to the plugin after [onload] -- vault events,
    edits, timeouts, changes of the settings, clicks on Accept and Reject,
    the test commands -- every path that is pending in the watcher has a
    pending diff in the plugin, with callbacks for that same path: what the
    watcher holds back can be resolved from the diff tab. *)
Theorem pending_paths_have_diffs (l : list Action)
    (settings : ExternalDiffSettings) (p : string) :
  let st := acts l (loaded settings) in
  p ∈ pendingExternalPaths (fileWatcher st) ->
  exists d, pendingDiffs st !! p = Some d /\ diff_path d = p.
Proof.
  intros st Hp.
  assert (H : diffs_cover st).
  { apply diffs_cover_acts. split; cbn.
    - intros q Hq. now apply elem_of_empty in Hq.
    - intros q d. rewrite lookup_empty. discriminate. }
  destruct H as [HI HJ]. destruct (HI p Hp) as [d Hd].
  exists d. split; [exact Hd|]. now apply HJ.
Qed.

(** A file is created and then modified from outside. *)
Lemma pending_paths_have_diffs_witness :
  exists d,
    pendingDiffs (acts [Watch (Create (md "a.md") "S0");
                        Watch (Modify (md "a.md") "S1" [])]
                       (loaded enabled_settings)) !! "a.md"%string = Some d
    /\ diff_path d = "a.md"%string.
Proof.
  apply (pending_paths_have_diffs
           [Watch (Create (md "a.md") "S0");
            Watch (Modify (md "a.md") "S1" [])] enabled_settings "a.md").
  apply (bool_decide_unpack _). vm_compute. exact I.
Defined.

End PluginFacts.

(** * A last line removed *)

Section LastLineFacts.
Import PatienceDiff.
Local Open Scope Z_scope.

(** ** The diff of [L ++ [e]] against [L] *)

Section Prefix.
Variable L : list string.
Variable e : string.

Lemma arr_get_prefix i :
  i < Z.of_nat (length L) -> arr_get (L ++ [e]) i = arr_get L i.
Proof.
  intros Hi. unfold arr_get. destruct (i <? 0) eqn:E; [reflexivity|].
  apply Z.ltb_ge in E. apply lookup_app_l. lia.
Qed.

Lemma uniqueCommon_emptyB (A B : list string) aLo aHi bLo bHi :
  bHi < bLo -> uniqueCommon A aLo aHi B bLo bHi = [].
Proof.
  intros H.
  destruct (uniqueCommon A aLo aHi B bLo bHi) as [|[k x] m] eqn:E;
    [reflexivity|exfalso].
  assert (Hin : In (k, x) (uniqueCommon A aLo aHi B bLo bHi))
    by (rewrite E; now left).
  apply uniqueCommon_anchor_at in Hin. destruct Hin as (_ & _ & Hb & _). lia.
Qed.

Lemma skipEnd_emptyB (A B : list string) n aLo aHi bLo bHi :
  bHi < bLo -> skipEnd A B n aLo aHi bLo bHi = (aHi, bHi).
Proof.
  intros H. destruct n; cbn [skipEnd]; [reflexivity|].
  replace (bLo <=? bHi) with false by (symmetry; apply Z.leb_gt; lia).
  now rewrite andb_false_r.
Qed.

(** A Match of a position with itself, or a DeleteOnly. *)
Definition same_or_delete (x : DiffEntry) : Prop :=
  0 <= aIndex x /\ (bIndex x = aIndex x \/ bIndex x = -1).

Lemma addSubMatch_prefix fuel a h h' res :
  0 <= a -> a <= h' + 1 -> h' <= h -> h' < Z.of_nat (length L) ->
  exists out,
    addSubMatch (L ++ [e]) L (S fuel) a h a h' res = Some (res ++ out)
    /\ Forall same_or_delete out.
Proof.
  intros Ha Hah Hh Hn. cbn [addSubMatch].
  destruct (matchBeginning_spec (L ++ [e]) L (Z.to_nat (h + 1 - a)) a h a h' res
              ltac:(lia)) as (k & Ek & Hle & _ & Hstop).
  assert (Hk : a + Z.of_nat k = h' + 1).
  { destruct (Z.le_gt_cases (a + Z.of_nat k) h') as [Hc|Hc].
    - exfalso.
      replace (a + Z.of_nat k <=? h) with true in Hstop
        by (symmetry; apply Z.leb_le; lia).
      replace (a + Z.of_nat k <=? h') with true in Hstop
        by (symmetry; apply Z.leb_le; lia).
      rewrite arr_get_prefix, line_eqb_refl in Hstop by lia. discriminate.
    - destruct k as [|k]; [lia|]. specialize (Hle ltac:(lia)). lia. }
  rewrite Ek, Hk.
  rewrite skipEnd_emptyB by lia.
  rewrite uniqueCommon_emptyB by lia. cbn [length Nat.eqb mbind option_bind].
  unfold addEndMatches at 1. rewrite (span_indices_nil (h + 1) h) by lia.
  cbn [fold_left]. unfold addInserts, addDeletes.
  rewrite (span_indices_nil (h' + 1) h') by lia. cbn [fold_left].
  rewrite (fold_addToResult (L ++ [e]) L (fun i => i) (fun i => -1)).
  rewrite <- app_assoc. eexists. split; [reflexivity|].
  apply Forall_app. split.
  - eapply List.Forall_impl; [|apply match_run_matches].
    unfold same_or_delete. cbn. intros x. lia.
  - apply List.Forall_forall. intros x Hx. apply in_map_iff in Hx.
    destruct Hx as (i & <- & Hi). apply in_span_indices in Hi.
    unfold same_or_delete. cbn. lia.
Qed.

Lemma betweenAnchors_prefix fuel x : forall res,
  StronglySorted anchor_lt x ->
  Forall (fun y => indexA y = indexB y /\ 0 <= indexA y
                   /\ indexA y < Z.of_nat (length L)) x ->
  exists out,
    betweenAnchors (addSubMatch (L ++ [e]) L (S fuel)) x res = Some (res ++ out)
    /\ Forall same_or_delete out.
Proof.
  induction x as [|xi x IH]; intros res Hs Hx.
  - exists []. cbn. rewrite app_nil_r. split; [reflexivity|constructor].
  - destruct x as [|xj rest].
    + exists []. cbn. rewrite app_nil_r. split; [reflexivity|constructor].
    + inversion Hx as [|? ? (Ei & Hi & Hni) Hx']; subst.
      pose proof Hx' as Hx''. inversion Hx'' as [|? ? (Ej & Hj & Hnj) _]; subst.
      apply StronglySorted_inv in Hs. destruct Hs as [Hs Hlt].
      inversion Hlt as [|? ? [Hij _] _]; subst.
      rewrite betweenAnchors_cons, <- Ei, <- Ej.
      destruct (addSubMatch_prefix fuel (indexA xi) (indexA xj - 1)
                  (indexA xj - 1) res) as (o1 & E1 & M1); try lia.
      rewrite E1. cbn [mbind option_bind].
      destruct (IH (res ++ o1) Hs Hx') as (o2 & E2 & M2).
      exists (o1 ++ o2). rewrite E2, <- app_assoc. split; [reflexivity|].
      apply Forall_app. tauto.
Qed.

Lemma uniqueCommon_prefix_diag k x :
  In (k, x) (uniqueCommon (L ++ [e]) 0 (Z.of_nat (length L))
               L 0 (Z.of_nat (length L) - 1)) ->
  indexA x = indexB x /\ 0 <= indexA x /\ indexA x < Z.of_nat (length L).
Proof.
  intros H. apply uniqueCommon_In in H.
  destruct H as (ia & ib & -> & Ha & Hb). cbn.
  pose proof (findUnique_NoDup (L ++ [e]) 0 (Z.of_nat (length L))) as Hnd.
  pose proof Ha as Ha'. apply findUnique_In in Ha'.
  destruct Ha' as (Hia & Hka & Hocc).
  apply findUnique_In in Hb. destruct Hb as (Hib & Hkb & _).
  assert (Hb' : In (k, ib) (findUnique (L ++ [e]) 0 (Z.of_nat (length L)))).
  { apply findUnique_In. split; [lia|]. split; [|exact Hocc].
    rewrite arr_get_prefix by lia. exact Hkb. }
  apply (map_get_NoDup _ _ _ Hnd) in Ha, Hb'.
  assert (ia = ib) by congruence. lia.
Qed.

Lemma patienceDiff_prefix_shape :
  exists r, patienceDiff (L ++ [e]) L = Some r /\ Forall same_or_delete r.
Proof.
  unfold patienceDiff, patienceDiff_fuel, recurseLCS, recurseLCS_with.
  rewrite length_app. cbn [length].
  replace (Z.of_nat (length L + 1) - 1) with (Z.of_nat (length L)) by lia.
  set (n := Z.of_nat (length L)).
  set (fuel := (length L + 1 + length L)%nat).
  set (P := fun ia ib : Z => ia = ib /\ 0 <= ia /\ ia < n).
  destruct (longestCommonSubsequence_ok P
              (uniqueCommon (L ++ [e]) 0 n L 0 (n - 1))) as (Hs & HP & _).
  { apply uniqueCommon_sorted. }
  { intros k x Hin. split.
    - now apply uniqueCommon_anchor_at in Hin.
    - now apply uniqueCommon_prefix_diag in Hin. }
  destruct (longestCommonSubsequence
              (uniqueCommon (L ++ [e]) 0 n L 0 (n - 1))) as [|x0 xs].
  - destruct (addSubMatch_prefix fuel 0 n (n - 1) []) as (o & E & M);
      try (subst n; lia).
    exists o. split; [exact E|exact M].
  - pose proof HP as HP'. inversion HP' as [|? ? (E0 & H0 & Hn0) _]; subst.
    assert (H1 : exists o1,
               (if (0 <? indexA x0) || (0 <? indexB x0)
                then addSubMatch (L ++ [e]) L (S fuel)
                       0 (indexA x0 - 1) 0 (indexB x0 - 1) []
                else Some []) = Some ([] ++ o1)
               /\ Forall same_or_delete o1).
    { destruct ((0 <? indexA x0) || (0 <? indexB x0)).
      - rewrite <- E0. apply addSubMatch_prefix; subst n; lia.
      - exists []. split; [reflexivity|constructor]. }
    destruct H1 as (o1 & E1 & M1). rewrite E1. cbn [mbind option_bind].
    destruct (betweenAnchors_prefix fuel (x0 :: xs) ([] ++ o1) Hs HP)
      as (o2 & E2 & M2).
    rewrite E2. cbn [mbind option_bind].
    destruct (sorted_last (fun y => P (indexA y) (indexB y))
                x0 xs x0 Hs HP) as ((El & Hl & Hnl) & _).
    cbn zeta in El, Hl, Hnl.
    set (xl := List.last (x0 :: xs) x0) in *.
    destruct ((indexA xl <=? n) || (indexB xl <=? n - 1)).
    + rewrite <- El.
      destruct (addSubMatch_prefix fuel (indexA xl) n (n - 1)
                  (([] ++ o1) ++ o2)) as (o3 & E3 & M3); try (subst n; lia).
      rewrite E3. exists ((o1 ++ o2) ++ o3). split; [reflexivity|].
      repeat (apply Forall_app; split); assumption.
    + exists (o1 ++ o2). split; [reflexivity|].
      apply Forall_app; split; assumption.
Qed.

Lemma arr_get_last : arr_get (L ++ [e]) (Z.of_nat (length L)) = Some e.
Proof.
  unfold arr_get.
  replace (Z.of_nat (length L) <? 0) with false
    by (symmetry; apply Z.ltb_ge; lia).
  rewrite Nat2Z.id, lookup_app_r by lia.
  now replace (length L - length L)%nat with 0%nat by lia.
Qed.

(** [patienceDiff(L ++ [e], L)] matches every position of [L] with itself
    and deletes the last position of [L ++ [e]]. *)
Lemma patienceDiff_prefix :
  patienceDiff (L ++ [e]) L =
  Some (map (fun i => mkDiffEntry (arr_get L i) i i)
            (span_indices 0 (Z.of_nat (length L) - 1))
        ++ [mkDiffEntry (Some e) (Z.of_nat (length L)) (-1)]).
Proof.
  destruct patienceDiff_prefix_shape as (r & E & Hsd).
  destruct (patienceDiff_covers (L ++ [e]) L) as (r' & E' & C).
  rewrite E in E'. injection E' as <-. rewrite E. f_equal.
  destruct C as (Ha & Hb & Hok).
  rewrite length_app in Ha. cbn [length] in Ha.
  replace (Z.of_nat (length L + 1) - 1) with (Z.of_nat (length L)) in Ha by lia.
  set (n := Z.of_nat (length L)) in *.
  rewrite List.Forall_forall in Hsd, Hok.
  assert (HaS : aSide r = r).
  { apply filter_all. intros x Hx. apply Z.leb_le. now apply Hsd. }
  rewrite HaS in Ha.
  rewrite <- (span_indices_app 0 (n - 1) n) in Ha by (subst n; lia).
  replace (n - 1 + 1) with n in Ha by lia.
  rewrite (span_indices_cons n n), (span_indices_nil (n + 1) n) in Ha by lia.
  apply map_eq_app in Ha. destruct Ha as (r1 & r2 & -> & H1 & H2).
  apply map_eq_cons in H2. destruct H2 as (d & tl & -> & Hd & Htl).
  apply map_eq_nil in Htl. subst tl.
  assert (Hbd : bIndex d = -1).
  { destruct (Hsd d) as [_ [Hx|Hx]];
      [apply in_or_app; right; now left| |exact Hx].
    exfalso.
    assert (Hin : In (bIndex d) (map bIndex (bSide (r1 ++ [d])))).
    { apply in_map. apply filter_In. split;
        [apply in_or_app; right; now left|].
      apply Z.leb_le. subst n. lia. }
    rewrite Hb in Hin. apply in_span_indices in Hin. lia. }
  assert (Hld : line d = Some e).
  { destruct (Hok d) as (_ & _ & _ & Hl & _);
      [apply in_or_app; right; now left|].
    rewrite Hl by (subst n; lia). rewrite Hd. apply arr_get_last. }
  assert (Hb1 : bSide r1 = r1).
  { unfold bSide in Hb. rewrite List.filter_app in Hb. cbn [List.filter] in Hb.
    rewrite Hbd in Hb. cbn in Hb. rewrite app_nil_r in Hb.
    assert (Hlen : length (List.filter (fun x => 0 <=? bIndex x) r1)
                   = length r1).
    { rewrite <- (length_map bIndex), Hb, <- (length_map aIndex r1), H1.
      reflexivity. }
    apply filter_length_forallb in Hlen. rewrite forallb_forall in Hlen.
    apply filter_all. exact Hlen. }
  f_equal.
  - rewrite <- H1, map_map. rewrite <- (map_id r1) at 1.
    apply map_ext_in. intros x Hx.
    assert (Hxr : In x (r1 ++ [d])) by (apply in_or_app; now left).
    assert (Hxa : In (aIndex x) (span_indices 0 (n - 1)))
      by (rewrite <- H1; now apply in_map).
    apply in_span_indices in Hxa.
    assert (Hxb : 0 <= bIndex x).
    { rewrite <- Hb1 in Hx. apply filter_In in Hx. destruct Hx as [_ Hx].
      now apply Z.leb_le. }
    destruct (Hsd x Hxr) as [_ Hx'].
    destruct (Hok x Hxr) as (_ & _ & _ & Hl & _).
    rewrite arr_get_prefix in Hl by (subst n; lia).
    destruct x as [lx ax bx]. cbn in *. f_equal; [now apply Hl|lia].
  - destruct d as [ld ad bd]. cbn in *. now subst.
Qed.

End Prefix.

(** ** The edit block *)

Lemma changesLoop_matches aLines bLines ms :
  Forall (fun x => isMatch x = true /\ is_Some (line x)) ms ->
  forall rest n curA curB changes,
    changesLoop aLines bLines (length ms + n) (ms ++ rest) curA curB changes
    = changesLoop aLines bLines n rest
        (curA + restA aLines ms) (curB + restB bLines ms) changes.
Proof.
  induction 1 as [|m ms [Hm [l Hl]] Hms IH]; intros rest n curA curB changes.
  - cbn [length app Nat.add]. unfold restA, restB. cbn.
    now rewrite !Z.add_0_r.
  - cbn [length app Nat.add changesLoop]. rewrite Hm, Hl.
    cbn [line_length fmap option_fmap option_map mbind option_bind].
    rewrite IH, restA_cons, restB_cons.
    unfold isMatch in Hm. apply andb_prop in Hm. destruct Hm as [Ha Hb].
    unfold advA, advB. rewrite Ha, Hb, Hl. cbn [len_of]. unfold slen.
    f_equal; lia.
Qed.

Lemma split_from_snoc (t : string) :
  split_lines t = [t] ->
  forall s cur,
    split_from cur (s +:+ String "010"%char t) = split_from cur s ++ [t].
Proof.
  intros Ht. induction s as [|c s IH]; intros cur.
  - change (EmptyString +:+ String "010"%char t) with (String "010"%char t).
    cbn [split_from]. rewrite Ascii.eqb_refl.
    unfold split_lines in Ht. now rewrite Ht.
  - rewrite append_cons. cbn [split_from].
    destruct (Ascii.eqb c "010"%char); rewrite IH; reflexivity.
Qed.

Lemma rest_matches (A B L : list string) :
  let ms := map (fun i => mkDiffEntry (arr_get L i) i i)
                (span_indices 0 (Z.of_nat (length L) - 1)) in
  Forall (fun x => isMatch x = true /\ is_Some (line x)) ms
  /\ restA A ms = zsum (map slen L)
                  + Z.min (Z.of_nat (length L))
                          (Z.max (Z.of_nat (length A) - 1) 0)
  /\ restB B ms = zsum (map slen L)
                  + Z.min (Z.of_nat (length L))
                          (Z.max (Z.of_nat (length B) - 1) 0).
Proof.
  cbv zeta. split; [|split].
  - apply List.Forall_forall. intros x Hx. apply in_map_iff in Hx.
    destruct Hx as (i & <- & Hi). apply in_span_indices in Hi.
    unfold isMatch. cbn.
    replace (0 <=? i) with true by (symmetry; apply Z.leb_le; lia).
    split; [reflexivity|].
    destruct (arr_get_In L i ltac:(lia)) as (l & Hl & _). rewrite Hl. eauto.
  - unfold restA. rewrite map_map.
    rewrite (map_ext_in _ (fun i => len_of (arr_get L i)
                                    + (if i <? Z.of_nat (length A) - 1
                                       then 1 else 0))).
    2:{ intros i Hi. apply in_span_indices in Hi. unfold advA, sepA. cbn.
        now replace (0 <=? i) with true by (symmetry; apply Z.leb_le; lia). }
    rewrite span_indices_seq, zsum_plus, count_below.
    rewrite <- (map_map (arr_get L) len_of), arr_get_all, zsum_len_of.
    reflexivity.
  - unfold restB. rewrite map_map.
    rewrite (map_ext_in _ (fun i => len_of (arr_get L i)
                                    + (if i <? Z.of_nat (length B) - 1
                                       then 1 else 0))).
    2:{ intros i Hi. apply in_span_indices in Hi. unfold advB, sepB. cbn.
        now replace (0 <=? i) with true by (symmetry; apply Z.leb_le; lia). }
    rewrite span_indices_seq, zsum_plus, count_below.
    rewrite <- (map_map (arr_get L) len_of), arr_get_all, zsum_len_of.
    reflexivity.
Qed.

(** X21.  A removed last line.  When [a] is [b] followed by a line break
    and one more line [t], [lineDiff(a, b)] is one edit block that covers
    [t] in [a] and nothing in [b]; the line break before [t], which is in
    [a] only, is outside the block.  When [t] is empty -- the two texts
    differ by a final line break only -- the block is empty on both
    sides. *)
Theorem lineDiff_last_line_removed (s t : string) :
  split_lines t = [t] ->
  lineDiff (s +:+ String "010"%char t) s
  = Some [mkChange (Z.of_nat (String.length s) + 1)
                   (Z.of_nat (String.length s) + 1
                    + Z.of_nat (String.length t))
                   (Z.of_nat (String.length s))
                   (Z.of_nat (String.length s))].
Proof.
  intros Ht.
  assert (Ea : split_lines (s +:+ String "010"%char t) = split_lines s ++ [t])
    by (unfold split_lines; now apply split_from_snoc).
  unfold lineDiff. cbv zeta. rewrite Ea. set (L := split_lines s).
  rewrite patienceDiff_prefix. cbn [mbind option_bind].
  destruct (rest_matches (L ++ [t]) L L) as (Hms & HA & HB). cbv zeta in *.
  set (ms := map _ (span_indices 0 (Z.of_nat (length L) - 1))) in *.
  rewrite length_app. cbn [length].
  rewrite (changesLoop_matches (L ++ [t]) L ms Hms
             [mkDiffEntry (Some t) (Z.of_nat (length L)) (-1)] 1 0 0 []).
  rewrite HA, HB.
  pose proof (split_lines_total s) as Htot. fold L in Htot.
  assert (Hn : (1 <= length L)%nat).
  { subst L. unfold split_lines.
    destruct (split_from_cons s EmptyString) as (l & ls & ->). cbn. lia. }
  rewrite length_app in *. cbn [length] in *.
  set (d := mkDiffEntry (Some t) (Z.of_nat (length L)) (-1)).
  assert (Hm : isMatch d = false) by (unfold isMatch; apply andb_false_r).
  cbn [changesLoop changeRun]. rewrite Hm.
  change (line_length (line d)) with (Some (Z.of_nat (String.length t))).
  change (bIndex d =? -1) with true.
  cbn [mbind option_bind app].
  assert (Hsep : sepA (L ++ [t]) d = 0).
  { unfold sepA, d. cbn [aIndex]. rewrite length_app. cbn [length].
    now replace (Z.of_nat (length L) <? Z.of_nat (length L + 1) - 1) with false
      by (symmetry; apply Z.ltb_ge; lia). }
  rewrite Hsep. change (slen s) with (Z.of_nat (String.length s)) in Htot.
  f_equal. f_equal. f_equal; lia.
Qed.

(** ["x"], a line break and ["y"], against ["x"]: the block is [2..3] of the
    first text, the line break at offset 1 is outside. *)
Lemma lineDiff_last_line_removed_witness :
  lineDiff "x
y" "x" = Some [mkChange 2 3 1 1].
Proof.
  apply (lineDiff_last_line_removed "x" "y"). reflexivity.
Defined.

End LastLineFacts.
